(** * getcontacts: pi-cation detection and hydrogen-bond stratification

    A shallow embedding of [contact_calc/stratify_hbonds.py],
    [contact_calc/pi_cation.py] and, from
    [contact_calc/contact_utils.py], the geometry helpers, the atom
    labels of a selection and the parsing of contacts, together with
    the properties of these functions that the specification states
    and further properties of the code.

    Conventions of the embedding:
    - the sources are Python 2: [map] returns a list, which [len] and
      indexing accept;
    - a Python [str] is a [string] (a sequence of bytes, compared
      bytewise); [a in b] on strings is the substring test [str_in];
    - a Python exception is a value of [exn], a function that can raise
      returns a [result], and a local variable that a loop may leave
      unassigned is an [option];
    - a [dict] is a [gmap], a [set] is a [gset]; every iteration over a
      set or dict in the sources feeds a [sorted] call or another set,
      except the group loop of [compute_pi_cation], whose output order
      follows the iteration order of the dictionary;
    - a Python tuple or list row is a Rocq tuple;
    - the float arithmetic of the geometry is an interface [Arith],
      instantiated with IEEE doubles; [math.acos], which comes from
      the C library, is a parameter of the instance;
    - the VMD queries (atom selections, [measure contacts], atom
      coordinates) are inputs of the functions that use them. *)

From Stdlib Require Import ZArith String Ascii List Bool Lia.
From Stdlib Require Import Floats.
From stdpp Require Import gmap strings list sorting.

Set Warnings "-clear-no-such-hyp".

Local Open Scope Z_scope.
Local Open Scope string_scope.
Local Open Scope list_scope.

(** ** Python values: exceptions and results *)

Inductive exn : Type :=
| UnboundLocalError (name : string)
| IndexError
| KeyError
| ValueError.

Inductive result (A : Type) : Type :=
| Ok (a : A)
| Raise (e : exn).
Arguments Ok {A} a.
Arguments Raise {A} e.

(** Sequencing: [x ← m; k] runs [m] and passes its value to [k], or
    propagates the exception [m] raised. *)
#[export] Instance result_bind : MBind result := fun A B k m =>
  match m with
  | Ok a => k a
  | Raise e => Raise e
  end.

(** A [for] loop whose body may raise: the state is threaded through
    the elements in order and the first exception ends the loop. *)
Fixpoint for_each {A S} (body : S -> A -> result S) (xs : list A) (st : S)
  : result S :=
  match xs with
  | [] => Ok st
  | x :: xs' => st' ← body st x; for_each body xs' st'
  end.

(** Reading a local variable that may not have been assigned yet. *)
Definition read_local {A} (name : string) (v : option A) : result A :=
  match v with
  | Some a => Ok a
  | None => Raise (UnboundLocalError name)
  end.

(** [l[i]] for a non-negative index. *)
Definition getitem {A} (l : list A) (i : nat) : result A :=
  match nth_error l i with
  | Some a => Ok a
  | None => Raise IndexError
  end.

(** ** Python strings *)

(** [s.startswith(p)]. *)
Fixpoint startswith (p s : string) : bool :=
  match p, s with
  | EmptyString, _ => true
  | String _ _, EmptyString => false
  | String a p', String b s' => if Ascii.eqb a b then startswith p' s' else false
  end.

(** [p in s]: [p] occurs in [s] as a contiguous substring. *)
Fixpoint str_in (p s : string) : bool :=
  startswith p s ||
  match s with
  | EmptyString => false
  | String _ s' => str_in p s'
  end.

(** [s.split(sep)] for a one-character separator. *)
Fixpoint split (sep : ascii) (s : string) : list string :=
  match s with
  | EmptyString => [EmptyString]
  | String a s' =>
      if Ascii.eqb a sep then EmptyString :: split sep s'
      else match split sep s' with
           | [] => [String a EmptyString]
           | field :: fields => String a field :: fields
           end
  end.

(** [sep.join(l)]. *)
Definition join (sep : string) (l : list string) : string := String.concat sep l.

(** Iterating over a string yields its one-character strings. *)
Fixpoint chars (s : string) : list string :=
  match s with
  | EmptyString => []
  | String a s' => String a EmptyString :: chars s'
  end.

(** [l[-1]], for the non-empty lists that [split] returns. *)
Definition last_field (l : list string) : string := List.last l EmptyString.

Definition colon : ascii := ":"%char.

(** ** Python ordering: [<] on ints, strings and tuples *)

Class Cmp (A : Type) := cmp : A -> A -> comparison.
#[export] Hint Mode Cmp ! : typeclass_instances.

#[export] Instance cmp_Z : Cmp Z := Z.compare.
#[export] Instance cmp_string : Cmp string := String.compare.
#[export] Instance cmp_prod {A B} `{Cmp A, Cmp B} : Cmp (A * B) :=
  fun x y => match cmp (fst x) (fst y) with
             | Eq => cmp (snd x) (snd y)
             | c => c
             end.

Class CmpLaws (A : Type) `{Cmp A} := {
  cmp_eq : forall x y : A, cmp x y = Eq -> x = y;
  cmp_antisym : forall x y : A, cmp x y = CompOpp (cmp y x);
  cmp_lt_trans : forall x y z : A, cmp x y = Lt -> cmp y z = Lt -> cmp x z = Lt
}.

Definition py_le {A} `{Cmp A} (x y : A) : Prop := cmp x y <> Gt.
Definition py_lt {A} `{Cmp A} (x y : A) : Prop := cmp x y = Lt.

#[export] Instance py_le_dec {A} `{Cmp A} : RelDecision (@py_le A _).
Proof. intros x y. unfold py_le. destruct (cmp x y); [left | left | right]; congruence. Defined.

#[export] Instance py_lt_dec {A} `{Cmp A} : RelDecision (@py_lt A _).
Proof. intros x y. unfold py_lt. destruct (cmp x y); [right | left | right]; congruence. Defined.

(** [sorted(l)]. *)
Definition sorted {A} `{Cmp A} (l : list A) : list A := merge_sort py_le l.

(** [itertools.combinations(l, 2)]. *)
Fixpoint combinations2 {A} (l : list A) : list (A * A) :=
  match l with
  | [] => []
  | x :: l' => map (pair x) l' ++ combinations2 l'
  end.

(** ** stratify_hbonds.py *)

(** A generic hydrogen bond row [(frame_idx, atom1_label, atom2_label, itype)]. *)
Definition row4 : Type := Z * string * string * string.
(** A water bridge row [(frame_idx, res_atom1, water, res_atom2, itype)]. *)
Definition row5 : Type := Z * string * string * string * string.
(** An extended water bridge row
    [(frame_idx, atom1, water1, water2, atom2, itype)]. *)
Definition row6 : Type := Z * string * string * string * string * string.

(** The rows of the final list have four, five or six fields. *)
Inductive interaction : Type :=
| Contact (r : row4)
| WaterBridge (r : row5)
| ExtendedWaterBridge (r : row6).

Definition residue_vs_water_hbonds_body (solvent_resn : string)
    (acc : list row4 * list row4) (hbond : row4) : list row4 * list row4 :=
  let '(residue_hbonds, water_hbonds) := acc in
  let '(frame_idx, atom1_label, atom2_label, itype) := hbond in
  if str_in solvent_resn atom1_label || str_in solvent_resn atom2_label
  then (residue_hbonds, water_hbonds ++ [hbond])
  else (residue_hbonds ++ [hbond], water_hbonds).

Definition residue_vs_water_hbonds (hbonds : list row4) (solvent_resn : string)
  : list row4 * list row4 :=
  fold_left (residue_vs_water_hbonds_body solvent_resn) hbonds ([], []).

Definition backbone_atoms : list string := ["N"; "O"].

(** [x in l] on a list of strings. *)
Definition list_in (x : string) (l : list string) : bool :=
  existsb (String.eqb x) l.

Definition stratify_residue_hbonds_body
    (acc : list row4 * list row4 * list row4) (hbond : row4)
  : result (list row4 * list row4 * list row4) :=
  let '(hbss, hbsb, hbbb) := acc in
  let '(frame_idx, atom1_label, atom2_label, itype) := hbond in
  atom1 ← getitem (split colon atom1_label) 3;
  atom2 ← getitem (split colon atom2_label) 3;
  let b1 := list_in atom1 backbone_atoms in
  let b2 := list_in atom2 backbone_atoms in
  let hbss :=
    if negb b1 && negb b2
    then hbss ++ [(frame_idx, atom1_label, atom2_label, "hbss")] else hbss in
  let hbsb :=
    if (negb b1 && b2) || (b1 && negb b2)
    then hbsb ++ [(frame_idx, atom1_label, atom2_label, "hbsb")] else hbsb in
  let hbbb :=
    if b1 && b2
    then hbbb ++ [(frame_idx, atom1_label, atom2_label, "hbbb")] else hbbb in
  Ok (hbss, hbsb, hbbb).

Definition stratify_residue_hbonds (residue_hbonds : list row4)
  : result (list row4 * list row4 * list row4) :=
  for_each stratify_residue_hbonds_body residue_hbonds ([], [], []).

(** The local variables of [calc_water_to_residues_map].  [frame_idx],
    [water] and [protein] are unbound until first assigned and keep
    their value from one iteration to the next. *)
Record locals : Type := Locals {
  l_frame_idx : option Z;
  l_water : option string;
  l_protein : option string;
  l_water_to_residues : gmap string (gset string);
  l_solvent_bridges : list (string * string)
}.

Definition locals_init : locals :=
  Locals None None None ∅ [].

Definition calc_water_to_residues_map_body
    (solvent_resn : string) (st : locals) (hbond : row4) : result locals :=
  let '(frame_idx, atom1_label, atom2_label, itype) := hbond in
  let in1 := str_in solvent_resn atom1_label in
  let in2 := str_in solvent_resn atom2_label in
  if in1 && in2 then
    Ok (Locals (Some frame_idx) (l_water st) (l_protein st)
               (l_water_to_residues st)
               (l_solvent_bridges st ++ [(atom1_label, atom2_label)]))
  else
    let '(water_var, protein_var) :=
      if in1 && negb in2 then (Some atom1_label, Some atom2_label)
      else if negb in1 && in2 then (Some atom2_label, Some atom1_label)
      else (l_water st, l_protein st) in
    water ← read_local "water" water_var;
    let water_to_residues :=
      match l_water_to_residues st !! water with
      | None => <[water := ∅]> (l_water_to_residues st)
      | Some _ => l_water_to_residues st
      end in
    bucket ← match water_to_residues !! water with
              | Some s => Ok s
              | None => Raise KeyError
              end;
    protein ← read_local "protein" protein_var;
    Ok (Locals (Some frame_idx) (Some water) (Some protein)
               (<[water := bucket ∪ {[protein]}]> water_to_residues)
               (l_solvent_bridges st)).

(** The second loop: drop a bridge whose pair is already present in
    either orientation. *)
Definition dedup_solvent_bridges (bridges : list (string * string))
  : gset (string * string) :=
  fold_left
    (fun (solvent_bridges : gset (string * string)) '(water1, water2) =>
       let key1 := (water1, water2) in
       let key2 := (water2, water1) in
       if bool_decide (key1 ∉ solvent_bridges) && bool_decide (key2 ∉ solvent_bridges)
       then solvent_bridges ∪ {[key1]}
       else solvent_bridges)
    bridges ∅.

Definition calc_water_to_residues_map (water_hbonds : list row4) (solvent_resn : string)
  : result (Z * gmap string (gset string) * list (string * string)) :=
  st ← for_each (calc_water_to_residues_map_body solvent_resn) water_hbonds locals_init;
  let solvent_bridges := sorted (elements (dedup_solvent_bridges (l_solvent_bridges st))) in
  frame_idx ← read_local "frame_idx" (l_frame_idx st);
  Ok (frame_idx, l_water_to_residues st, solvent_bridges).

Definition stratify_water_bridge (water_hbonds : list row4) (solvent_resn : string)
  : result (list row5) :=
  match calc_water_to_residues_map water_hbonds solvent_resn with
  | Raise e => Raise e
  | Ok (frame_idx, water_to_residues, _) =>
  let water_bridges : gset row5 :=
    fold_left
      (fun (water_bridges : gset row5) '(water, residues) =>
         let protein_atoms := sorted (elements (residues : gset string)) in
         fold_left
           (fun (water_bridges : gset row5) '(res_atom1, res_atom2) =>
              if bool_decide (res_atom1 ≠ res_atom2)
              then water_bridges ∪ {[(frame_idx, res_atom1, water, res_atom2, "wb")]}
              else water_bridges)
           (combinations2 protein_atoms) water_bridges)
      (map_to_list water_to_residues) ∅ in
  Ok (sorted (elements water_bridges))
  end.

Definition stratify_extended_water_bridge (water_hbonds : list row4) (solvent_resn : string)
  : result (list row6) :=
  match calc_water_to_residues_map water_hbonds solvent_resn with
  | Raise e => Raise e
  | Ok (frame_idx, water_to_residues, solvent_bridges) =>
  let extended_water_bridges : gset row6 :=
    fold_left
      (fun (extended_water_bridges : gset row6) '(water1, water2) =>
         match water_to_residues !! water1, water_to_residues !! water2 with
         | Some res_atom1_list, Some res_atom2_list =>
             fold_left
               (fun (acc : gset row6) atom1 =>
                  fold_left
                    (fun (acc : gset row6) atom2 =>
                       acc ∪ {[(frame_idx, atom1, water1, water2, atom2, "wb2")]})
                    (elements (res_atom2_list : gset string)) acc)
               (elements (res_atom1_list : gset string)) extended_water_bridges
         | _, _ => extended_water_bridges
         end)
      solvent_bridges ∅ in
  Ok (sorted (elements extended_water_bridges))
  end.

Definition stratify_hbond_subtypes (hbonds : list row4) (solvent_resn : string)
  : result (list interaction) :=
  let '(residue_hbonds, water_hbonds) := residue_vs_water_hbonds hbonds solvent_resn in
  '(hbss, hbsb, hbbb) ← stratify_residue_hbonds residue_hbonds;
  wb ← stratify_water_bridge hbonds solvent_resn;
  wb2 ← stratify_extended_water_bridge hbonds solvent_resn;
  Ok (map Contact hbss ++ map Contact hbsb ++ map Contact hbbb
        ++ map WaterBridge wb ++ map ExtendedWaterBridge wb2).

(** ** contact_utils.py: geometry tools *)

(** The arithmetic of Python floats that the geometry uses.  The sources
    run on IEEE doubles ([float_arith] below).  [f_acos] is
    [math.acos], which raises [ValueError] outside its domain. *)
Class Arith (F : Type) := {
  f_add : F -> F -> F;
  f_sub : F -> F -> F;
  f_mul : F -> F -> F;
  f_div : F -> F -> F;
  f_sqrt : F -> F;
  f_fabs : F -> F;
  f_acos : F -> result F;
  f_degrees : F -> F;
  f_lt : F -> F -> bool;
  f_of_Z : Z -> F
}.

(** [a > b]. *)
Definition f_gt {F} `{Arith F} (a b : F) : bool := f_lt b a.

(** The builtin [min(a, b)]: [b] when [b < a], else [a]. *)
Definition py_min {F} `{Arith F} (a b : F) : F := if f_lt b a then b else a.

(** A numpy array of three coordinates. *)
Record vec3 (F : Type) : Type := Vec3 { vx : F; vy : F; vz : F }.
Arguments Vec3 {F} vx vy vz.
Arguments vx {F} v.
Arguments vy {F} v.
Arguments vz {F} v.

Section geometry.
Context {F : Type} `{Arith F}.

Definition np_add (a b : vec3 F) : vec3 F :=
  Vec3 (f_add (vx a) (vx b)) (f_add (vy a) (vy b)) (f_add (vz a) (vz b)).
Definition np_sub (a b : vec3 F) : vec3 F :=
  Vec3 (f_sub (vx a) (vx b)) (f_sub (vy a) (vy b)) (f_sub (vz a) (vz b)).
Definition np_div (a : vec3 F) (k : F) : vec3 F :=
  Vec3 (f_div (vx a) k) (f_div (vy a) k) (f_div (vz a) k).
Definition np_dot (a b : vec3 F) : F :=
  f_add (f_add (f_mul (vx a) (vx b)) (f_mul (vy a) (vy b))) (f_mul (vz a) (vz b)).
Definition np_cross (a b : vec3 F) : vec3 F :=
  Vec3 (f_sub (f_mul (vy a) (vz b)) (f_mul (vz a) (vy b)))
       (f_sub (f_mul (vz a) (vx b)) (f_mul (vx a) (vz b)))
       (f_sub (f_mul (vx a) (vy b)) (f_mul (vy a) (vx b))).
Definition np_linalg_norm (a : vec3 F) : F := f_sqrt (np_dot a a).

Definition points_to_vector (point1 point2 : vec3 F) : vec3 F :=
  np_sub point2 point1.

Definition calc_vector_length (vector : vec3 F) : F :=
  f_sqrt (np_dot vector vector).

Definition calc_angle_between_vectors (vector1 vector2 : vec3 F) : result F :=
  radians_between_vectors ←
    f_acos (f_div (np_dot vector1 vector2)
                  (f_mul (calc_vector_length vector1) (calc_vector_length vector2)));
  Ok (f_degrees radians_between_vectors).

Definition calc_geom_distance (point1 point2 : vec3 F) : F :=
  np_linalg_norm (np_sub point1 point2).

Definition calc_geom_centroid (point1 point2 point3 : vec3 F) : vec3 F :=
  np_div (np_add (np_add point1 point2) point3) (f_of_Z 3).

Definition calc_geom_normal_vector (point1 point2 point3 : vec3 F) : vec3 F :=
  let v1 := np_sub point3 point1 in
  let v2 := np_sub point2 point1 in
  np_cross v1 v2.
End geometry.

(** ** pi_cation.py *)

Section pi_cation.
Context {F : Type} `{Arith F}.

(** The coordinates that the VMD selection [index i] returns for the
    frame, by the text of the index. *)
Variable atom_coord : string -> vec3 F.

Definition DISTANCE_CUTOFF : F := f_of_Z 6.
Definition ANGLE_CUTOFF : F := f_of_Z 60.

Definition get_coord (atom_label : string) : vec3 F :=
  atom_coord (last_field (split colon atom_label)).

(** [d[k]] on a dictionary. *)
Definition dict_get {K V} `{Countable K} (d : gmap K V) (k : K) : result V :=
  match d !! k with
  | Some v => Ok v
  | None => Raise KeyError
  end.

(** The first loop: group the aromatic labels by cation label and
    aromatic resid. *)
Definition grouping_body (index_to_label : gmap Z string)
    (pi_cation_aromatic_grouping : gmap string (gset string)) (contact : Z * Z)
  : result (gmap string (gset string)) :=
  let '(cation_index, aromatic_index) := contact in
  cation_label ← dict_get index_to_label cation_index;
  aromatic_label ← dict_get index_to_label aromatic_index;
  resid ← getitem (split colon aromatic_label) 2;
  let pi_cation_aromatic_res_key :=
    cation_label +:+ ":" +:+ join ":" (chars resid) in
  let grouping :=
    match pi_cation_aromatic_grouping !! pi_cation_aromatic_res_key with
    | None => <[pi_cation_aromatic_res_key := ∅]> pi_cation_aromatic_grouping
    | Some _ => pi_cation_aromatic_grouping
    end in
  bucket ← dict_get grouping pi_cation_aromatic_res_key;
  Ok (<[pi_cation_aromatic_res_key := bucket ∪ {[aromatic_label]}]> grouping).

(** Line 106: the angle to the nearer of the two directions of the
    normal. *)
Definition fold_angle (cation_norm_offset_angle : F) : F :=
  py_min (f_fabs (f_sub cation_norm_offset_angle (f_of_Z 0)))
         (f_fabs (f_sub cation_norm_offset_angle (f_of_Z 180))).

(** The second loop: the strict geometric criterion on one group. *)
Definition criterion_body (frame_idx : Z) (pi_cations : list row4)
    (group : string * gset string) : result (list row4) :=
  let '(pi_cation_aromatic_res_key, aromatic_atom_labels) := group in
  let cation_atom_label := join ":" (take 5 (split colon pi_cation_aromatic_res_key)) in
  if bool_decide (size aromatic_atom_labels ≠ 3%nat) then Ok pi_cations else
  match sorted (elements aromatic_atom_labels) with
  | [arom_atom1_label; arom_atom2_label; arom_atom3_label] =>
      let cation_coord := get_coord cation_atom_label in
      let arom_atom1_coord := get_coord arom_atom1_label in
      let arom_atom2_coord := get_coord arom_atom2_label in
      let arom_atom3_coord := get_coord arom_atom3_label in
      let aromatic_centroid :=
        calc_geom_centroid arom_atom1_coord arom_atom2_coord arom_atom3_coord in
      let cation_to_centroid_distance :=
        calc_geom_distance cation_coord aromatic_centroid in
      if f_gt cation_to_centroid_distance DISTANCE_CUTOFF then Ok pi_cations else
      let aromatic_plane_norm_vec :=
        calc_geom_normal_vector arom_atom1_coord arom_atom2_coord arom_atom3_coord in
      let aromatic_center_to_cation_vec :=
        points_to_vector aromatic_centroid cation_coord in
      cation_norm_offset_angle ←
        calc_angle_between_vectors aromatic_plane_norm_vec aromatic_center_to_cation_vec;
      let cation_norm_offset_angle := fold_angle cation_norm_offset_angle in
      if f_gt cation_norm_offset_angle ANGLE_CUTOFF then Ok pi_cations else
      Ok (pi_cations ++ [ (frame_idx, cation_atom_label, arom_atom1_label, "pc");
                          (frame_idx, cation_atom_label, arom_atom2_label, "pc");
                          (frame_idx, cation_atom_label, arom_atom2_label, "pc") ])
  | _ => Raise ValueError
  end.

(** [compute_pi_cation] from the parsed contacts on: the VMD queries
    that produce [contact_index_pairs] are the backend's. *)
Definition compute_pi_cation (frame_idx : Z) (index_to_label : gmap Z string)
    (contact_index_pairs : list (Z * Z)) : result (list row4) :=
  pi_cation_aromatic_grouping ←
    for_each (grouping_body index_to_label) contact_index_pairs ∅;
  for_each (criterion_body frame_idx) (map_to_list pi_cation_aromatic_grouping) [].
End pi_cation.

(** Python floats: IEEE doubles.  [math.acos] comes from the C
    library and is a parameter; [math.degrees(x)] is [x * (180 / pi)]. *)
Definition float_pi : float := 0x1.921fb54442d18p+1%float.

Definition float_arith (math_acos : float -> result float) : Arith float := {|
  f_add := PrimFloat.add;
  f_sub := PrimFloat.sub;
  f_mul := PrimFloat.mul;
  f_div := PrimFloat.div;
  f_sqrt := PrimFloat.sqrt;
  f_fabs := PrimFloat.abs;
  f_acos := math_acos;
  f_degrees := fun x => PrimFloat.mul x (PrimFloat.div 180%float float_pi);
  f_lt := PrimFloat.ltb;
  f_of_Z := fun z => PrimFloat.of_uint63 (Uint63.of_Z z)
|}.

(** ** contact_utils.py: file types, atom labels, triplets and contacts *)

(** [s.lstrip] and [s.rstrip], with the characters to strip given by a
    test. *)
Fixpoint lstrip_by (f : ascii -> bool) (s : string) : string :=
  match s with
  | EmptyString => EmptyString
  | String a s' => if f a then lstrip_by f s' else s
  end.

Fixpoint rstrip_by (f : ascii -> bool) (s : string) : string :=
  match s with
  | EmptyString => EmptyString
  | String a s' =>
      match rstrip_by f s' with
      | EmptyString => if f a then EmptyString else String a EmptyString
      | r => String a r
      end
  end.

Definition strip_by (f : ascii -> bool) (s : string) : string :=
  rstrip_by f (lstrip_by f s).

(** [s.strip()]: Python's whitespace is tab, newline, vertical tab, form
    feed, carriage return and space. *)
Definition py_strip (s : string) : string := strip_by Ascii.is_space s.

Fixpoint char_in (chars : string) (a : ascii) : bool :=
  match chars with
  | EmptyString => false
  | String c chars' => Ascii.eqb a c || char_in chars' a
  end.

(** [s.strip(chars)]. *)
Definition py_strip_chars (chars s : string) : string := strip_by (char_in chars) s.

Definition dot : ascii := "."%char.
Definition space : ascii := " "%char.

Definition get_file_type (file_name : string) : string :=
  let file_type := py_strip (last_field (split dot file_name)) in
  if String.eqb file_type "nc" then "netcdf" else file_type.

(** ["%s:%s:%s:%s:%s" % (chain, resname, resid, name, index)]. *)
Definition format_label (chain resname resid name index : string) : string :=
  chain +:+ ":" +:+ resname +:+ ":" +:+ resid +:+ ":" +:+ name +:+ ":" +:+ index.

(** What the five queries [$sel get chain], ..., [$sel get index] of
    [get_atom_selection_properties] return for a VMD selection. *)
Record selection : Type := Selection {
  sel_chain : string;
  sel_resname : string;
  sel_resid : string;
  sel_name : string;
  sel_index : string
}.

Definition get_atom_selection_properties (sel : selection)
  : list string * list string * list string * list string * list string :=
  (split space (sel_chain sel), split space (sel_resname sel),
   split space (sel_resid sel), split space (sel_name sel),
   split space (sel_index sel)).

Definition get_atom_selection_labels_body
    (props : list string * list string * list string * list string * list string)
    (atom_labels : list string) (idx : nat) : result (list string) :=
  let '(chains, resnames, resids, names, indices) := props in
  chain ← getitem chains idx;
  resname ← getitem resnames idx;
  resid ← getitem resids idx;
  name ← getitem names idx;
  index ← getitem indices idx;
  Ok (atom_labels ++ [format_label chain resname resid name index]).

Definition get_atom_selection_labels (sel : selection) : result (list string) :=
  let props := get_atom_selection_properties sel in
  for_each (get_atom_selection_labels_body props) (seq 0 (length props.1.1.1.1)) [].

(** [get_atom_label]: the four queries for one atom index, then the
    same format. *)
Definition get_atom_label (chain resname resid name index : string) : string :=
  format_label chain resname resid name index.

Section with_int.
(** The builtin [int] on a string, which raises [ValueError] on text
    that is not an integer literal. *)
Variable py_int : string -> result Z.

Definition gen_index_to_atom_label_body
    (props : list string * list string * list string * list string * list string)
    (index_to_label : gmap Z string) (item : nat * string) : result (gmap Z string) :=
  let '(chains, resnames, resids, names, indices) := props in
  let '(idx, index) := item in
  chain ← getitem chains idx;
  resname ← getitem resnames idx;
  resid ← getitem resids idx;
  name ← getitem names idx;
  let atom_label := format_label chain resname resid name index in
  index_key ← py_int index;
  Ok (<[index_key := atom_label]> index_to_label).

(** [gen_index_to_atom_label] from the selection of all atoms on. *)
Definition gen_index_to_atom_label (all_atoms : selection) : result (gmap Z string) :=
  let props := get_atom_selection_properties all_atoms in
  let indices := props.2 in
  for_each (gen_index_to_atom_label_body props) (zip (seq 0 (length indices)) indices) ∅.

(** [map(int, l)]. *)
Fixpoint map_int (l : list string) : result (list Z) :=
  match l with
  | [] => Ok []
  | x :: l' => n ← py_int x; ns ← map_int l'; Ok (n :: ns)
  end.

(** [s.split(sep)] for a separator of several characters: [skip]
    counts the characters of a separator just found that are still to
    be passed over. *)
Fixpoint split_str_aux (sep : string) (skip : nat) (s : string) : list string :=
  match s with
  | EmptyString => [EmptyString]
  | String a s' =>
      match skip with
      | S skip' => split_str_aux sep skip' s'
      | O =>
          if startswith sep s
          then EmptyString :: split_str_aux sep (String.length sep - 1) s'
          else match split_str_aux sep 0 s' with
               | [] => [String a EmptyString]
               | field :: fields => String a field :: fields
               end
      end
  end.

Definition split_str (sep s : string) : list string := split_str_aux sep 0 s.

Definition parse_contacts_body (atom1_list atom2_list : list Z)
    (contact_index_pairs : list (Z * Z)) (idx : nat) : result (list (Z * Z)) :=
  atom1_index ← getitem atom1_list idx;
  atom2_index ← getitem atom2_list idx;
  Ok (contact_index_pairs ++ [(atom1_index, atom2_index)]).

Definition parse_contacts (contact_string : string) : result (list (Z * Z)) :=
  if negb (str_in "} {" contact_string) then
    ints ← map_int (split space contact_string);
    match ints with
    | [atom1_index; atom2_index] => Ok [(atom1_index, atom2_index)]
    | _ => Raise ValueError
    end
  else
    let contacts_list := split_str "} {" contact_string in
    first ← getitem contacts_list 0;
    let atom1_list_str := py_strip_chars "{}" first in
    second ← getitem contacts_list 1;
    let atom2_list_str := py_strip_chars "{}" second in
    if String.eqb atom1_list_str "" || String.eqb atom2_list_str "" then Ok [] else
    atom1_list ← map_int (split space atom1_list_str);
    atom2_list ← map_int (split space atom2_list_str);
    for_each (parse_contacts_body atom1_list atom2_list) (seq 0 (length atom1_list)) [].
End with_int.

(** [range(0, n, 3)]. *)
Definition range3 (n : nat) : list nat := (fun k => 3 * k)%nat <$> seq 0 ((n + 2) / 3).

(** [get_aromatic_atom_triplets] from the three selections on: the
    labels of the PHE, TRP and TYR selections in this order, cut into
    slices [l[i:i+3]]. *)
Definition get_aromatic_atom_triplets (PHE TRP TYR : selection)
  : result (list (list string)) :=
  phe ← get_atom_selection_labels PHE;
  trp ← get_atom_selection_labels TRP;
  tyr ← get_atom_selection_labels TYR;
  let aromatic_atom_list := phe ++ trp ++ tyr in
  Ok ((fun i => take 3 (drop i aromatic_atom_list))
        <$> range3 (length aromatic_atom_list)).

(** * The vocabulary of the properties *)

(** ** Labels and hbonds *)

(** [contains p s]: [p] occurs in [s], the meaning of Python's [p in s]. *)
Definition contains (p s : string) : Prop :=
  exists pre post : string, s = pre +:+ p +:+ post.

(** The [i]-th colon-separated field of a label, when it has one. *)
Definition field (i : nat) (label : string) : option string :=
  nth_error (split colon label) i.

Definition atom1_of (hbond : row4) : string := hbond.1.1.2.
Definition atom2_of (hbond : row4) : string := hbond.1.2.

(** What [residue_vs_water_hbonds] tests: the solvent name occurs
    somewhere in one of the two labels. *)
Definition water_involving (solvent_resn : string) (hbond : row4) : Prop :=
  contains solvent_resn (atom1_of hbond) \/ contains solvent_resn (atom2_of hbond).

(** The specification's wording of the same test: the solvent name
    occurs in the resname field (the second field) of one of the two
    labels. *)
Definition resname_matches (solvent_resn label : string) : Prop :=
  exists resname, field 1 label = Some resname /\ contains solvent_resn resname.

Definition spec_water_involving (solvent_resn : string) (hbond : row4) : Prop :=
  resname_matches solvent_resn (atom1_of hbond)
  \/ resname_matches solvent_resn (atom2_of hbond).

(** An atom is a backbone atom when its atom-name field (the fourth
    field of its label) is [N] or [O]. *)
Definition backbone (label : string) : Prop :=
  field 3 label = Some "N" \/ field 3 label = Some "O".

#[export] Instance backbone_dec label : Decision (backbone label).
Proof. unfold backbone. apply _. Defined.

Inductive hb_class : Type := SS | SB | BB.

#[export] Instance hb_class_eq_dec : EqDecision hb_class.
Proof. solve_decision. Defined.

(** The two-by-two table of the specification. *)
Definition classify (hbond : row4) : hb_class :=
  match bool_decide (backbone (atom1_of hbond)), bool_decide (backbone (atom2_of hbond)) with
  | false, false => SS
  | true, true => BB
  | _, _ => SB
  end.

Definition has_atom_name (label : string) : Prop := is_Some (field 3 label).

Definition well_formed (hbond : row4) : Prop :=
  has_atom_name (atom1_of hbond) /\ has_atom_name (atom2_of hbond).

(** The row with its interaction type replaced, and without it. *)
Definition retag (itype : string) (hbond : row4) : row4 := (hbond.1, itype).
Definition core (hbond : row4) : Z * string * string := hbond.1.

Definition class_rows (c : hb_class) (itype : string) (hbonds : list row4) : list row4 :=
  retag itype <$> filter (fun hb => classify hb = c) hbonds.

(** [water_to_residues[water].add(protein)], creating the set first
    when [water] is a new key. *)
Definition add_residue (water protein : string) (m : gmap string (gset string))
  : gmap string (gset string) :=
  <[water := default ∅ (m !! water) ∪ {[protein]}]> m.

(** Both ends of the hbond are solvent atoms. *)
Definition both_solvent (s : string) (hb : row4) : Prop :=
  contains s (atom1_of hb) /\ contains s (atom2_of hb).

(** [bonds s hb w p]: the hbond joins a solvent atom [w] and a
    non-solvent atom [p], in either position. *)
Definition bonds (s : string) (hb : row4) (w p : string) : Prop :=
  contains s w /\ ~ contains s p
  /\ ((atom1_of hb = w /\ atom2_of hb = p) \/ (atom2_of hb = w /\ atom1_of hb = p)).

Definition frame_of (hb : row4) : Z := hb.1.1.1.

(** The bridged pairs recorded in a map. *)
Definition bridged (m : gmap string (gset string)) (w p : string) : Prop :=
  exists S : gset string, m !! w = Some S /\ p ∈ S.

(** The state of the loop after the hbonds [seen]. *)
Record loop_invariant (s : string) (seen : list row4) (st : locals) : Prop := {
  inv_map : forall w p,
    bridged (l_water_to_residues st) w p <-> exists hb, hb ∈ seen /\ bonds s hb w p;
  inv_nonempty : forall w S, l_water_to_residues st !! w = Some S -> S <> ∅;
  inv_sticky : forall w, l_water st = Some w ->
    exists p, l_protein st = Some p /\ bridged (l_water_to_residues st) w p;
  inv_bound : (exists hb, hb ∈ seen /\ exists w p, bonds s hb w p) -> is_Some (l_water st);
  inv_bridges : forall w1 w2, (w1, w2) ∈ l_solvent_bridges st <->
    exists hb, hb ∈ seen /\ (contains s w1 /\ contains s w2)
               /\ atom1_of hb = w1 /\ atom2_of hb = w2;
  inv_frame : l_frame_idx st = last (frame_of <$> seen)
}.

Definition with_frame (fo : option Z) (st : locals) : locals :=
  Locals fo (l_water st) (l_protein st) (l_water_to_residues st) (l_solvent_bridges st).

Definition water1_of (r : row6) : string := r.1.1.1.2.
Definition water2_of (r : row6) : string := r.1.1.2.

Definition wb2_example : list row4 :=
  [ (7, "A:ASP:10:OD1:100", "W:TIP3:500:OH2:900", "hb");
    (7, "W:TIP3:500:OH2:900", "A:SER:12:OG:120", "hb");
    (7, "W:TIP3:500:OH2:900", "W:TIP3:501:OH2:903", "hb");
    (7, "W:TIP3:501:OH2:903", "W:TIP3:500:OH2:900", "hb");
    (7, "B:LYS:44:NZ:300", "W:TIP3:501:OH2:903", "hb") ].

(** ** Groups of the pi-cation loop *)

Section group_geometry.
Context {F : Type} `{Arith F}.
Variable atom_coord : string -> vec3 F.

(** The geometry of a group: the cation label cut from the key and
    the three aromatic labels in sorted order. *)
Definition group_cation (key : string) : string :=
  join ":" (take 5 (split colon key)).

Definition group_centroid (a1 a2 a3 : string) : vec3 F :=
  calc_geom_centroid (get_coord atom_coord a1) (get_coord atom_coord a2)
                     (get_coord atom_coord a3).

Definition group_distance (key a1 a2 a3 : string) : F :=
  calc_geom_distance (get_coord atom_coord (group_cation key)) (group_centroid a1 a2 a3).

Definition group_angle (key a1 a2 a3 : string) : result F :=
  calc_angle_between_vectors
    (calc_geom_normal_vector (get_coord atom_coord a1) (get_coord atom_coord a2)
                             (get_coord atom_coord a3))
    (points_to_vector (group_centroid a1 a2 a3) (get_coord atom_coord (group_cation key))).

(** The three rows that an accepted group adds. *)
Definition group_rows (frame_idx : Z) (key a1 a2 : string) : list row4 :=
  [ (frame_idx, group_cation key, a1, "pc");
    (frame_idx, group_cation key, a2, "pc");
    (frame_idx, group_cation key, a2, "pc") ].
End group_geometry.

(** ** The example ring *)

Definition ring_labels : gmap Z string :=
  {[ 5 := "A:LYS:10:NZ:5"; 50 := "B:PHE:20:CG:50";
     51 := "B:PHE:20:CE1:51"; 52 := "B:PHE:20:CE2:52" ]}.

Definition ring_contacts : list (Z * Z) := [(5, 50); (5, 51); (5, 52)].

(** The ring atoms in the plane [z = 0], the cation two Angstrom above
    their centroid. *)
Definition ring_coord (index : string) : vec3 float :=
  if String.eqb index "5" then Vec3 1%float 1%float 2%float
  else if String.eqb index "51" then Vec3 3%float 0%float 0%float
  else if String.eqb index "52" then Vec3 0%float 3%float 0%float
  else Vec3 0%float 0%float 0%float.

(** The one value of the C library's [acos] that the example needs. *)
Definition acos_table (x : float) : result float :=
  if PrimFloat.eqb x (-1)%float then Ok float_pi else Raise ValueError.

Definition ring_key : string := "A:LYS:10:NZ:5:2:0".
Definition ring_group : gset string :=
  {[ "B:PHE:20:CG:50"; "B:PHE:20:CE1:51"; "B:PHE:20:CE2:52" ]}.

(** ** Characters, tokens and integers *)

(** [has_char c s]: the character [c] occurs in [s]. *)
Fixpoint has_char (c : ascii) (s : string) : bool :=
  match s with
  | EmptyString => false
  | String a s' => Ascii.eqb a c || has_char c s'
  end.

(** No character of [s] passes the test [f]. *)
Fixpoint none_of (f : ascii -> bool) (s : string) : bool :=
  match s with
  | EmptyString => true
  | String a s' => negb (f a) && none_of f s'
  end.

(** A token of a Tcl list as [parse_contacts] reads it: not empty, and
    without spaces and braces. *)
Definition token (s : string) : Prop :=
  s <> EmptyString /\ none_of (char_in " {}") s = true.

(** A reader of unsigned decimal numerals, an instance of [int] for the
    examples. *)
Fixpoint decimal_digits (acc : Z) (s : string) : result Z :=
  match s with
  | EmptyString => Ok acc
  | String a s' =>
      match Ascii.is_nat a with
      | Some d => decimal_digits (10 * acc + Z.of_nat d) s'
      | None => Raise ValueError
      end
  end.

Definition decimal (s : string) : result Z :=
  match s with
  | EmptyString => Raise ValueError
  | _ => decimal_digits 0 s
  end.

(** The text of a pair of Tcl lists, as [measure contacts] prints it. *)
Definition render_contacts (xs ys : list string) : string :=
  "{" +:+ join " " xs +:+ "} {" +:+ join " " ys +:+ "}".

(** The labels of the atoms of a selection, from its five lists of
    properties. *)
Fixpoint labels_of (chains resnames resids names indices : list string) : list string :=
  match chains, resnames, resids, names, indices with
  | chain :: chains', resname :: resnames', resid :: resids', name :: names',
    index :: indices' =>
      format_label chain resname resid name index
        :: labels_of chains' resnames' resids' names' indices'
  | _, _, _, _, _ => []
  end.

(** The length of the shortest of the four lists read beside [chains]. *)
Definition shortest (resnames resids names indices : list string) : nat :=
  Nat.min (Nat.min (Nat.min (length resnames) (length resids)) (length names))
          (length indices).

(** The selection whose queries print the given lists. *)
Definition selection_of (chains resnames resids names indices : list string) : selection :=
  Selection (join " " chains) (join " " resnames) (join " " resids)
            (join " " names) (join " " indices).

(** The selection without atoms: every query prints the empty list. *)
Definition empty_selection : selection := Selection "" "" "" "" "".

(** The slices [l[i:i+3]] for [i] in [range(0, len(l), 3)]. *)
Definition slices3 {A} (l : list A) : list (list A) :=
  (fun i => take 3 (drop i l)) <$> range3 (length l).

(** ** Outcomes of the hbond stratification *)

(** A residue-residue hbond comes before every hbond with exactly one
    solvent end: only hbonds between two solvent atoms precede it. *)
Definition residue_first (s : string) (hbonds : list row4) : Prop :=
  exists l1 hb l2, hbonds = l1 ++ hb :: l2
                   /\ Forall (both_solvent s) l1 /\ ~ water_involving s hb.

(** ** The groups of the first pi-cation loop *)

(** The key of a contact: the cation label, then the characters of the
    resid of the aromatic atom. *)
Definition group_key (cation_label resid : string) : string :=
  cation_label +:+ ":" +:+ join ":" (chars resid).

(** The labels behind a contact: both indices have a label, and the
    aromatic label has a resid field. *)
Definition resolves (index_to_label : gmap Z string) (contact : Z * Z)
    (cation_label aromatic_label resid : string) : Prop :=
  index_to_label !! contact.1 = Some cation_label
  /\ index_to_label !! contact.2 = Some aromatic_label
  /\ field 2 aromatic_label = Some resid.

Definition resolvable (index_to_label : gmap Z string) (contact : Z * Z) : Prop :=
  exists cation_label aromatic_label resid,
    resolves index_to_label contact cation_label aromatic_label resid.

(** The rows of the accepted groups, each given by its key and the
    first two of its sorted labels. *)
Definition accepted_rows (frame_idx : Z) (accepted : list (string * string * string))
  : list row4 :=
  concat ((fun group => group_rows frame_idx group.1.1 group.1.2 group.2) <$> accepted).

(** ** A degenerate ring *)

(** Three ring atoms on one line, the cation three Angstrom beside the
    middle one. *)
Definition collinear_coord (index : string) : vec3 float :=
  if String.eqb index "5" then Vec3 1%float 0%float 3%float
  else if String.eqb index "51" then Vec3 1%float 0%float 0%float
  else if String.eqb index "52" then Vec3 2%float 0%float 0%float
  else Vec3 0%float 0%float 0%float.

(** [math.acos] returns NaN on NaN. *)
Definition acos_nan (x : float) : result float :=
  if PrimFloat.is_nan x then Ok x else acos_table x.

(** ** The gates in the specification's words *)


Definition spec_sub (p q : vec3 float) : vec3 float :=
  Vec3 (vx p - vx q)%float (vy p - vy q)%float (vz p - vz q)%float.

Definition spec_dot (u v : vec3 float) : float :=
  (vx u * vx v + vy u * vy v + vz u * vz v)%float.

Definition spec_length (v : vec3 float) : float := PrimFloat.sqrt (spec_dot v v).

Definition spec_distance (p q : vec3 float) : float := spec_length (spec_sub p q).





(** ** The two directions of a normal *)



(** The same on specification floats, where a zero may also keep or
    change its sign. *)
Definition SFzero (x : spec_float) : Prop := exists s, x = S754_zero s.

Definition SFnegated (x x' : spec_float) : Prop :=
  x' = SFopp x \/ (SFzero x /\ SFzero x').

Definition float_negated (x x' : float) : Prop := SFnegated (Prim2SF x) (Prim2SF x').




(** ** Values of the C library's acos *)



(** * Properties *)

(** ** The ordering *)

Lemma ascii_compare_lt_trans (a b c : ascii) :
  Ascii.compare a b = Lt -> Ascii.compare b c = Lt -> Ascii.compare a c = Lt.
Proof.
  unfold Ascii.compare. rewrite !N.compare_lt_iff. apply N.lt_trans.
Qed.

Lemma ascii_compare_refl (a : ascii) : Ascii.compare a a = Eq.
Proof. unfold Ascii.compare. apply N.compare_refl. Qed.

Lemma string_compare_lt_trans (x y z : string) :
  String.compare x y = Lt -> String.compare y z = Lt -> String.compare x z = Lt.
Proof.
  revert y z. induction x as [|a x IH]; intros [|b y] [|c z]; simpl; try congruence.
  destruct (Ascii.compare a b) eqn:Hab; try congruence;
    destruct (Ascii.compare b c) eqn:Hbc; try congruence; intros H1 H2.
  - apply Ascii.compare_eq_iff in Hab, Hbc. subst.
    rewrite ascii_compare_refl. eauto.
  - apply Ascii.compare_eq_iff in Hab. subst. now rewrite Hbc.
  - apply Ascii.compare_eq_iff in Hbc. subst. now rewrite Hab.
  - now rewrite (ascii_compare_lt_trans _ _ _ Hab Hbc).
Qed.

#[export] Instance cmp_laws_Z : CmpLaws Z.
Proof.
  split; unfold cmp, cmp_Z.
  - apply Z.compare_eq.
  - intros x y. apply Z.compare_antisym.
  - intros x y z. rewrite !Z.compare_lt_iff. apply Z.lt_trans.
Qed.

#[export] Instance cmp_laws_string : CmpLaws string.
Proof.
  split; unfold cmp, cmp_string.
  - apply String.compare_eq_iff.
  - apply String.compare_antisym.
  - apply string_compare_lt_trans.
Qed.

Lemma cmp_refl {A} `{CmpLaws A} (x : A) : cmp x x = Eq.
Proof.
  pose proof (cmp_antisym x x) as E. destruct (cmp x x); simpl in E; congruence.
Qed.

#[export] Instance cmp_laws_prod {A B} `{CmpLaws A, CmpLaws B} : CmpLaws (A * B).
Proof.
  split; unfold cmp, cmp_prod.
  - intros [a b] [a' b']; simpl.
    destruct (cmp a a') eqn:E; try discriminate.
    intros E'. apply cmp_eq in E, E'. congruence.
  - intros [a b] [a' b']; simpl.
    rewrite (cmp_antisym a a'), (cmp_antisym b b').
    destruct (cmp a' a); reflexivity.
  - intros [a b] [a' b'] [a'' b'']; simpl.
    destruct (cmp a a') eqn:E1; try discriminate;
      destruct (cmp a' a'') eqn:E2; try discriminate; intros H3 H4.
    + apply cmp_eq in E1, E2. subst. rewrite cmp_refl. eauto using cmp_lt_trans.
    + apply cmp_eq in E1. subst. now rewrite E2.
    + apply cmp_eq in E2. subst. now rewrite E1.
    + now rewrite (cmp_lt_trans _ _ _ E1 E2).
Qed.

Section order.
Context {A : Type} `{CmpLaws A}.

Lemma py_lt_le (x y : A) : py_lt x y -> py_le x y.
Proof. unfold py_lt, py_le. congruence. Qed.

Lemma py_lt_neq (x y : A) : py_lt x y -> x <> y.
Proof. unfold py_lt. intros E ->. rewrite cmp_refl in E. discriminate. Qed.

Lemma py_le_lt (x y : A) : py_le x y -> x <> y -> py_lt x y.
Proof.
  unfold py_lt, py_le. intros Hle Hne.
  destruct (cmp x y) eqn:E; [apply cmp_eq in E|..]; congruence.
Qed.

Lemma py_lt_asym (x y : A) : py_lt x y -> py_lt y x -> False.
Proof. unfold py_lt. rewrite (cmp_antisym y x). intros ->. discriminate. Qed.

Lemma py_lt_total (x y : A) : x <> y -> py_lt x y \/ py_lt y x.
Proof.
  unfold py_lt. intros Hne. rewrite (cmp_antisym y x).
  destruct (cmp x y) eqn:E; [apply cmp_eq in E; congruence | auto | auto].
Qed.

#[export] Instance py_le_total : Total (@py_le A _).
Proof.
  intros x y. unfold py_le. rewrite (cmp_antisym y x).
  destruct (cmp x y); simpl; [left | left | right]; congruence.
Qed.

#[export] Instance py_le_trans : Transitive (@py_le A _).
Proof.
  intros x y z. unfold py_le. intros Hxy Hyz.
  destruct (cmp x y) eqn:E1; [apply cmp_eq in E1; congruence | | congruence].
  destruct (cmp y z) eqn:E2; [apply cmp_eq in E2; subst; congruence | | congruence].
  rewrite (cmp_lt_trans _ _ _ E1 E2). discriminate.
Qed.

#[export] Instance py_le_antisym : AntiSymm eq (@py_le A _).
Proof.
  intros x y. unfold py_le. rewrite (cmp_antisym y x).
  destruct (cmp x y) eqn:E; simpl; [apply cmp_eq in E | |]; congruence.
Qed.

Lemma sorted_Permutation (l : list A) : sorted l ≡ₚ l.
Proof. apply merge_sort_Permutation. Qed.

Lemma elem_of_sorted (x : A) (l : list A) : x ∈ sorted l <-> x ∈ l.
Proof. now rewrite sorted_Permutation. Qed.

Lemma sorted_StronglySorted (l : list A) : StronglySorted py_le (sorted l).
Proof. apply StronglySorted_merge_sort; apply _. Qed.

Lemma sorted_NoDup (l : list A) : NoDup l -> NoDup (sorted l).
Proof. now rewrite sorted_Permutation. Qed.

(** [itertools.combinations] of a sorted list without repetition
    lists every pair once, smaller element first. *)
Lemma elem_of_combinations2 (l : list A) (x y : A) :
  StronglySorted py_le l -> NoDup l ->
  (x, y) ∈ combinations2 l <-> x ∈ l /\ y ∈ l /\ py_lt x y.
Proof.
  induction 1 as [|a l Hs IH Ha]; intros Hnd; simpl.
  - rewrite elem_of_nil. split; [tauto | intros (Hx & _); now apply elem_of_nil in Hx].
  - apply NoDup_cons in Hnd as [Hnotin Hnd].
    rewrite elem_of_app, list_elem_of_fmap, IH, !elem_of_cons by assumption.
    rewrite Forall_forall in Ha.
    split.
    + intros [(z & E & Hz) | (Hx & Hy & Hlt)].
      * injection E as -> ->. split; [now left|]. split; [now right|].
        apply py_le_lt; [now apply Ha|]. intros ->. contradiction.
      * auto.
    + intros ([-> | Hx] & [-> | Hy] & Hlt).
      * now apply py_lt_neq in Hlt.
      * left. eauto.
      * exfalso. apply Ha in Hx. unfold py_lt, py_le in *.
        rewrite (cmp_antisym a x), Hlt in Hx. now apply Hx.
      * right. auto.
Qed.
End order.

(** ** Substrings and fields *)

Lemma append_String (a : ascii) (p q : string) :
  String a p +:+ q = String a (p +:+ q).
Proof. reflexivity. Qed.

Lemma append_Empty (q : string) : EmptyString +:+ q = q.
Proof. reflexivity. Qed.

Lemma startswith_spec (p s : string) :
  startswith p s = true <-> exists post, s = p +:+ post.
Proof.
  revert s. induction p as [|a p IH]; intros s; simpl.
  - split; [intros _; now exists s | reflexivity].
  - destruct s as [|b s].
    + split; [discriminate | intros (post & E); discriminate].
    + destruct (Ascii.eqb_spec a b) as [-> | Hne].
      * rewrite IH. split; intros (post & E); exists post;
          rewrite ?append_String in *; congruence.
      * split; [discriminate | intros (post & E)].
        rewrite append_String in E. congruence.
Qed.

Lemma str_in_spec (p s : string) : str_in p s = true <-> contains p s.
Proof.
  unfold contains. induction s as [|b s IH]; simpl.
  - rewrite orb_false_r, startswith_spec. split.
    + intros (post & E). now exists EmptyString, post.
    + intros ([|c pre] & post & E); [now exists post | discriminate].
  - rewrite orb_true_iff, startswith_spec, IH. split.
    + intros [(post & E) | (pre & post & E)].
      * now exists EmptyString, post.
      * exists (String b pre), post. rewrite append_String. congruence.
    + intros ([|c pre] & post & E).
      * left. now exists post.
      * right. exists pre, post. rewrite append_String in E. congruence.
Qed.

#[export] Instance contains_dec (p s : string) : Decision (contains p s).
Proof.
  destruct (str_in p s) eqn:E; [left | right]; rewrite <- str_in_spec; congruence.
Defined.

Lemma split_nonempty (c : ascii) (s : string) : split c s <> [].
Proof.
  destruct s as [|a s]; simpl; [discriminate|].
  destruct (Ascii.eqb a c); [discriminate|]. destruct (split c s); discriminate.
Qed.

Lemma split_head_prefix (c : ascii) (s h : string) :
  nth_error (split c s) 0 = Some h -> exists post, s = h +:+ post.
Proof.
  revert h. induction s as [|a s IH]; intros h; simpl.
  - intros [= <-]. now exists EmptyString.
  - destruct (Ascii.eqb a c).
    + intros [= <-]. now exists (String a s).
    + destruct (split c s) as [|h' t] eqn:E; [now apply split_nonempty in E|].
      intros [= <-]. destruct (IH h' eq_refl) as (post & ->).
      exists post. now rewrite append_String.
Qed.

Lemma contains_cons (p s : string) (a : ascii) :
  contains p s -> contains p (String a s).
Proof.
  intros (pre & post & ->). exists (String a pre), post. now rewrite append_String.
Qed.

(** Every field that [split] returns occurs in the string that was split. *)
Lemma split_field_contains (c : ascii) (s r : string) (i : nat) :
  nth_error (split c s) i = Some r -> contains r s.
Proof.
  revert i r. induction s as [|a s IH]; intros i r; simpl.
  - destruct i as [|[|i]]; simpl; try discriminate.
    intros [= <-]. now exists EmptyString, EmptyString.
  - destruct (Ascii.eqb a c).
    + destruct i as [|i]; simpl.
      * intros [= <-]. now exists EmptyString, (String a s).
      * intros Hi. apply contains_cons. eauto.
    + destruct (split c s) as [|h t] eqn:E; [now apply split_nonempty in E|].
      destruct i as [|i]; simpl.
      * intros [= <-]. destruct (split_head_prefix c s h) as (post & ->).
        { now rewrite E. }
        exists EmptyString, post. now rewrite append_Empty, append_String.
      * intros Hi. apply contains_cons. apply (IH (S i)). exact Hi.
Qed.

Lemma append_assoc (p q r : string) : (p +:+ q) +:+ r = p +:+ (q +:+ r).
Proof.
  induction p as [|a p IH]; [reflexivity|]. rewrite !append_String. now f_equal.
Qed.

Lemma contains_trans (p q s : string) : contains p q -> contains q s -> contains p s.
Proof.
  intros (pre & post & ->) (pre' & post' & ->).
  exists (pre' +:+ pre), (post +:+ post'). now rewrite !append_assoc.
Qed.

#[export] Instance water_involving_dec s hbond : Decision (water_involving s hbond).
Proof. unfold water_involving. apply _. Defined.

Lemma residue_vs_water_hbonds_loop (s : string) (hbonds res wat : list row4) :
  fold_left (residue_vs_water_hbonds_body s) hbonds (res, wat)
  = (res ++ filter (fun hb => ~ water_involving s hb) hbonds,
     wat ++ filter (water_involving s) hbonds).
Proof.
  revert res wat. induction hbonds as [|[[[f a1] a2] t] hbonds IH]; intros res wat; simpl.
  - now rewrite !app_nil_r.
  - rewrite !filter_cons.
    assert (E : str_in s a1 || str_in s a2 = true <-> water_involving s (f, a1, a2, t)).
    { unfold water_involving, atom1_of, atom2_of; simpl.
      now rewrite orb_true_iff, !str_in_spec. }
    destruct (str_in s a1 || str_in s a2); rewrite IH.
    + rewrite decide_False, decide_True by tauto. now rewrite <- app_assoc.
    + rewrite decide_True, decide_False by (rewrite <- E; congruence).
      now rewrite <- app_assoc.
Qed.

Lemma residue_vs_water_hbonds_filter (hbonds : list row4) (s : string) :
  residue_vs_water_hbonds hbonds s
  = (filter (fun hb => ~ water_involving s hb) hbonds, filter (water_involving s) hbonds).
Proof.
  unfold residue_vs_water_hbonds. now rewrite residue_vs_water_hbonds_loop.
Qed.

(** C2 (as amended): the partition step puts an hbond in the water list
    exactly when the solvent name occurs as a substring anywhere in one
    of its two labels, and in the residue list otherwise; both lists
    keep the input order.  A solvent name in the resname field is one
    such occurrence, so an hbond the specification's test accepts is in
    the water list, but not only those. *)
Theorem residue_vs_water_hbonds_substring (hbonds : list row4) (solvent_resn : string) :
  residue_vs_water_hbonds hbonds solvent_resn
  = (filter (fun hb => ~ water_involving solvent_resn hb) hbonds,
     filter (water_involving solvent_resn) hbonds)
  /\ (forall hb, hb ∈ (residue_vs_water_hbonds hbonds solvent_resn).2
                 <-> hb ∈ hbonds /\ water_involving solvent_resn hb)
  /\ (forall hb, hb ∈ (residue_vs_water_hbonds hbonds solvent_resn).1
                 <-> hb ∈ hbonds /\ ~ water_involving solvent_resn hb)
  /\ (forall hb, spec_water_involving solvent_resn hb -> water_involving solvent_resn hb).
Proof.
  rewrite residue_vs_water_hbonds_filter. cbn [fst snd].
  split; [reflexivity|].
  split; [|split]; try (intros hb; rewrite list_elem_of_filter; tauto).
  intros hb [(r & E & C) | (r & E & C)]; [left | right];
    eapply contains_trans; eauto using split_field_contains.
Qed.

(** C2 (as stated) fails: with solvent name [W], an hbond between two
    protein atoms, one of them on chain [W], is put in the water list
    although neither resname field contains the solvent name. *)
Lemma residue_vs_water_hbonds_not_resname_only :
  let hbond : row4 := (1, "W:LYS:10:NZ:5", "B:PHE:20:CG:50", "hb") in
  residue_vs_water_hbonds [hbond] "W" = ([], [hbond])
  /\ field 1 (atom1_of hbond) = Some "LYS"
  /\ field 1 (atom2_of hbond) = Some "PHE"
  /\ ~ spec_water_involving "W" hbond.
Proof.
  simpl. repeat split.
  unfold spec_water_involving, resname_matches, atom1_of, atom2_of; simpl.
  intros [(r & E & C) | (r & E & C)]; injection E as <-;
    apply str_in_spec in C; discriminate.
Qed.

(** ** Residue-residue classification *)

Lemma list_in_backbone_atoms (label name : string) :
  field 3 label = Some name ->
  list_in name backbone_atoms = bool_decide (backbone label).
Proof.
  intros E. unfold list_in, backbone_atoms. simpl. rewrite orb_false_r.
  destruct (String.eqb_spec name "N") as [-> | H1].
  { symmetry. apply bool_decide_eq_true. now left. }
  destruct (String.eqb_spec name "O") as [-> | H2].
  { symmetry. apply bool_decide_eq_true. now right. }
  symmetry. apply bool_decide_eq_false. unfold backbone. rewrite E.
  intros [[=] | [=]]; congruence.
Qed.

Lemma stratify_residue_hbonds_body_spec (hbss hbsb hbbb : list row4) (hbond : row4) :
  well_formed hbond ->
  stratify_residue_hbonds_body (hbss, hbsb, hbbb) hbond
  = Ok (hbss ++ class_rows SS "hbss" [hbond],
        hbsb ++ class_rows SB "hbsb" [hbond],
        hbbb ++ class_rows BB "hbbb" [hbond]).
Proof.
  destruct hbond as [[[f a1] a2] t]. intros [[n1 E1] [n2 E2]].
  unfold atom1_of, atom2_of in E1, E2; cbn [fst snd] in E1, E2.
  unfold stratify_residue_hbonds_body, getitem.
  unfold field in E1, E2 |- *. rewrite E1, E2. cbn [mbind result_bind].
  rewrite (list_in_backbone_atoms a1 n1 E1), (list_in_backbone_atoms a2 n2 E2).
  unfold class_rows. rewrite !filter_cons, !filter_nil.
  unfold classify, atom1_of, atom2_of; simpl.
  destruct (bool_decide (backbone a1)), (bool_decide (backbone a2)); simpl;
    rewrite ?app_nil_r; reflexivity.
Qed.

Lemma class_rows_cons (c : hb_class) (itype : string) (hb : row4) (l : list row4) :
  class_rows c itype (hb :: l) = class_rows c itype [hb] ++ class_rows c itype l.
Proof.
  unfold class_rows. rewrite !filter_cons, filter_nil.
  destruct (decide (classify hb = c)); reflexivity.
Qed.

Lemma stratify_residue_hbonds_loop (l hbss hbsb hbbb : list row4) :
  Forall well_formed l ->
  for_each stratify_residue_hbonds_body l (hbss, hbsb, hbbb)
  = Ok (hbss ++ class_rows SS "hbss" l,
        hbsb ++ class_rows SB "hbsb" l,
        hbbb ++ class_rows BB "hbbb" l).
Proof.
  intros Hwf. revert hbss hbsb hbbb.
  induction Hwf as [|hb l Hhb Hl IH]; intros hbss hbsb hbbb.
  - unfold class_rows. simpl. now rewrite !app_nil_r.
  - cbn [for_each]. rewrite stratify_residue_hbonds_body_spec by assumption.
    cbn [mbind result_bind]. rewrite IH.
    rewrite (class_rows_cons SS _ hb l), (class_rows_cons SB _ hb l),
      (class_rows_cons BB _ hb l).
    now rewrite <- !app_assoc.
Qed.

Lemma stratify_residue_hbonds_body_ill_formed (acc : list row4 * list row4 * list row4)
    (hbond : row4) :
  ~ well_formed hbond -> stratify_residue_hbonds_body acc hbond = Raise IndexError.
Proof.
  destruct acc as [[hbss hbsb] hbbb], hbond as [[[f a1] a2] t]. intros Hill.
  unfold stratify_residue_hbonds_body, getitem.
  destruct (nth_error (split colon a1) 3) as [n1|] eqn:E1; [|reflexivity].
  destruct (nth_error (split colon a2) 3) as [n2|] eqn:E2; [|reflexivity].
  exfalso. apply Hill. split; [exists n1 | exists n2]; assumption.
Qed.

#[export] Instance well_formed_dec (hbond : row4) : Decision (well_formed hbond).
Proof. unfold well_formed, has_atom_name. apply _. Defined.

Lemma stratify_residue_hbonds_loop_ill_formed (l : list row4)
    (acc : list row4 * list row4 * list row4) :
  ~ Forall well_formed l -> for_each stratify_residue_hbonds_body l acc = Raise IndexError.
Proof.
  revert acc. induction l as [|hb l IH]; intros [[hbss hbsb] hbbb] Hill.
  - exfalso. apply Hill. constructor.
  - cbn [for_each]. destruct (decide (well_formed hb)) as [Hwf | Hwf].
    + rewrite stratify_residue_hbonds_body_spec by assumption. cbn [mbind result_bind].
      apply IH. intros Hl. apply Hill. now constructor.
    + now rewrite stratify_residue_hbonds_body_ill_formed.
Qed.

Lemma class_rows_core_Permutation (l : list row4) :
  (core <$> (class_rows SS "hbss" l ++ class_rows SB "hbsb" l ++ class_rows BB "hbbb" l))
  ≡ₚ (core <$> l).
Proof.
  induction l as [|hb l IH]; [reflexivity|].
  rewrite (class_rows_cons SS _ hb l), (class_rows_cons SB _ hb l),
    (class_rows_cons BB _ hb l).
  rewrite fmap_cons, <- IH. rewrite !fmap_app.
  unfold class_rows at 1 3 5. rewrite !filter_cons, !filter_nil.
  destruct (classify hb); simpl; change (hb.1) with (core hb).
  - reflexivity.
  - symmetry. apply Permutation_middle.
  - symmetry. rewrite !app_assoc. apply Permutation_middle.
Qed.

Lemma elem_of_class_rows_core (c : hb_class) (itype : string) (l : list row4) x :
  x ∈ (core <$> class_rows c itype l) -> exists t, classify (x, t) = c /\ (x, t) ∈ l.
Proof.
  unfold class_rows. rewrite <- list_fmap_compose.
  intros (hb & -> & Hhb)%list_elem_of_fmap.
  apply list_elem_of_filter in Hhb as [Hc Hin].
  destruct hb as [x t]. now exists t.
Qed.

Lemma classify_core (x : Z * string * string) (t t' : string) :
  classify (x, t) = classify (x, t').
Proof. reflexivity. Qed.

(** C3: on residue-residue hbonds whose labels have an atom-name field,
    [stratify_residue_hbonds] returns three lists; each list holds, in
    input order and retagged, the hbonds of one class of the table
    (none, one, both atoms backbone), so the three lists together are
    a rearrangement of the input and no hbond is in two of them. *)
Theorem stratify_residue_hbonds_partition (residue_hbonds : list row4) :
  Forall well_formed residue_hbonds ->
  exists hbss hbsb hbbb,
    stratify_residue_hbonds residue_hbonds = Ok (hbss, hbsb, hbbb)
    /\ hbss = retag "hbss" <$> filter (fun hb => classify hb = SS) residue_hbonds
    /\ hbsb = retag "hbsb" <$> filter (fun hb => classify hb = SB) residue_hbonds
    /\ hbbb = retag "hbbb" <$> filter (fun hb => classify hb = BB) residue_hbonds
    /\ (core <$> (hbss ++ hbsb ++ hbbb)) ≡ₚ (core <$> residue_hbonds)
    /\ (length hbss + length hbsb + length hbbb = length residue_hbonds)%nat
    /\ (forall x, x ∈ (core <$> hbss) ->
                  (x ∉ (core <$> hbsb)) /\ (x ∉ (core <$> hbbb)))
    /\ (forall x, x ∈ (core <$> hbsb) -> x ∉ (core <$> hbbb)).
Proof.
  intros Hwf.
  exists (class_rows SS "hbss" residue_hbonds), (class_rows SB "hbsb" residue_hbonds),
    (class_rows BB "hbbb" residue_hbonds).
  split; [|split; [reflexivity|split; [reflexivity|split; [reflexivity|]]]].
  { unfold stratify_residue_hbonds. now rewrite stratify_residue_hbonds_loop. }
  pose proof (class_rows_core_Permutation residue_hbonds) as HP.
  split; [exact HP|]. split.
  { apply Permutation_length in HP. rewrite !length_fmap, !length_app in HP. lia. }
  split.
  - intros x (t & Ht & _)%elem_of_class_rows_core. split;
      intros (t' & Ht' & _)%elem_of_class_rows_core;
      rewrite (classify_core x t t') in Ht; congruence.
  - intros x (t & Ht & _)%elem_of_class_rows_core
      (t' & Ht' & _)%elem_of_class_rows_core.
    rewrite (classify_core x t t') in Ht; congruence.
Qed.

Lemma stratify_residue_hbonds_partition_example :
  Forall well_formed [(1, "A:LYS:10:NZ:5", "B:PHE:20:CG:50", "hb")]
  /\ exists hbss hbsb hbbb,
    stratify_residue_hbonds [(1, "A:LYS:10:NZ:5", "B:PHE:20:CG:50", "hb")]
    = Ok (hbss, hbsb, hbbb)
    /\ hbss = [(1, "A:LYS:10:NZ:5", "B:PHE:20:CG:50", "hbss")].
Proof.
  assert (Hwf : Forall well_formed [(1, "A:LYS:10:NZ:5", "B:PHE:20:CG:50", "hb")]).
  { repeat constructor; eexists; reflexivity. }
  split; [exact Hwf|].
  destruct (stratify_residue_hbonds_partition _ Hwf)
    as (hbss & hbsb & hbbb & E & Hss & _).
  exists hbss, hbsb, hbbb. split; [exact E|]. rewrite Hss. reflexivity.
Defined.

(** ** The water-to-residues map *)

Lemma calc_water_to_residues_map_body_eq s st f a1 a2 t :
  calc_water_to_residues_map_body s st (f, a1, a2, t)
  = match str_in s a1, str_in s a2 with
    | true, true =>
        Ok (Locals (Some f) (l_water st) (l_protein st) (l_water_to_residues st)
                   (l_solvent_bridges st ++ [(a1, a2)]))
    | true, false =>
        Ok (Locals (Some f) (Some a1) (Some a2)
                   (add_residue a1 a2 (l_water_to_residues st)) (l_solvent_bridges st))
    | false, true =>
        Ok (Locals (Some f) (Some a2) (Some a1)
                   (add_residue a2 a1 (l_water_to_residues st)) (l_solvent_bridges st))
    | false, false =>
        match l_water st, l_protein st with
        | None, _ => Raise (UnboundLocalError "water")
        | Some w, None => Raise (UnboundLocalError "protein")
        | Some w, Some p =>
            Ok (Locals (Some f) (Some w) (Some p)
                       (add_residue w p (l_water_to_residues st)) (l_solvent_bridges st))
        end
    end.
Proof.
  assert (Hadd : forall (w : string) (pv : option string),
    (water ← read_local "water" (Some w);
     bucket ← match (match l_water_to_residues st !! water with
                     | None => <[water := ∅]> (l_water_to_residues st)
                     | Some _ => l_water_to_residues st
                     end) !! water with
              | Some x => Ok x
              | None => Raise KeyError
              end;
     protein ← read_local "protein" pv;
     Ok (Locals (Some f) (Some water) (Some protein)
           (<[water := bucket ∪ {[protein]}]>
              (match l_water_to_residues st !! water with
               | None => <[water := ∅]> (l_water_to_residues st)
               | Some _ => l_water_to_residues st
               end))
           (l_solvent_bridges st)))
    = match pv with
      | None => Raise (UnboundLocalError "protein")
      | Some p => Ok (Locals (Some f) (Some w) (Some p)
                        (add_residue w p (l_water_to_residues st)) (l_solvent_bridges st))
      end).
  { intros w pv. cbn [read_local mbind result_bind]. unfold add_residue.
    destruct (l_water_to_residues st !! w) as [S|] eqn:E.
    - rewrite E. cbn [mbind result_bind default]. now destruct pv.
    - rewrite lookup_insert_eq. cbn [mbind result_bind default].
      destruct pv; cbn [read_local mbind result_bind]; [|reflexivity].
      now rewrite insert_insert_eq. }
  unfold calc_water_to_residues_map_body.
  destruct (str_in s a1), (str_in s a2); cbn [andb negb].
  - reflexivity.
  - apply (Hadd a1 (Some a2)).
  - apply (Hadd a2 (Some a1)).
  - destruct (l_water st) as [w|]; [apply (Hadd w (l_protein st)) | reflexivity].
Qed.

Lemma for_each_app {A S} (body : S -> A -> result S) (l1 l2 : list A) (st : S) :
  for_each body (l1 ++ l2) st = (st' ← for_each body l1 st; for_each body l2 st').
Proof.
  revert st. induction l1 as [|x l1 IH]; intros st; [reflexivity|].
  cbn [for_each app]. destruct (body st x); cbn [mbind result_bind]; [apply IH | reflexivity].
Qed.

Lemma bridged_add_residue w p m w' p' :
  bridged (add_residue w p m) w' p' <-> (w' = w /\ p' = p) \/ bridged m w' p'.
Proof.
  unfold bridged, add_residue. destruct (decide (w = w')) as [<- | Hne].
  - rewrite lookup_insert_eq. split.
    + intros (S & [= <-] & Hin). apply elem_of_union in Hin as [Hin | Hin].
      * right. destruct (m !! w) as [S|]; [eauto | set_solver].
      * left. set_solver.
    + intros [[_ ->] | (S & E & Hin)]; eexists; (split; [reflexivity|]).
      * set_solver.
      * rewrite E. set_solver.
  - rewrite lookup_insert_ne by assumption. split; [auto | intros [[? _] | ?]; congruence || assumption].
Qed.

Lemma loop_invariant_init (s : string) : loop_invariant s [] locals_init.
Proof.
  split; simpl; try reflexivity.
  - intros w p. split.
    + intros (S & E & _). now rewrite lookup_empty in E.
    + intros (hb & Hin & _). now apply elem_of_nil in Hin.
  - intros w S E. now rewrite lookup_empty in E.
  - discriminate.
  - intros (hb & Hin & _). now apply elem_of_nil in Hin.
  - intros w1 w2. split.
    + intros Hin. now apply elem_of_nil in Hin.
    + intros (hb & Hin & _). now apply elem_of_nil in Hin.
Qed.

Lemma bonds_iff s f a1 a2 t w p :
  bonds s (f, a1, a2, t) w p
  <-> (contains s a1 /\ ~ contains s a2 /\ w = a1 /\ p = a2)
      \/ (contains s a2 /\ ~ contains s a1 /\ w = a2 /\ p = a1).
Proof. unfold bonds, atom1_of, atom2_of; cbn [fst snd]. naive_solver. Qed.

Lemma exists_snoc {A} (P : A -> Prop) (l : list A) (x : A) :
  (exists y, y ∈ l ++ [x] /\ P y) <-> (exists y, y ∈ l /\ P y) \/ P x.
Proof.
  split.
  - intros (y & [Hin | ->%list_elem_of_singleton]%elem_of_app & HP); eauto.
  - intros [(y & Hin & HP) | HP].
    + exists y. rewrite elem_of_app. auto.
    + exists x. rewrite elem_of_app, list_elem_of_singleton. auto.
Qed.

Lemma last_fmap_snoc {A B} (g : A -> B) (l : list A) (x : A) :
  last (g <$> (l ++ [x])) = Some (g x).
Proof. rewrite fmap_app. apply last_snoc. Qed.


Lemma loop_invariant_step s seen st hb st' :
  loop_invariant s seen st ->
  calc_water_to_residues_map_body s st hb = Ok st' ->
  loop_invariant s (seen ++ [hb]) st'.
Proof.
  intros [Hmap Hne Hst Hb Hbr Hfr]. destruct hb as [[[f a1] a2] t].
  rewrite calc_water_to_residues_map_body_eq.
  pose proof (str_in_spec s a1) as C1. pose proof (str_in_spec s a2) as C2.
  assert (Hne_add : forall w p w' S,
    add_residue w p (l_water_to_residues st) !! w' = Some S -> S <> ∅).
  { intros w p w' S. unfold add_residue. destruct (decide (w = w')) as [<- | Hd].
    - rewrite lookup_insert_eq. intros [= <-]. set_solver.
    - rewrite lookup_insert_ne by assumption. apply Hne. }
  destruct (str_in s a1), (str_in s a2).
  - (* water -- water *)
    intros [= <-]. split; cbn [l_water_to_residues l_water l_protein l_solvent_bridges l_frame_idx].
    + intros w p. rewrite Hmap, exists_snoc, bonds_iff. naive_solver.
    + exact Hne.
    + exact Hst.
    + rewrite exists_snoc. intros [Hex | (w & p & Hbd)].
      * now apply Hb.
      * rewrite bonds_iff in Hbd. naive_solver.
    + intros w1 w2. rewrite elem_of_app, list_elem_of_singleton, Hbr, exists_snoc.
      unfold atom1_of, atom2_of; cbn [fst snd]. naive_solver.
    + now rewrite last_fmap_snoc.
  - (* water -- protein *)
    intros [= <-]. split; cbn [l_water_to_residues l_water l_protein l_solvent_bridges l_frame_idx].
    + intros w p. rewrite bridged_add_residue, Hmap, exists_snoc, bonds_iff. naive_solver.
    + eauto.
    + intros w [= <-]. exists a2. split; [reflexivity|].
      rewrite bridged_add_residue. auto.
    + eauto.
    + intros w1 w2. rewrite Hbr, exists_snoc.
      unfold atom1_of, atom2_of; cbn [fst snd]. naive_solver.
    + now rewrite last_fmap_snoc.
  - (* protein -- water *)
    intros [= <-]. split; cbn [l_water_to_residues l_water l_protein l_solvent_bridges l_frame_idx].
    + intros w p. rewrite bridged_add_residue, Hmap, exists_snoc, bonds_iff. naive_solver.
    + eauto.
    + intros w [= <-]. exists a1. split; [reflexivity|].
      rewrite bridged_add_residue. auto.
    + eauto.
    + intros w1 w2. rewrite Hbr, exists_snoc.
      unfold atom1_of, atom2_of; cbn [fst snd]. naive_solver.
    + now rewrite last_fmap_snoc.
  - (* protein -- protein: the pair of an earlier iteration is added again *)
    destruct (l_water st) as [w0|] eqn:Ew; [|discriminate].
    destruct (l_protein st) as [p0|] eqn:Ep; [|discriminate].
    destruct (Hst w0 eq_refl) as (p0' & [= <-] & Hbridged).
    intros [= <-]. split; cbn [l_water_to_residues l_water l_protein l_solvent_bridges l_frame_idx].
    + intros w p. rewrite bridged_add_residue, Hmap, exists_snoc, bonds_iff.
      apply Hmap in Hbridged. naive_solver.
    + eauto.
    + intros w [= <-]. exists p0. split; [reflexivity|].
      rewrite bridged_add_residue. auto.
    + eauto.
    + intros w1 w2. rewrite Hbr, exists_snoc.
      unfold atom1_of, atom2_of; cbn [fst snd]. naive_solver.
    + now rewrite last_fmap_snoc.
Qed.

Lemma loop_invariant_for_each s l seen st st' :
  loop_invariant s seen st ->
  for_each (calc_water_to_residues_map_body s) l st = Ok st' ->
  loop_invariant s (seen ++ l) st'.
Proof.
  revert seen st. induction l as [|hb l IH]; intros seen st Hinv; cbn [for_each].
  - intros [= <-]. now rewrite app_nil_r.
  - destruct (calc_water_to_residues_map_body s st hb) as [st1|e] eqn:E;
      cbn [mbind result_bind]; [|discriminate].
    intros Hl. replace (seen ++ hb :: l) with ((seen ++ [hb]) ++ l)
      by now rewrite <- app_assoc.
    eapply IH; [|exact Hl]. eapply loop_invariant_step; eauto.
Qed.

(** What a successful call of [calc_water_to_residues_map] returns: the
    frame index of the last hbond, and a map that holds exactly the
    (water, residue atom) pairs of the hbonds with one solvent end. *)
Lemma calc_water_to_residues_map_spec hbonds s f m b :
  calc_water_to_residues_map hbonds s = Ok (f, m, b) ->
  (forall w p, bridged m w p <-> exists hb, hb ∈ hbonds /\ bonds s hb w p)
  /\ (forall w S, m !! w = Some S -> S <> ∅)
  /\ last (frame_of <$> hbonds) = Some f
  /\ (forall w1 w2, (w1, w2) ∈ b ->
        exists hb, hb ∈ hbonds /\ atom1_of hb = w1 /\ atom2_of hb = w2
                   /\ contains s w1 /\ contains s w2).
Proof.
  unfold calc_water_to_residues_map.
  destruct (for_each _ hbonds locals_init) as [st|e] eqn:E; cbn [mbind result_bind]; [|discriminate].
  apply (loop_invariant_for_each s hbonds [] locals_init st (loop_invariant_init s)) in E.
  rewrite app_nil_l in E. destruct E as [Hmap Hne _ _ Hbr Hfr].
  destruct (l_frame_idx st) as [f'|] eqn:Ef; cbn [read_local mbind result_bind]; [|discriminate].
  intros [= <- <- <-]. split; [exact Hmap|]. split; [exact Hne|]. split; [now rewrite <- Hfr|].
  intros w1 w2 Hin. unfold sorted in Hin. rewrite merge_sort_Permutation in Hin.
  apply elem_of_elements in Hin.
  assert (Hsub : forall (l : list (string * string)) (acc : gset (string * string)) x,
    x ∈ fold_left
          (fun (solvent_bridges : gset (string * string)) '(water1, water2) =>
             if bool_decide ((water1, water2) ∉ solvent_bridges)
                && bool_decide ((water2, water1) ∉ solvent_bridges)
             then solvent_bridges ∪ {[(water1, water2)]}
             else solvent_bridges) l acc ->
    x ∈ acc \/ x ∈ l).
  { induction l as [|[u v] l IH]; intros acc x; cbn [fold_left]; [auto|].
    intros [Hx | Hx]%IH.
    - destruct (_ && _); [|auto].
      apply elem_of_union in Hx as [Hx | Hx]; [auto|].
      right. apply elem_of_singleton in Hx as ->. left.
    - right. now right. }
  apply Hsub in Hin as [Hin | Hin]; [set_solver|].
  apply Hbr in Hin as (hb & Hhb & [? ?] & ? & ?). exists hb. auto.
Qed.

(** ** Unbound local variables *)

(** C9: on the empty list the loop of [calc_water_to_residues_map]
    never binds [frame_idx], so returning it raises, and with it
    [stratify_hbond_subtypes] raises instead of returning a list. *)
Theorem stratify_hbond_subtypes_empty (solvent_resn : string) :
  calc_water_to_residues_map [] solvent_resn = Raise (UnboundLocalError "frame_idx")
  /\ stratify_hbond_subtypes [] solvent_resn = Raise (UnboundLocalError "frame_idx").
Proof. split; reflexivity. Qed.

Lemma not_water_involving_str_in s f a1 a2 t :
  ~ water_involving s (f, a1, a2, t) -> str_in s a1 = false /\ str_in s a2 = false.
Proof.
  unfold water_involving, atom1_of, atom2_of; cbn [fst snd].
  rewrite <- !str_in_spec. destruct (str_in s a1), (str_in s a2); tauto.
Qed.

(** A residue-residue hbond met while [water] is unbound. *)
Lemma calc_water_to_residues_map_body_unbound s st hb :
  ~ water_involving s hb -> l_water st = None ->
  calc_water_to_residues_map_body s st hb = Raise (UnboundLocalError "water").
Proof.
  destruct hb as [[[f a1] a2] t]. intros [E1 E2]%not_water_involving_str_in Hw.
  rewrite calc_water_to_residues_map_body_eq, E1, E2, Hw. reflexivity.
Qed.

Lemma for_each_both_solvent s l st :
  Forall (both_solvent s) l ->
  exists st', for_each (calc_water_to_residues_map_body s) l st = Ok st'
              /\ l_water st' = l_water st.
Proof.
  intros Hl. revert st. induction Hl as [|hb l [H1 H2] _ IH]; intros st.
  - now exists st.
  - destruct hb as [[[f a1] a2] t]. unfold atom1_of, atom2_of in H1, H2; cbn [fst snd] in H1, H2.
    apply str_in_spec in H1, H2. cbn [for_each].
    rewrite calc_water_to_residues_map_body_eq, H1, H2. cbn [mbind result_bind].
    destruct (IH (Locals (Some f) (l_water st) (l_protein st) (l_water_to_residues st)
                         (l_solvent_bridges st ++ [(a1, a2)]))) as (st' & E & Hw).
    exists st'. split; [exact E | exact Hw].
Qed.

(** A residue-residue hbond that comes before every hbond with one
    solvent end. *)
Lemma calc_water_to_residues_map_residue_first s l1 hb l2 :
  Forall (both_solvent s) l1 -> ~ water_involving s hb ->
  calc_water_to_residues_map (l1 ++ hb :: l2) s = Raise (UnboundLocalError "water").
Proof.
  intros Hl1 Hhb. unfold calc_water_to_residues_map. rewrite for_each_app.
  destruct (for_each_both_solvent s l1 locals_init Hl1) as (st' & -> & Hw).
  cbn [mbind result_bind for_each].
  now rewrite calc_water_to_residues_map_body_unbound.
Qed.

(** The loop body never reads [frame_idx]. *)
Lemma calc_water_to_residues_map_body_frame s fo st hb :
  calc_water_to_residues_map_body s (with_frame fo st) hb
  = calc_water_to_residues_map_body s st hb.
Proof.
  destruct hb as [[[f a1] a2] t]. rewrite !calc_water_to_residues_map_body_eq. reflexivity.
Qed.

Lemma add_residue_bridged w p m : bridged m w p -> add_residue w p m = m.
Proof.
  intros (S & E & Hin). unfold add_residue. rewrite E. cbn [default].
  apply insert_id. rewrite E. f_equal. set_solver.
Qed.

(** A residue-residue hbond met once [water] is bound: the pair of the
    earlier iteration is added again, which changes nothing but
    [frame_idx]. *)
Lemma calc_water_to_residues_map_body_sticky s seen st hb :
  loop_invariant s seen st -> is_Some (l_water st) -> ~ water_involving s hb ->
  calc_water_to_residues_map_body s st hb = Ok (with_frame (Some (frame_of hb)) st).
Proof.
  intros Hinv [w Hw] Hhb. destruct hb as [[[f a1] a2] t].
  apply not_water_involving_str_in in Hhb as [E1 E2].
  destruct (inv_sticky _ _ _ Hinv w Hw) as (p & Hp & Hbr).
  rewrite calc_water_to_residues_map_body_eq, E1, E2, Hw, Hp.
  rewrite (add_residue_bridged _ _ _ Hbr). unfold with_frame. now rewrite Hw, Hp.
Qed.

Lemma for_each_with_frame s fo l st :
  l <> [] ->
  for_each (calc_water_to_residues_map_body s) l (with_frame fo st)
  = for_each (calc_water_to_residues_map_body s) l st.
Proof.
  destruct l as [|hb l]; [congruence|]. intros _. cbn [for_each].
  now rewrite calc_water_to_residues_map_body_frame.
Qed.

Lemma calc_water_to_residues_map_skip s l1 hb l2 :
  (exists hb', hb' ∈ l1 /\ exists w p, bonds s hb' w p) ->
  ~ water_involving s hb ->
  match calc_water_to_residues_map (l1 ++ l2) s with
  | Ok (f, m, b) =>
      calc_water_to_residues_map (l1 ++ hb :: l2) s
      = Ok (if decide (l2 = []) then frame_of hb else f, m, b)
  | Raise e => calc_water_to_residues_map (l1 ++ hb :: l2) s = Raise e
  end.
Proof.
  intros Hwp Hhb. unfold calc_water_to_residues_map. rewrite !for_each_app.
  destruct (for_each _ l1 locals_init) as [st1|e] eqn:E1; cbn [mbind result_bind];
    [|reflexivity].
  pose proof (loop_invariant_for_each s l1 [] _ _ (loop_invariant_init s) E1) as Hinv.
  rewrite app_nil_l in Hinv.
  cbn [for_each].
  rewrite (calc_water_to_residues_map_body_sticky s l1 st1 hb Hinv) by
    (try assumption; now apply (inv_bound _ _ _ Hinv)).
  cbn [mbind result_bind].
  destruct (decide (l2 = [])) as [-> | Hl2].
  - cbn [for_each mbind result_bind with_frame l_solvent_bridges l_frame_idx
         l_water_to_residues read_local].
    assert (Hf : is_Some (l_frame_idx st1)).
    { rewrite (inv_frame _ _ _ Hinv), last_is_Some.
      destruct Hwp as (hb' & Hin & _). destruct l1; [now apply elem_of_nil in Hin | discriminate]. }
    destruct Hf as [f ->]. reflexivity.
  - rewrite for_each_with_frame by assumption.
    destruct (for_each _ l2 st1) as [st2|e]; cbn [mbind result_bind]; [|reflexivity].
    destruct (l_frame_idx st2); reflexivity.
Qed.

(** C10 (as amended): [stratify_hbond_subtypes] hands the whole hbond
    list to the two water-bridge functions.  A residue-residue hbond
    that comes before every hbond with exactly one solvent end, as the
    first element or after water-water hbonds only, makes the map
    helper read [water] before any assignment: both water-bridge
    functions raise that unbound variable, and [stratify_hbond_subtypes]
    raises: the unbound variable when both labels of every
    residue-residue hbond of the list have an atom-name field, and
    otherwise the [IndexError] of [stratify_residue_hbonds], which runs
    first.  A residue-residue hbond that comes after an hbond with
    exactly one solvent end only adds the pair of that earlier
    iteration again: the map and the bridges are those of the list
    without it. *)
Theorem stratify_hbond_subtypes_residue_before_bond
    (solvent_resn : string) (hb : row4) :
  ~ water_involving solvent_resn hb ->
  (forall l1 l2, Forall (both_solvent solvent_resn) l1 ->
     stratify_water_bridge (l1 ++ hb :: l2) solvent_resn
     = Raise (UnboundLocalError "water")
     /\ stratify_extended_water_bridge (l1 ++ hb :: l2) solvent_resn
        = Raise (UnboundLocalError "water")
     /\ (exists e, stratify_hbond_subtypes (l1 ++ hb :: l2) solvent_resn = Raise e)
     /\ (Forall well_formed
           (filter (fun hb' => ~ water_involving solvent_resn hb') (l1 ++ hb :: l2)) ->
         stratify_hbond_subtypes (l1 ++ hb :: l2) solvent_resn
         = Raise (UnboundLocalError "water"))
     /\ (~ Forall well_formed
             (filter (fun hb' => ~ water_involving solvent_resn hb') (l1 ++ hb :: l2)) ->
         stratify_hbond_subtypes (l1 ++ hb :: l2) solvent_resn = Raise IndexError))
  /\ (forall l1 l2,
        (exists hb', hb' ∈ l1 /\ exists w p, bonds solvent_resn hb' w p) ->
        match calc_water_to_residues_map (l1 ++ l2) solvent_resn with
        | Ok (f, m, b) =>
            calc_water_to_residues_map (l1 ++ hb :: l2) solvent_resn
            = Ok (if decide (l2 = []) then frame_of hb else f, m, b)
        | Raise e => calc_water_to_residues_map (l1 ++ hb :: l2) solvent_resn = Raise e
        end).
Proof.
  intros Hhb. split; [|intros l1 l2 Hwp; now apply calc_water_to_residues_map_skip].
  intros l1 l2 Hl1. set (hbonds := l1 ++ hb :: l2).
  assert (Hwb : stratify_water_bridge hbonds solvent_resn
                = Raise (UnboundLocalError "water")).
  { unfold stratify_water_bridge, hbonds.
    now rewrite calc_water_to_residues_map_residue_first. }
  assert (Hwb2 : stratify_extended_water_bridge hbonds solvent_resn
                 = Raise (UnboundLocalError "water")).
  { unfold stratify_extended_water_bridge, hbonds.
    now rewrite calc_water_to_residues_map_residue_first. }
  split; [exact Hwb|]. split; [exact Hwb2|].
  assert (Hall : forall r,
    stratify_residue_hbonds (residue_vs_water_hbonds hbonds solvent_resn).1 = Ok r ->
    stratify_hbond_subtypes hbonds solvent_resn = Raise (UnboundLocalError "water")).
  { intros [[hbss hbsb] hbbb] E. unfold stratify_hbond_subtypes.
    destruct (residue_vs_water_hbonds hbonds solvent_resn) as [res wat].
    cbn [fst] in E. rewrite E. cbn [mbind result_bind]. rewrite Hwb. reflexivity. }
  split.
  - destruct (stratify_residue_hbonds (residue_vs_water_hbonds hbonds solvent_resn).1)
      as [r|e] eqn:E.
    + eexists. apply (Hall r eq_refl).
    + exists e. unfold stratify_hbond_subtypes.
      destruct (residue_vs_water_hbonds hbonds solvent_resn) as [res wat].
      cbn [fst] in E. now rewrite E.
  - split.
    + intros Hwf. eapply Hall. rewrite residue_vs_water_hbonds_filter. cbn [fst].
      unfold stratify_residue_hbonds. now apply stratify_residue_hbonds_loop.
    + intros Hill. unfold stratify_hbond_subtypes.
      rewrite residue_vs_water_hbonds_filter. unfold stratify_residue_hbonds.
      now rewrite (stratify_residue_hbonds_loop_ill_formed _ _ Hill).
Qed.

Lemma stratify_hbond_subtypes_residue_before_bond_example :
  ~ water_involving "TIP3" (7, "A:ALA:20:N:200", "A:GLU:16:O:180", "hb")
  /\ stratify_hbond_subtypes
       [ (7, "A:ALA:20:N:200", "A:GLU:16:O:180", "hb");
         (7, "A:ASP:10:OD1:100", "W:TIP3:500:OH2:900", "hb") ] "TIP3"
     = Raise (UnboundLocalError "water").
Proof.
  assert (H : ~ water_involving "TIP3" (7, "A:ALA:20:N:200", "A:GLU:16:O:180", "hb")).
  { unfold water_involving. rewrite <- !str_in_spec. vm_compute. intuition discriminate. }
  split; [exact H|].
  destruct (stratify_hbond_subtypes_residue_before_bond "TIP3" _ H) as [Hraise _].
  destruct (Hraise [] [(7, "A:ASP:10:OD1:100", "W:TIP3:500:OH2:900", "hb")])
    as (_ & _ & _ & Hall & _); [constructor|].
  apply Hall.
  replace (filter _ _) with [((7, "A:ALA:20:N:200", "A:GLU:16:O:180", "hb") : row4)]
    by (vm_compute; reflexivity).
  repeat constructor; eexists; reflexivity.
Defined.

(** C10 (as stated) fails: a residue-residue hbond after a
    water-involving hbond does not always add an earlier pair again.
    After a water-water hbond [water] is still unbound and the call
    raises.  And a first residue-residue hbond with a label without
    atom name makes the call raise [IndexError], not the unbound
    variable. *)
Lemma stratify_hbond_subtypes_residue_after_water_water :
  let ww : row4 := (7, "W:TIP3:500:OH2:900", "W:TIP3:501:OH2:903", "hb") in
  let rr : row4 := (7, "A:ALA:20:N:200", "A:GLU:16:O:180", "hb") in
  let short : row4 := (7, "A:ALA:20", "A:GLU:16:O:180", "hb") in
  water_involving "TIP3" ww
  /\ ~ water_involving "TIP3" rr
  /\ calc_water_to_residues_map [ww] "TIP3"
     = Ok (7, ∅, [("W:TIP3:500:OH2:900", "W:TIP3:501:OH2:903")])
  /\ calc_water_to_residues_map [ww; rr] "TIP3" = Raise (UnboundLocalError "water")
  /\ stratify_hbond_subtypes [ww; rr] "TIP3" = Raise (UnboundLocalError "water")
  /\ stratify_hbond_subtypes [short] "TIP3" = Raise IndexError.
Proof.
  cbv zeta. unfold water_involving. rewrite <- !str_in_spec.
  split; [left; vm_compute; reflexivity|].
  split; [vm_compute; intuition discriminate|].
  repeat split; vm_compute; reflexivity.
Qed.

(** ** Water bridges *)

(** A loop that only adds to a set: what it has added in the end. *)
Lemma elem_of_fold_left_add {A B} `{Countable B}
    (F : gset B -> A -> gset B) (Q : A -> B -> Prop) :
  (forall acc x y, y ∈ F acc x <-> y ∈ acc \/ Q x y) ->
  forall l acc y, y ∈ fold_left F l acc <-> y ∈ acc \/ exists x, x ∈ l /\ Q x y.
Proof.
  intros HF. induction l as [|x l IH]; intros acc y; cbn [fold_left].
  - split; [auto | intros [? | (x & Hin & _)]; [assumption | now apply elem_of_nil in Hin]].
  - rewrite IH, HF. split.
    + intros [[? | ?] | (x' & Hin & HQ)]; [auto | right | right].
      * exists x. split; [left | assumption].
      * exists x'. split; [now right | assumption].
    + intros [? | (x' & [-> | Hin]%elem_of_cons & HQ)]; [auto | auto | right; eauto].
Qed.

Lemma filter_none {A} (P : A -> Prop) `{forall x, Decision (P x)} (l : list A) :
  (forall x, x ∈ l -> ~ P x) -> filter P l = [].
Proof.
  induction l as [|a l IH]; intros Hl; [reflexivity|].
  rewrite filter_cons, decide_False by (apply Hl; left).
  apply IH. intros x Hx. apply Hl. now right.
Qed.

(** In a list without repetition that holds [x] but not [y], one entry
    is [x] or [y]. *)
Lemma count_one_of_two {A} `{EqDecision A} (l : list A) (x y : A) :
  NoDup l -> x ∈ l -> y ∉ l ->
  length (filter (fun r => r = x \/ r = y) l) = 1%nat.
Proof.
  induction 1 as [|a l Ha Hnd IH]; intros Hx Hy.
  - now apply elem_of_nil in Hx.
  - rewrite filter_cons. apply not_elem_of_cons in Hy as [Hya Hy].
    destruct (decide (a = x \/ a = y)) as [[-> | ->] | Hn].
    + rewrite filter_none; [reflexivity|]. intros r Hr [-> | ->]; contradiction.
    + congruence.
    + apply IH; [|assumption]. apply elem_of_cons in Hx as [-> | Hx]; [tauto | assumption].
Qed.

(** The set that the two nested loops of [stratify_water_bridge] build. *)
Lemma elem_of_water_bridges (frame_idx : Z) (m : gmap string (gset string)) (r : row5) :
  r ∈ fold_left
        (fun (water_bridges : gset row5) '(water, residues) =>
           let protein_atoms := sorted (elements (residues : gset string)) in
           fold_left
             (fun (water_bridges : gset row5) '(res_atom1, res_atom2) =>
                if bool_decide (res_atom1 ≠ res_atom2)
                then water_bridges ∪ {[(frame_idx, res_atom1, water, res_atom2, "wb")]}
                else water_bridges)
             (combinations2 protein_atoms) water_bridges)
        (map_to_list m) ∅
  <-> exists w S a1 a2,
        m !! w = Some S /\ a1 ∈ S /\ a2 ∈ S /\ py_lt a1 a2
        /\ r = (frame_idx, a1, w, a2, "wb").
Proof.
  rewrite (elem_of_fold_left_add _
    (fun (item : string * gset string) (y : row5) =>
       exists a1 a2, a1 ∈ item.2 /\ a2 ∈ item.2 /\ py_lt a1 a2
                     /\ y = (frame_idx, a1, item.1, a2, "wb"))).
  - split.
    + intros [Hin | ([w S] & Hin & a1 & a2 & H1 & H2 & Hlt & ->)]; [set_solver|].
      apply elem_of_map_to_list in Hin. exists w, S, a1, a2. auto.
    + intros (w & S & a1 & a2 & Hm & H1 & H2 & Hlt & ->). right.
      exists (w, S). rewrite elem_of_map_to_list. split; [assumption|].
      exists a1, a2. auto.
  - intros acc [w S] y. cbn [fst snd].
    rewrite (elem_of_fold_left_add _
      (fun (pr : string * string) (y : row5) =>
         pr.1 <> pr.2 /\ y = (frame_idx, pr.1, w, pr.2, "wb"))).
    + split.
      * intros [? | ([a1 a2] & Hin & Hne & ->)]; [auto | right].
        apply elem_of_combinations2 in Hin
          as (H1 & H2 & Hlt);
          [| apply sorted_StronglySorted | apply sorted_NoDup, NoDup_elements].
        rewrite elem_of_sorted, elem_of_elements in H1, H2.
        exists a1, a2. auto.
      * intros [? | (a1 & a2 & H1 & H2 & Hlt & ->)]; [auto | right].
        exists (a1, a2). split; [|split; [now apply py_lt_neq | reflexivity]].
        apply elem_of_combinations2;
          [apply sorted_StronglySorted | apply sorted_NoDup, NoDup_elements |].
        now rewrite !elem_of_sorted, !elem_of_elements.
    + intros acc' [a1 a2] y'. cbn [fst snd]. case_bool_decide as Hd.
      * rewrite elem_of_union, elem_of_singleton. tauto.
      * split; [auto | intros [? | [? _]]; [assumption | contradiction]].
Qed.

(** C4: when the map helper returns, [stratify_water_bridge] returns a
    sorted list without repetition whose rows are exactly the rows
    [(frame_idx, a1, water, a2, "wb")] for a key [water] of the map and
    two atoms [a1 < a2] of its set: one row for each unordered pair of
    distinct atoms, never both orders.  In particular two hbonds that
    join the same solvent atom to two distinct residue atoms give one
    row for the two. *)
Theorem stratify_water_bridge_combinations
    (water_hbonds : list row4) (solvent_resn : string)
    (frame_idx : Z) (m : gmap string (gset string)) (b : list (string * string)) :
  calc_water_to_residues_map water_hbonds solvent_resn = Ok (frame_idx, m, b) ->
  exists wb,
    stratify_water_bridge water_hbonds solvent_resn = Ok wb
    /\ (forall r, r ∈ wb <->
          exists w S a1 a2, m !! w = Some S /\ a1 ∈ S /\ a2 ∈ S /\ py_lt a1 a2
                            /\ r = (frame_idx, a1, w, a2, "wb"))
    /\ NoDup wb
    /\ StronglySorted py_le wb
    /\ (forall w S a1 a2, m !! w = Some S -> a1 ∈ S -> a2 ∈ S -> a1 <> a2 ->
          length (filter (fun r => r = (frame_idx, a1, w, a2, "wb")
                                   \/ r = (frame_idx, a2, w, a1, "wb")) wb) = 1%nat)
    /\ (forall hb1 hb2 w p1 p2,
          hb1 ∈ water_hbonds -> hb2 ∈ water_hbonds ->
          bonds solvent_resn hb1 w p1 -> bonds solvent_resn hb2 w p2 -> p1 <> p2 ->
          length (filter (fun r => r = (frame_idx, p1, w, p2, "wb")
                                   \/ r = (frame_idx, p2, w, p1, "wb")) wb) = 1%nat).
Proof.
  intros Hcalc. unfold stratify_water_bridge. rewrite Hcalc.
  eexists. split; [reflexivity|].
  set (water_bridges := fold_left _ (map_to_list m) ∅).
  assert (Hmem : forall r, r ∈ sorted (elements water_bridges) <->
    exists w S a1 a2, m !! w = Some S /\ a1 ∈ S /\ a2 ∈ S /\ py_lt a1 a2
                      /\ r = (frame_idx, a1, w, a2, "wb")).
  { intros r. rewrite elem_of_sorted, elem_of_elements. apply elem_of_water_bridges. }
  assert (Hnd : NoDup (sorted (elements water_bridges))).
  { apply sorted_NoDup, NoDup_elements. }
  assert (Hone : forall w S a1 a2, m !! w = Some S -> a1 ∈ S -> a2 ∈ S -> a1 <> a2 ->
    length (filter (fun r => r = (frame_idx, a1, w, a2, "wb")
                             \/ r = (frame_idx, a2, w, a1, "wb"))
              (sorted (elements water_bridges))) = 1%nat).
  { intros w S a1 a2 Hm H1 H2 Hne.
    assert (Hnot : forall x y, py_lt x y ->
      (frame_idx, y, w, x, "wb") ∉ sorted (elements water_bridges)).
    { intros x y Hlt (w' & S' & x' & y' & _ & _ & _ & Hlt' & [= -> _ ->])%Hmem.
      exact (py_lt_asym _ _ Hlt Hlt'). }
    destruct (py_lt_total a1 a2 Hne) as [Hlt | Hlt].
    - apply count_one_of_two; [assumption | | now apply Hnot].
      apply Hmem. exists w, S, a1, a2. auto.
    - rewrite (list_filter_iff _
        (fun r => r = (frame_idx, a2, w, a1, "wb") \/ r = (frame_idx, a1, w, a2, "wb")))
        by (intros; tauto).
      apply count_one_of_two; [assumption | | now apply Hnot].
      apply Hmem. exists w, S, a2, a1. auto. }
  split; [exact Hmem|]. split; [exact Hnd|].
  split; [apply sorted_StronglySorted|]. split; [exact Hone|].
  intros hb1 hb2 w p1 p2 Hin1 Hin2 Hb1 Hb2 Hne.
  destruct (calc_water_to_residues_map_spec _ _ _ _ _ Hcalc) as (Hmap & _).
  destruct (proj2 (Hmap w p1)) as (S1 & E1 & Hp1); [eauto|].
  destruct (proj2 (Hmap w p2)) as (S2 & E2 & Hp2); [eauto|].
  rewrite E1 in E2. injection E2 as <-. eauto.
Qed.

Lemma stratify_water_bridge_combinations_example :
  calc_water_to_residues_map
    [ (7, "A:ASP:10:OD1:100", "W:TIP3:500:OH2:900", "hb");
      (7, "W:TIP3:500:OH2:900", "A:SER:12:OG:120", "hb") ] "TIP3"
  = Ok (7, {[ "W:TIP3:500:OH2:900" := {[ "A:ASP:10:OD1:100"; "A:SER:12:OG:120" ]} ]}, [])
  /\ exists wb,
    stratify_water_bridge
      [ (7, "A:ASP:10:OD1:100", "W:TIP3:500:OH2:900", "hb");
        (7, "W:TIP3:500:OH2:900", "A:SER:12:OG:120", "hb") ] "TIP3" = Ok wb
    /\ wb = [(7, "A:ASP:10:OD1:100", "W:TIP3:500:OH2:900", "A:SER:12:OG:120", "wb")].
Proof.
  assert (Hcalc : calc_water_to_residues_map
    [ (7, "A:ASP:10:OD1:100", "W:TIP3:500:OH2:900", "hb");
      (7, "W:TIP3:500:OH2:900", "A:SER:12:OG:120", "hb") ] "TIP3"
    = Ok (7, {[ "W:TIP3:500:OH2:900" := {[ "A:ASP:10:OD1:100"; "A:SER:12:OG:120" ]} ]}, [])).
  { vm_compute. reflexivity. }
  split; [exact Hcalc|].
  destruct (stratify_water_bridge_combinations _ _ _ _ _ Hcalc) as (wb & E & _).
  exists wb. split; [exact E|].
  vm_compute in E. injection E as <-. reflexivity.
Defined.

(** ** Extended water bridges *)

(** The set that the three nested loops of
    [stratify_extended_water_bridge] build. *)
Lemma elem_of_extended_water_bridges
    (frame_idx : Z) (m : gmap string (gset string))
    (solvent_bridges : list (string * string)) (r : row6) :
  r ∈ fold_left
        (fun (extended_water_bridges : gset row6) '(water1, water2) =>
           match m !! water1, m !! water2 with
           | Some res_atom1_list, Some res_atom2_list =>
               fold_left
                 (fun (acc : gset row6) atom1 =>
                    fold_left
                      (fun (acc : gset row6) atom2 =>
                         acc ∪ {[(frame_idx, atom1, water1, water2, atom2, "wb2")]})
                      (elements (res_atom2_list : gset string)) acc)
                 (elements (res_atom1_list : gset string)) extended_water_bridges
           | _, _ => extended_water_bridges
           end)
        solvent_bridges ∅
  <-> exists w1 w2 S1 S2 a1 a2,
        (w1, w2) ∈ solvent_bridges /\ m !! w1 = Some S1 /\ m !! w2 = Some S2
        /\ a1 ∈ S1 /\ a2 ∈ S2 /\ r = (frame_idx, a1, w1, w2, a2, "wb2").
Proof.
  rewrite (elem_of_fold_left_add _
    (fun (bridge : string * string) (y : row6) =>
       exists S1 S2 a1 a2,
         m !! bridge.1 = Some S1 /\ m !! bridge.2 = Some S2 /\ a1 ∈ S1 /\ a2 ∈ S2
         /\ y = (frame_idx, a1, bridge.1, bridge.2, a2, "wb2"))).
  - split.
    + intros [Hin | ([w1 w2] & Hin & S1 & S2 & a1 & a2 & H)]; [set_solver|].
      exists w1, w2, S1, S2, a1, a2. tauto.
    + intros (w1 & w2 & S1 & S2 & a1 & a2 & Hin & H). right.
      exists (w1, w2). split; [assumption|]. exists S1, S2, a1, a2. exact H.
  - intros acc [w1 w2] y. cbn [fst snd].
    destruct (m !! w1) as [S1|]; [destruct (m !! w2) as [S2|]|].
    + rewrite (elem_of_fold_left_add _
        (fun (atom1 : string) (y : row6) =>
           exists a2, a2 ∈ S2 /\ y = (frame_idx, atom1, w1, w2, a2, "wb2"))).
      * split.
        -- intros [? | (a1 & H1 & a2 & H2 & ->)]; [auto | right].
           apply elem_of_elements in H1. exists S1, S2, a1, a2. auto.
        -- intros [? | (S1' & S2' & a1 & a2 & [= <-] & [= <-] & H1 & H2 & ->)];
             [auto | right].
           exists a1. rewrite elem_of_elements. eauto.
      * intros acc1 atom1 y1.
        rewrite (elem_of_fold_left_add _
          (fun (atom2 : string) (y : row6) =>
             y = (frame_idx, atom1, w1, w2, atom2, "wb2"))).
        -- split.
           ++ intros [? | (a2 & H2 & ->)]; [auto | right].
              apply elem_of_elements in H2. eauto.
           ++ intros [? | (a2 & H2 & ->)]; [auto | right].
              exists a2. now rewrite elem_of_elements.
        -- intros acc2 atom2 y2. rewrite elem_of_union, elem_of_singleton. tauto.
    + split; [auto | intros [? | (S1' & S2' & a1 & a2 & _ & [=] & _)]; assumption].
    + split; [auto | intros [? | (S1' & S2' & a1 & a2 & [=] & _)]; assumption].
Qed.

(** C5: when the map helper returns, [stratify_extended_water_bridge]
    returns a sorted list without repetition whose rows are exactly
    the rows [(frame_idx, atom1, water1, water2, atom2, "wb2")] for a
    solvent bridge [(water1, water2)] of the helper with both waters
    keys of the map, [atom1] in the set of [water1] and [atom2] in the
    set of [water2].  A water that is not a key of the map, which is
    the case when no hbond joins it to a non-solvent atom, is on no
    row. *)
Theorem stratify_extended_water_bridge_product
    (water_hbonds : list row4) (solvent_resn : string)
    (frame_idx : Z) (m : gmap string (gset string)) (b : list (string * string)) :
  calc_water_to_residues_map water_hbonds solvent_resn = Ok (frame_idx, m, b) ->
  exists wb2,
    stratify_extended_water_bridge water_hbonds solvent_resn = Ok wb2
    /\ (forall r, r ∈ wb2 <->
          exists w1 w2 S1 S2 a1 a2,
            (w1, w2) ∈ b /\ m !! w1 = Some S1 /\ m !! w2 = Some S2
            /\ a1 ∈ S1 /\ a2 ∈ S2 /\ r = (frame_idx, a1, w1, w2, a2, "wb2"))
    /\ NoDup wb2
    /\ StronglySorted py_le wb2
    /\ (forall w r, m !! w = None -> r ∈ wb2 -> water1_of r <> w /\ water2_of r <> w)
    /\ (forall w r,
          (forall hb p, hb ∈ water_hbonds -> ~ bonds solvent_resn hb w p) ->
          r ∈ wb2 -> water1_of r <> w /\ water2_of r <> w).
Proof.
  intros Hcalc. unfold stratify_extended_water_bridge. rewrite Hcalc.
  eexists. split; [reflexivity|].
  set (extended_water_bridges := fold_left _ b ∅).
  assert (Hmem : forall r, r ∈ sorted (elements extended_water_bridges) <->
    exists w1 w2 S1 S2 a1 a2,
      (w1, w2) ∈ b /\ m !! w1 = Some S1 /\ m !! w2 = Some S2
      /\ a1 ∈ S1 /\ a2 ∈ S2 /\ r = (frame_idx, a1, w1, w2, a2, "wb2")).
  { intros r. rewrite elem_of_sorted, elem_of_elements.
    apply elem_of_extended_water_bridges. }
  assert (Hkey : forall w r, m !! w = None -> r ∈ sorted (elements extended_water_bridges) ->
    water1_of r <> w /\ water2_of r <> w).
  { intros w r Hw (w1 & w2 & S1 & S2 & a1 & a2 & _ & E1 & E2 & _ & _ & ->)%Hmem.
    unfold water1_of, water2_of; cbn [fst snd]. split; congruence. }
  split; [exact Hmem|]. split; [apply sorted_NoDup, NoDup_elements|].
  split; [apply sorted_StronglySorted|]. split; [exact Hkey|].
  intros w r Hnone. apply Hkey.
  destruct (calc_water_to_residues_map_spec _ _ _ _ _ Hcalc) as (Hmap & Hne & _).
  destruct (m !! w) as [S|] eqn:E; [exfalso | reflexivity].
  destruct (set_choose_L S (Hne w S E)) as [p Hp].
  destruct (proj1 (Hmap w p)) as (hb & Hin & Hb); [now exists S|].
  exact (Hnone hb p Hin Hb).
Qed.

Lemma stratify_extended_water_bridge_product_example :
  calc_water_to_residues_map wb2_example "TIP3"
  = Ok (7,
        {[ "W:TIP3:500:OH2:900" := {[ "A:ASP:10:OD1:100"; "A:SER:12:OG:120" ]};
           "W:TIP3:501:OH2:903" := {[ "B:LYS:44:NZ:300" ]} ]},
        [("W:TIP3:500:OH2:900", "W:TIP3:501:OH2:903")])
  /\ exists wb2,
    stratify_extended_water_bridge wb2_example "TIP3" = Ok wb2
    /\ wb2 = [ (7, "A:ASP:10:OD1:100", "W:TIP3:500:OH2:900", "W:TIP3:501:OH2:903",
                "B:LYS:44:NZ:300", "wb2");
               (7, "A:SER:12:OG:120", "W:TIP3:500:OH2:900", "W:TIP3:501:OH2:903",
                "B:LYS:44:NZ:300", "wb2") ].
Proof.
  assert (Hcalc : calc_water_to_residues_map wb2_example "TIP3"
    = Ok (7,
          {[ "W:TIP3:500:OH2:900" := {[ "A:ASP:10:OD1:100"; "A:SER:12:OG:120" ]};
             "W:TIP3:501:OH2:903" := {[ "B:LYS:44:NZ:300" ]} ]},
          [("W:TIP3:500:OH2:900", "W:TIP3:501:OH2:903")])).
  { vm_compute. reflexivity. }
  split; [exact Hcalc|].
  destruct (stratify_extended_water_bridge_product _ _ _ _ _ Hcalc) as (wb2 & E & _).
  exists wb2. split; [exact E|].
  vm_compute in E. injection E as <-. reflexivity.
Defined.

(** ** The pi-cation criterion *)

Lemma for_each_skip {A S} (body : S -> A -> result S) (P : A -> Prop)
    `{forall x, Decision (P x)} (l : list A) :
  (forall st x, ~ P x -> body st x = Ok st) ->
  forall st, for_each body l st = for_each body (filter P l) st.
Proof.
  intros Hskip. induction l as [|x l IH]; intros st; [reflexivity|].
  rewrite filter_cons. destruct (decide (P x)) as [HP | HP]; cbn [for_each].
  - destruct (body st x); cbn [mbind result_bind]; [apply IH | reflexivity].
  - rewrite Hskip by assumption. cbn [mbind result_bind]. apply IH.
Qed.

Section pi_cation_facts.
Context {F : Type} `{Arith F}.
Variable atom_coord : string -> vec3 F.


Lemma criterion_body_incomplete frame_idx key (S : gset string) pi_cations :
  size S <> 3%nat ->
  criterion_body atom_coord frame_idx pi_cations (key, S) = Ok pi_cations.
Proof.
  intros Hsize. unfold criterion_body. now rewrite bool_decide_true.
Qed.

Lemma sorted_elements_size3 (S : gset string) :
  size S = 3%nat ->
  exists a1 a2 a3, sorted (elements S) = [a1; a2; a3]
                   /\ py_lt a1 a2 /\ py_lt a2 a3 /\ a1 ∈ S /\ a2 ∈ S /\ a3 ∈ S.
Proof.
  intros Hsize.
  pose proof (sorted_Permutation (elements S)) as HP.
  pose proof (sorted_StronglySorted (elements S)) as Hs.
  pose proof (sorted_NoDup _ (NoDup_elements S)) as Hnd.
  assert (Hlen : length (sorted (elements S)) = 3%nat).
  { now rewrite HP. }
  destruct (sorted (elements S)) as [|a1 [|a2 [|a3 [|? ?]]]]; try discriminate.
  exists a1, a2, a3. split; [reflexivity|].
  apply StronglySorted_inv in Hs as [Hs H1]. apply StronglySorted_inv in Hs as [_ H2].
  apply Forall_cons in H1 as [H12 _]. apply Forall_cons in H2 as [H23 _].
  apply NoDup_cons in Hnd as [N1 Hnd]. apply NoDup_cons in Hnd as [N2 _].
  split; [apply py_le_lt; [assumption | intros ->; apply N1; left]|].
  split; [apply py_le_lt; [assumption | intros ->; apply N2; left]|].
  rewrite <- !elem_of_elements, <- !HP. repeat split; repeat constructor.
Qed.

(** The body on a group of three, as the source has it after the
    unpacking of the sorted labels. *)
Lemma criterion_body_complete frame_idx key (S : gset string) pi_cations a1 a2 a3 :
  size S = 3%nat -> sorted (elements S) = [a1; a2; a3] ->
  criterion_body atom_coord frame_idx pi_cations (key, S)
  = if f_gt (group_distance atom_coord key a1 a2 a3) DISTANCE_CUTOFF then Ok pi_cations
    else match group_angle atom_coord key a1 a2 a3 with
         | Raise e => Raise e
         | Ok angle =>
             if f_gt (fold_angle angle) ANGLE_CUTOFF then Ok pi_cations
             else Ok (pi_cations ++ group_rows frame_idx key a1 a2)
         end.
Proof.
  intros Hsize Hsorted. unfold criterion_body.
  rewrite bool_decide_false by (intros Hne; now apply Hne).
  rewrite Hsorted. cbv zeta.
  fold (group_cation key). fold (group_centroid atom_coord a1 a2 a3).
  fold (group_distance atom_coord key a1 a2 a3). fold (group_angle atom_coord key a1 a2 a3).
  destruct (f_gt (group_distance atom_coord key a1 a2 a3) DISTANCE_CUTOFF); [reflexivity|].
  destruct (group_angle atom_coord key a1 a2 a3); reflexivity.
Qed.


(** C8: a group whose set of aromatic labels does not have three
    elements leaves the list of records as it is and raises nothing:
    the loop over the groups gives the same result without it, and
    [compute_pi_cation] returns what the loop gives on the groups of
    three alone. *)
Theorem compute_pi_cation_skips_incomplete_group
    (frame_idx : Z) (key : string) (S : gset string) :
  size S <> 3%nat ->
  (forall pi_cations,
      criterion_body atom_coord frame_idx pi_cations (key, S) = Ok pi_cations)
  /\ (forall groups1 groups2 pi_cations,
        for_each (criterion_body atom_coord frame_idx)
                 (groups1 ++ (key, S) :: groups2) pi_cations
        = for_each (criterion_body atom_coord frame_idx) (groups1 ++ groups2) pi_cations)
  /\ (forall index_to_label contact_index_pairs,
        compute_pi_cation atom_coord frame_idx index_to_label contact_index_pairs
        = (grouping ← for_each (grouping_body index_to_label) contact_index_pairs ∅;
           for_each (criterion_body atom_coord frame_idx)
                    (filter (fun group => size group.2 = 3%nat) (map_to_list grouping)) [])).
Proof.
  intros Hsize. split; [|split].
  - intros pi_cations. now apply criterion_body_incomplete.
  - intros groups1 groups2 pi_cations. rewrite !for_each_app.
    destruct (for_each _ groups1 pi_cations) as [st|e]; cbn [mbind result_bind];
      [|reflexivity].
    cbn [for_each]. rewrite criterion_body_incomplete by assumption. reflexivity.
  - intros index_to_label contact_index_pairs. unfold compute_pi_cation.
    destruct (for_each _ contact_index_pairs ∅) as [grouping|e];
      cbn [mbind result_bind]; [|reflexivity].
    apply for_each_skip. intros st [k S'] Hne. now apply criterion_body_incomplete.
Qed.

(** What one group adds: nothing, or three rows with the frame index
    and the cation label of the group. *)
Lemma criterion_body_rows frame_idx pi_cations (group : string * gset string) out :
  criterion_body atom_coord frame_idx pi_cations group = Ok out ->
  out = pi_cations
  \/ exists a1 a2 a3, sorted (elements group.2) = [a1; a2; a3]
                      /\ out = pi_cations ++ group_rows frame_idx group.1 a1 a2.
Proof.
  destruct group as [key S]. cbn [fst snd].
  destruct (decide (size S = 3%nat)) as [Hsize | Hsize].
  - destruct (sorted_elements_size3 S Hsize) as (a1 & a2 & a3 & Hs & _).
    rewrite (criterion_body_complete frame_idx key S pi_cations a1 a2 a3 Hsize Hs).
    destruct (f_gt _ DISTANCE_CUTOFF); [intros [= <-]; now left|].
    destruct (group_angle atom_coord key a1 a2 a3) as [angle|e]; [|discriminate].
    destruct (f_gt _ ANGLE_CUTOFF); intros [= <-]; [now left | right; eauto].
  - rewrite criterion_body_incomplete by assumption. intros [= <-]. now left.
Qed.

(** The rows come in threes. *)
Lemma compute_pi_cation_rows_in_threes frame_idx index_to_label contact_index_pairs out :
  compute_pi_cation atom_coord frame_idx index_to_label contact_index_pairs = Ok out ->
  exists k, length out = (3 * k)%nat.
Proof.
  unfold compute_pi_cation.
  destruct (for_each _ contact_index_pairs ∅) as [grouping|e]; cbn [mbind result_bind];
    [|discriminate].
  assert (Hloop : forall groups acc out',
    for_each (criterion_body atom_coord frame_idx) groups acc = Ok out' ->
    exists k, length out' = (length acc + 3 * k)%nat).
  { induction groups as [|g groups IH]; intros acc out'; cbn [for_each].
    - intros [= <-]. exists 0%nat. lia.
    - destruct (criterion_body atom_coord frame_idx acc g) as [acc'|e] eqn:E;
        cbn [mbind result_bind]; [|discriminate].
      intros (k & Hk)%IH.
      apply criterion_body_rows in E as [-> | (a1 & a2 & a3 & _ & ->)].
      + now exists k.
      + exists (S k). rewrite Hk, length_app. cbn [group_rows length]. lia. }
  intros (k & Hk)%Hloop. exists k. exact Hk.
Qed.
End pi_cation_facts.

(** ** A lysine above a phenylalanine ring *)


Lemma ring_grouping :
  for_each (grouping_body ring_labels) ring_contacts ∅ = Ok {[ ring_key := ring_group ]}.
Proof. vm_compute. reflexivity. Qed.

Lemma ring_sorted :
  sorted (elements ring_group) = ["B:PHE:20:CE1:51"; "B:PHE:20:CE2:52"; "B:PHE:20:CG:50"].
Proof. vm_compute. reflexivity. Qed.

Lemma ring_size : size ring_group = 3%nat.
Proof. vm_compute. reflexivity. Qed.

Lemma ring_criterion (math_acos : float -> result float) (pi_cations : list row4) :
  math_acos (-1)%float = Ok float_pi ->
  criterion_body (H := float_arith math_acos) ring_coord 7 pi_cations (ring_key, ring_group)
  = Ok (pi_cations ++ [ (7, "A:LYS:10:NZ:5", "B:PHE:20:CE1:51", "pc");
                        (7, "A:LYS:10:NZ:5", "B:PHE:20:CE2:52", "pc");
                        (7, "A:LYS:10:NZ:5", "B:PHE:20:CE2:52", "pc") ]).
Proof.
  intros Hacos.
  rewrite (criterion_body_complete (H := float_arith math_acos) ring_coord 7 ring_key
             ring_group pi_cations _ _ _ ring_size ring_sorted).
  replace (f_gt _ DISTANCE_CUTOFF) with false by (vm_compute; reflexivity).
  unfold group_angle, calc_angle_between_vectors.
  replace (f_div _ _) with (-1)%float by (vm_compute; reflexivity).
  cbn [f_acos float_arith]. rewrite Hacos. cbn [mbind result_bind].
  replace (f_gt _ ANGLE_CUTOFF) with false by (vm_compute; reflexivity).
  reflexivity.
Qed.

(** C1, as the code has it: for a lysine nitrogen two Angstrom above the
    centroid of the three ring atoms of a phenylalanine the group is
    accepted and three rows are emitted with the same frame index and
    cation label, but the second and the third row both name the
    second label of the sorted triplet, and the third label,
    [B:PHE:20:CG:50], is on no row. *)
Theorem compute_pi_cation_repeats_second_atom (math_acos : float -> result float) :
  math_acos (-1)%float = Ok float_pi ->
  compute_pi_cation (H := float_arith math_acos) ring_coord 7 ring_labels ring_contacts
  = Ok [ (7, "A:LYS:10:NZ:5", "B:PHE:20:CE1:51", "pc");
         (7, "A:LYS:10:NZ:5", "B:PHE:20:CE2:52", "pc");
         (7, "A:LYS:10:NZ:5", "B:PHE:20:CE2:52", "pc") ]
  /\ sorted (elements ring_group)
     = ["B:PHE:20:CE1:51"; "B:PHE:20:CE2:52"; "B:PHE:20:CG:50"].
Proof.
  intros Hacos. split; [|exact ring_sorted].
  unfold compute_pi_cation. rewrite ring_grouping. cbn [mbind result_bind].
  rewrite map_to_list_singleton. cbn [for_each].
  rewrite (ring_criterion math_acos [] Hacos). reflexivity.
Qed.

Lemma compute_pi_cation_repeats_second_atom_example :
  acos_table (-1)%float = Ok float_pi
  /\ compute_pi_cation (H := float_arith acos_table) ring_coord 7 ring_labels ring_contacts
     = Ok [ (7, "A:LYS:10:NZ:5", "B:PHE:20:CE1:51", "pc");
            (7, "A:LYS:10:NZ:5", "B:PHE:20:CE2:52", "pc");
            (7, "A:LYS:10:NZ:5", "B:PHE:20:CE2:52", "pc") ].
Proof.
  split; [reflexivity|].
  apply (compute_pi_cation_repeats_second_atom acos_table). reflexivity.
Defined.

(** A group with two of the three ring atoms. *)
Lemma compute_pi_cation_skips_incomplete_group_example :
  size ({[ "B:PHE:20:CG:50"; "B:PHE:20:CE1:51" ]} : gset string) <> 3%nat
  /\ compute_pi_cation (H := float_arith acos_table) ring_coord 7 ring_labels
       [(5, 50); (5, 51)] = Ok [].
Proof.
  assert (Hsize : size ({[ "B:PHE:20:CG:50"; "B:PHE:20:CE1:51" ]} : gset string) <> 3%nat).
  { vm_compute. discriminate. }
  split; [exact Hsize|].
  unfold compute_pi_cation.
  replace (for_each (grouping_body ring_labels) [(5, 50); (5, 51)] ∅)
    with (Ok ({[ ring_key := {[ "B:PHE:20:CG:50"; "B:PHE:20:CE1:51" ]} ]}
              : gmap string (gset string)))
    by (vm_compute; reflexivity).
  cbn [mbind result_bind]. rewrite map_to_list_singleton. cbn [for_each].
  rewrite (proj1 (compute_pi_cation_skips_incomplete_group
                    (H := float_arith acos_table) ring_coord 7 ring_key _ Hsize)).
  reflexivity.
Defined.

(** ** IEEE arithmetic: signs *)

(** Rounding to nearest even does not look at the sign: the sign of a
    result is put on after rounding.  So negating an operand of a
    product or quotient negates the result, and negating both operands
    of a sum negates the result unless it is zero. *)
Section spec_float_signs.
Variables prec emax : Z.

Lemma SFopp_involutive (x : spec_float) : SFopp (SFopp x) = x.
Proof. destruct x as [s|s| |s m e]; cbn [SFopp]; now rewrite ?negb_involutive. Qed.

Lemma binary_round_aux_opp (s : bool) (m e : Z) (l : location) :
  binary_round_aux prec emax (negb s) m e l = SFopp (binary_round_aux prec emax s m e l).
Proof.
  unfold binary_round_aux.
  destruct (shr_fexp prec emax m e l) as [mrs' e'].
  destruct (shr_fexp prec emax _ e' loc_Exact) as [mrs'' e''].
  destruct (shr_m mrs''); [reflexivity | | reflexivity].
  destruct (Z.leb e'' (emax - prec)); reflexivity.
Qed.

Lemma binary_round_opp (s : bool) (m : positive) (e : Z) :
  binary_round prec emax (negb s) m e = SFopp (binary_round prec emax s m e).
Proof.
  unfold binary_round. destruct (shl_align m e _) as [mz ez]. apply binary_round_aux_opp.
Qed.

Lemma binary_normalize_opp (m e : Z) :
  SFnegated (binary_normalize prec emax m e false) (binary_normalize prec emax (- m) e false).
Proof.
  destruct m as [|p|p]; cbn [binary_normalize Z.opp].
  - right. split; now exists false.
  - left. apply (binary_round_opp false).
  - left. apply (binary_round_opp true).
Qed.

Lemma SFmul_opp_l (x y : spec_float) :
  SFmul prec emax (SFopp x) y = SFopp (SFmul prec emax x y).
Proof.
  destruct x as [sx|sx| |sx mx ex], y as [sy|sy| |sy my ey]; cbn [SFmul SFopp];
    rewrite <- ?negb_xorb_l; try reflexivity.
  apply binary_round_aux_opp.
Qed.

Lemma SFmul_opp_r (x y : spec_float) :
  SFmul prec emax x (SFopp y) = SFopp (SFmul prec emax x y).
Proof.
  destruct x as [sx|sx| |sx mx ex], y as [sy|sy| |sy my ey]; cbn [SFmul SFopp];
    rewrite <- ?negb_xorb_r; try reflexivity.
  apply binary_round_aux_opp.
Qed.








Lemma SFmul_square_negated (x x' : spec_float) :
  SFnegated x x' -> SFmul prec emax x' x' = SFmul prec emax x x.
Proof.
  intros [-> | [[s ->] [s' ->]]].
  - now rewrite SFmul_opp_l, SFmul_opp_r, SFopp_involutive.
  - now destruct s, s'.
Qed.

(** [y - x] is the negation of [x - y], or both are zero. *)
Lemma SFsub_swap (x y : spec_float) :
  SFnegated (SFsub prec emax x y) (SFsub prec emax y x).
Proof.
  destruct x as [sx|sx| |sx mx ex], y as [sy|sy| |sy my ey]; cbn [SFsub SFopp];
    try (left; reflexivity);
    try (destruct sx, sy; cbn [negb SFopp];
         first [left; reflexivity | right; split; eexists; reflexivity]).
  rewrite (Z.min_comm ey ex).
  replace (cond_Zopp sy (Z.pos (fst (shl_align my ey (Z.min ex ey))))
           - cond_Zopp sx (Z.pos (fst (shl_align mx ex (Z.min ex ey)))))
    with (- (cond_Zopp sx (Z.pos (fst (shl_align mx ex (Z.min ex ey))))
             - cond_Zopp sy (Z.pos (fst (shl_align my ey (Z.min ex ey)))))) by lia.
  apply binary_normalize_opp.
Qed.

Lemma binary_round_aux_not_negative (m e : Z) (l : location) :
  SFltb (binary_round_aux prec emax false m e l) (S754_zero false) = false.
Proof.
  unfold binary_round_aux.
  destruct (shr_fexp prec emax m e l) as [mrs' e'].
  destruct (shr_fexp prec emax _ e' loc_Exact) as [mrs'' e''].
  destruct (shr_m mrs''); [reflexivity | | reflexivity].
  destruct (Z.leb e'' (emax - prec)); reflexivity.
Qed.

Lemma SFsqrt_not_negative (x : spec_float) :
  SFltb (SFsqrt prec emax x) (S754_zero false) = false.
Proof.
  destruct x as [s|s| |s m e]; cbn [SFsqrt]; try reflexivity; try (destruct s; reflexivity).
  destruct s; [reflexivity|].
  destruct (SFsqrt_core_binary prec emax (Z.pos m) e) as [[mz ez] lz].
  apply binary_round_aux_not_negative.
Qed.

End spec_float_signs.





Lemma float_negated_sub_swap (x y : float) : float_negated (x - y)%float (y - x)%float.
Proof. unfold float_negated. rewrite !FloatAxioms.sub_spec. apply SFsub_swap. Qed.

Lemma float_square_negated (x x' : float) :
  float_negated x x' -> (x' * x')%float = (x * x)%float.
Proof.
  intros Hn. apply Prim2SF_inj. rewrite !FloatAxioms.mul_spec. now apply SFmul_square_negated.
Qed.



Lemma float_sqrt_not_negative (x : float) : (PrimFloat.sqrt x <? 0)%float = false.
Proof. rewrite FloatAxioms.ltb_spec, FloatAxioms.sqrt_spec. apply SFsqrt_not_negative. Qed.

(** ** The code's geometry, written out *)

Section float_geometry.
Variable math_acos : float -> result float.










(** *** Reversing the normal *)






(** On doubles the distance is the same in both directions. *)
Lemma spec_distance_swap (p q : vec3 float) : spec_distance q p = spec_distance p q.
Proof.
  unfold spec_distance, spec_length, spec_dot, spec_sub. cbn [vx vy vz].
  now rewrite (float_square_negated _ _ (float_negated_sub_swap (vx p) (vx q))),
    (float_square_negated _ _ (float_negated_sub_swap (vy p) (vy q))),
    (float_square_negated _ _ (float_negated_sub_swap (vz p) (vz q))).
Qed.
End float_geometry.





(** * Further properties of the code *)

(** ** Splitting and joining *)

Lemma nth_error_lookup {A} (l : list A) (i : nat) : nth_error l i = l !! i.
Proof. revert i. induction l as [|x l IH]; intros [|i]; simpl; auto. Qed.

Lemma getitem_lookup {A} (l : list A) (i : nat) (x : A) :
  l !! i = Some x -> getitem l i = Ok x.
Proof. intros E. unfold getitem. now rewrite nth_error_lookup, E. Qed.

Lemma getitem_out_of_range {A} (l : list A) (i : nat) :
  (length l <= i)%nat -> getitem l i = Raise IndexError.
Proof.
  intros Hle. unfold getitem. rewrite nth_error_lookup.
  now rewrite (proj2 (lookup_ge_None l i) Hle).
Qed.

Lemma split_free (c : ascii) (s : string) : has_char c s = false -> split c s = [s].
Proof.
  induction s as [|a s IH]; simpl; [reflexivity|].
  intros [Ha Hs]%orb_false_elim. rewrite Ha, (IH Hs). reflexivity.
Qed.

Lemma split_app_sep (c : ascii) (s1 s2 : string) :
  split c (s1 +:+ String c s2) = split c s1 ++ split c s2.
Proof.
  induction s1 as [|a s1 IH].
  - rewrite append_Empty. simpl. now rewrite Ascii.eqb_refl.
  - rewrite append_String. simpl. destruct (Ascii.eqb a c).
    + now rewrite IH.
    + rewrite IH. destruct (split c s1) as [|h t] eqn:E; [now apply split_nonempty in E|].
      reflexivity.
Qed.

Lemma join_cons (sep x : string) (y : string) (l : list string) :
  join sep (x :: y :: l) = x +:+ sep +:+ join sep (y :: l).
Proof. reflexivity. Qed.

Lemma join_split (c : ascii) (s : string) :
  join (String c EmptyString) (split c s) = s.
Proof.
  induction s as [|a s IH]; simpl; [reflexivity|].
  destruct (split c s) as [|h t] eqn:E; [now apply split_nonempty in E|].
  destruct (Ascii.eqb_spec a c) as [-> | Hne].
  - rewrite join_cons, IH. reflexivity.
  - destruct t as [|h' t].
    + unfold join in *. simpl in *. now rewrite IH.
    + rewrite join_cons. rewrite join_cons in IH. rewrite append_String. now rewrite IH.
Qed.

Lemma split_join (c : ascii) (xs : list string) :
  xs <> [] -> Forall (fun x => has_char c x = false) xs ->
  split c (join (String c EmptyString) xs) = xs.
Proof.
  intros Hne Hfree. induction Hfree as [|x xs Hx Hxs IH]; [congruence|].
  destruct xs as [|y xs].
  - unfold join. simpl. now apply split_free.
  - rewrite join_cons. change (String c EmptyString +:+ ?s) with (String c s).
    rewrite split_app_sep, IH by discriminate. now rewrite (split_free c x Hx).
Qed.

Lemma split_length_app_sep (c : ascii) (s1 s2 : string) :
  length (split c (s1 +:+ String c s2)) = (length (split c s1) + length (split c s2))%nat.
Proof. now rewrite split_app_sep, length_app. Qed.

Lemma split_length_pos (c : ascii) (s : string) : (1 <= length (split c s))%nat.
Proof.
  destruct (split c s) eqn:E; [now apply split_nonempty in E | simpl; lia].
Qed.

Lemma format_label_join (chain resname resid name index : string) :
  format_label chain resname resid name index
  = join ":" [chain; resname; resid; name; index].
Proof. reflexivity. Qed.

Lemma last_field_app (c : ascii) (s1 s2 : string) :
  last_field (split c (s1 +:+ String c s2)) = last_field (split c s2).
Proof.
  rewrite split_app_sep. unfold last_field.
  destruct (split c s2) as [|h t] eqn:E; [now apply split_nonempty in E|].
  induction (split c s1) as [|x l IH]; [reflexivity|].
  simpl. destruct (l ++ h :: t) eqn:E'; [now destruct l | exact IH].
Qed.

(** ** Atom labels *)

(** X1: a label formatted from five colon-free fields splits back into
    these fields, so the consumers of labels read the resname as field
    1, the resid as field 2, the atom name as field 3 and the index as
    the last field, and [get_coord] queries the coordinates of that
    index. *)
Theorem format_label_round_trip {F : Type} (atom_coord : string -> vec3 F)
    (chain resname resid name index : string) :
  has_char colon chain = false -> has_char colon resname = false ->
  has_char colon resid = false -> has_char colon name = false ->
  has_char colon index = false ->
  split colon (format_label chain resname resid name index)
  = [chain; resname; resid; name; index]
  /\ field 1 (format_label chain resname resid name index) = Some resname
  /\ field 2 (format_label chain resname resid name index) = Some resid
  /\ field 3 (format_label chain resname resid name index) = Some name
  /\ get_coord atom_coord (format_label chain resname resid name index) = atom_coord index.
Proof.
  intros H1 H2 H3 H4 H5.
  assert (E : split colon (format_label chain resname resid name index)
              = [chain; resname; resid; name; index]).
  { rewrite format_label_join. apply split_join; [discriminate|].
    repeat constructor; assumption. }
  unfold field, get_coord. rewrite E. repeat split; reflexivity.
Qed.

Lemma format_label_round_trip_example :
  has_char colon "A" = false /\ has_char colon "PHE" = false
  /\ has_char colon "72" = false /\ has_char colon "CG" = false
  /\ has_char colon "51049" = false
  /\ split colon (format_label "A" "PHE" "72" "CG" "51049") = ["A"; "PHE"; "72"; "CG"; "51049"].
Proof.
  repeat (split; [reflexivity|]).
  apply (format_label_round_trip (fun _ => Vec3 0 0 0) "A" "PHE" "72" "CG" "51049");
    reflexivity.
Defined.

Lemma colon_append (s : string) : ":" +:+ s = String colon s.
Proof. reflexivity. Qed.

(** Whatever the fields hold, a formatted label has at least five
    fields, hence an atom-name field. *)
Lemma format_label_has_atom_name (chain resname resid name index : string) :
  has_atom_name (format_label chain resname resid name index).
Proof.
  unfold has_atom_name, field. rewrite nth_error_lookup. apply lookup_lt_is_Some.
  unfold format_label. rewrite !colon_append, !split_length_app_sep.
  pose proof (split_length_pos colon chain). pose proof (split_length_pos colon resname).
  pose proof (split_length_pos colon resid). pose proof (split_length_pos colon name).
  pose proof (split_length_pos colon index). lia.
Qed.

(** X2: the key of a pi-cation group is the cation label followed by
    the characters of the resid; when the cation label has exactly
    five fields, the first five fields of the key joined by colons are
    the cation label again. *)
Theorem group_cation_round_trip (cation_label resid : string) :
  length (split colon cation_label) = 5%nat ->
  group_cation (cation_label +:+ ":" +:+ join ":" (chars resid)) = cation_label.
Proof.
  intros Hlen. unfold group_cation. rewrite colon_append.
  rewrite split_app_sep, take_app_length' by now symmetry.
  apply (join_split colon).
Qed.

Lemma group_cation_round_trip_example :
  length (split colon "A:LYS:10:NZ:5") = 5%nat
  /\ group_cation ("A:LYS:10:NZ:5" +:+ ":" +:+ join ":" (chars "20")) = "A:LYS:10:NZ:5".
Proof.
  split; [reflexivity|]. apply (group_cation_round_trip "A:LYS:10:NZ:5" "20"). reflexivity.
Defined.

(** ** Labels of a selection *)

(** A loop invariant: what holds of the state with no element seen, and
    is kept by every iteration that returns, holds when the loop
    returns. *)
Lemma for_each_invariant {A S} (body : S -> A -> result S) (I : list A -> S -> Prop)
    (l : list A) (st st' : S) :
  I [] st ->
  (forall seen x s s', I seen s -> x ∈ l -> body s x = Ok s' -> I (seen ++ [x]) s') ->
  for_each body l st = Ok st' ->
  I l st'.
Proof.
  intros Hinit Hstep.
  assert (Hgen : forall k seen s, I seen s -> (forall x, x ∈ k -> x ∈ l) ->
                   for_each body k s = Ok st' -> I (seen ++ k) st').
  { induction k as [|x k IH]; intros seen s Hs Hsub; cbn [for_each].
    - intros [= <-]. now rewrite app_nil_r.
    - destruct (body s x) as [s1|e] eqn:E; cbn [mbind result_bind]; [|discriminate].
      intros Hk. replace (seen ++ x :: k) with ((seen ++ [x]) ++ k)
        by now rewrite <- app_assoc.
      apply (IH (seen ++ [x]) s1); [|intros y Hy; apply Hsub; now right | exact Hk].
      eapply Hstep; eauto. apply Hsub. left. }
  intros Hl. apply (Hgen l [] st Hinit (fun x Hx => Hx) Hl).
Qed.

Lemma labels_of_drop (chains resnames resids names indices : list string) (k : nat)
    chain resname resid name index :
  chains !! k = Some chain -> resnames !! k = Some resname -> resids !! k = Some resid ->
  names !! k = Some name -> indices !! k = Some index ->
  labels_of (drop k chains) (drop k resnames) (drop k resids) (drop k names) (drop k indices)
  = format_label chain resname resid name index
      :: labels_of (drop (S k) chains) (drop (S k) resnames) (drop (S k) resids)
                   (drop (S k) names) (drop (S k) indices).
Proof.
  intros E1 E2 E3 E4 E5.
  now rewrite (drop_S _ _ _ E1), (drop_S _ _ _ E2), (drop_S _ _ _ E3), (drop_S _ _ _ E4),
    (drop_S _ _ _ E5).
Qed.

Lemma get_atom_selection_labels_body_ok
    (chains resnames resids names indices : list string) (k : nat) (acc : list string)
    chain resname resid name index :
  chains !! k = Some chain -> resnames !! k = Some resname -> resids !! k = Some resid ->
  names !! k = Some name -> indices !! k = Some index ->
  get_atom_selection_labels_body (chains, resnames, resids, names, indices) acc k
  = Ok (acc ++ [format_label chain resname resid name index]).
Proof.
  intros E1 E2 E3 E4 E5. unfold get_atom_selection_labels_body.
  now rewrite (getitem_lookup _ _ _ E1), (getitem_lookup _ _ _ E2), (getitem_lookup _ _ _ E3),
    (getitem_lookup _ _ _ E4), (getitem_lookup _ _ _ E5).
Qed.

Lemma get_atom_selection_labels_body_short
    (chains resnames resids names indices : list string) (k : nat) (acc : list string) :
  (k < length chains)%nat ->
  (shortest resnames resids names indices <= k)%nat ->
  get_atom_selection_labels_body (chains, resnames, resids, names, indices) acc k
  = Raise IndexError.
Proof.
  intros Hk Hshort. unfold shortest in Hshort. unfold get_atom_selection_labels_body.
  destruct (lookup_lt_is_Some_2 chains k Hk) as [c Ec].
  rewrite (getitem_lookup _ _ _ Ec). cbn [mbind result_bind].
  destruct (resnames !! k) as [rn|] eqn:Ern.
  2: { apply lookup_ge_None in Ern. now rewrite (getitem_out_of_range resnames). }
  rewrite (getitem_lookup _ _ _ Ern). cbn [mbind result_bind].
  destruct (resids !! k) as [ri|] eqn:Eri.
  2: { apply lookup_ge_None in Eri. now rewrite (getitem_out_of_range resids). }
  rewrite (getitem_lookup _ _ _ Eri). cbn [mbind result_bind].
  destruct (names !! k) as [n|] eqn:En.
  2: { apply lookup_ge_None in En. now rewrite (getitem_out_of_range names). }
  rewrite (getitem_lookup _ _ _ En). cbn [mbind result_bind].
  destruct (indices !! k) as [ix|] eqn:Eix.
  2: { apply lookup_ge_None in Eix. now rewrite (getitem_out_of_range indices). }
  apply lookup_lt_Some in Ern, Eri, En, Eix. lia.
Qed.

(** The loop of [get_atom_selection_labels] from index [k] on, when
    none of the four other lists is shorter than [chains]. *)
Lemma get_atom_selection_labels_loop
    (chains resnames resids names indices : list string) (m k : nat) (acc : list string) :
  (k + m = length chains)%nat ->
  (length chains <= length resnames)%nat -> (length chains <= length resids)%nat ->
  (length chains <= length names)%nat -> (length chains <= length indices)%nat ->
  for_each (get_atom_selection_labels_body (chains, resnames, resids, names, indices))
           (seq k m) acc
  = Ok (acc ++ labels_of (drop k chains) (drop k resnames) (drop k resids)
                         (drop k names) (drop k indices)).
Proof.
  revert k acc. induction m as [|m IH]; intros k acc Hk H1 H2 H3 H4; cbn [seq for_each].
  - rewrite (drop_ge chains) by lia. cbn [labels_of]. now rewrite app_nil_r.
  - destruct (lookup_lt_is_Some_2 chains k) as [c Ec]; [lia|].
    destruct (lookup_lt_is_Some_2 resnames k) as [rn Ern]; [lia|].
    destruct (lookup_lt_is_Some_2 resids k) as [ri Eri]; [lia|].
    destruct (lookup_lt_is_Some_2 names k) as [n En]; [lia|].
    destruct (lookup_lt_is_Some_2 indices k) as [ix Eix]; [lia|].
    rewrite (get_atom_selection_labels_body_ok _ _ _ _ _ k acc c rn ri n ix) by assumption.
    cbn [mbind result_bind]. rewrite IH by lia.
    rewrite (labels_of_drop _ _ _ _ _ k c rn ri n ix) by assumption.
    now rewrite <- app_assoc.
Qed.

(** The same loop when one of the four other lists ends at index [k]
    or later, before [chains] does. *)
Lemma get_atom_selection_labels_loop_short
    (chains resnames resids names indices : list string) (m k : nat) (acc : list string) :
  (k + m = length chains)%nat ->
  (k <= shortest resnames resids names indices)%nat ->
  (shortest resnames resids names indices < length chains)%nat ->
  for_each (get_atom_selection_labels_body (chains, resnames, resids, names, indices))
           (seq k m) acc
  = Raise IndexError.
Proof.
  revert k acc.
  induction m as [|m IH]; intros k acc Hk Hle Hlt; [lia|]. cbn [seq for_each].
  destruct (decide (k = shortest resnames resids names indices)) as [E | Hne].
  - rewrite get_atom_selection_labels_body_short; [reflexivity | lia | lia].
  - destruct (lookup_lt_is_Some_2 chains k) as [c Ec]; [lia|].
    destruct (lookup_lt_is_Some_2 resnames k) as [rn Ern]; [unfold shortest in *; lia|].
    destruct (lookup_lt_is_Some_2 resids k) as [ri Eri]; [unfold shortest in *; lia|].
    destruct (lookup_lt_is_Some_2 names k) as [n En]; [unfold shortest in *; lia|].
    destruct (lookup_lt_is_Some_2 indices k) as [ix Eix]; [unfold shortest in *; lia|].
    rewrite (get_atom_selection_labels_body_ok _ _ _ _ _ k acc c rn ri n ix) by assumption.
    cbn [mbind result_bind]. apply IH; lia.
Qed.

Lemma split_selection_of (chains resnames resids names indices : list string) :
  chains <> [] -> resnames <> [] -> resids <> [] -> names <> [] -> indices <> [] ->
  Forall (fun x => has_char space x = false)
         (chains ++ resnames ++ resids ++ names ++ indices) ->
  get_atom_selection_properties (selection_of chains resnames resids names indices)
  = (chains, resnames, resids, names, indices).
Proof.
  intros N1 N2 N3 N4 N5 Hfree.
  apply Forall_app in Hfree as [F1 Hfree]. apply Forall_app in Hfree as [F2 Hfree].
  apply Forall_app in Hfree as [F3 Hfree]. apply Forall_app in Hfree as [F4 F5].
  unfold get_atom_selection_properties, selection_of.
  cbn [sel_chain sel_resname sel_resid sel_name sel_index].
  now rewrite !(split_join space) by assumption.
Qed.

(** X3: for a selection whose five queries print lists of space-free
    words, [get_atom_selection_labels] returns one label per chain
    entry, formatted from the entries at the same position, when the
    four other lists are as long as the chain list (entries past its
    length are ignored), and raises [IndexError] when one of them is
    shorter.  An empty word is a word: the selection without atoms,
    whose queries print the empty string, gives the one label
    [::::]. *)
Theorem get_atom_selection_labels_of
    (chains resnames resids names indices : list string) :
  chains <> [] -> resnames <> [] -> resids <> [] -> names <> [] -> indices <> [] ->
  Forall (fun x => has_char space x = false)
         (chains ++ resnames ++ resids ++ names ++ indices) ->
  ((length chains <= shortest resnames resids names indices)%nat ->
   get_atom_selection_labels (selection_of chains resnames resids names indices)
   = Ok (labels_of chains resnames resids names indices))
  /\ ((shortest resnames resids names indices < length chains)%nat ->
      get_atom_selection_labels (selection_of chains resnames resids names indices)
      = Raise IndexError)
  /\ get_atom_selection_labels empty_selection = Ok ["::::"].
Proof.
  intros N1 N2 N3 N4 N5 Hfree.
  unfold get_atom_selection_labels.
  rewrite split_selection_of by assumption. cbn [fst].
  split; [|split].
  - intros Hle. rewrite (get_atom_selection_labels_loop _ _ _ _ _ (length chains) 0 [])
      by (unfold shortest in Hle; lia).
    reflexivity.
  - intros Hlt. apply get_atom_selection_labels_loop_short; [lia | lia | exact Hlt].
  - reflexivity.
Qed.

Lemma get_atom_selection_labels_of_example :
  get_atom_selection_labels
    (selection_of ["A"; "B"] ["LYS"; "ARG"] ["1"; "2"] ["NZ"; "NH1"] ["10"; "20"])
  = Ok ["A:LYS:1:NZ:10"; "B:ARG:2:NH1:20"]
  /\ get_atom_selection_labels
       (selection_of ["A"; "B"] ["LYS"; "ARG"] ["1"] ["NZ"; "NH1"] ["10"; "20"])
     = Raise IndexError.
Proof.
  split.
  - apply (get_atom_selection_labels_of
             ["A"; "B"] ["LYS"; "ARG"] ["1"; "2"] ["NZ"; "NH1"] ["10"; "20"]);
      try discriminate; [repeat constructor | vm_compute; lia].
  - apply (get_atom_selection_labels_of
             ["A"; "B"] ["LYS"; "ARG"] ["1"] ["NZ"; "NH1"] ["10"; "20"]);
      try discriminate; [repeat constructor | vm_compute; lia].
Defined.

(** X4: [get_atom_selection_labels] never returns the empty list:
    splitting a query result gives at least one word, so there is at
    least one iteration, and every label it returns has an atom-name
    field. *)
Theorem get_atom_selection_labels_nonempty (sel : selection) (atom_labels : list string) :
  get_atom_selection_labels sel = Ok atom_labels ->
  atom_labels <> []
  /\ length atom_labels = length (split space (sel_chain sel))
  /\ Forall has_atom_name atom_labels.
Proof.
  unfold get_atom_selection_labels. set (props := get_atom_selection_properties sel).
  intros Hloop.
  assert (Hinv : length atom_labels = length (seq 0 (length props.1.1.1.1))
                 /\ Forall has_atom_name atom_labels).
  { revert Hloop.
    apply (for_each_invariant _
      (fun seen labels => length labels = length seen /\ Forall has_atom_name labels)).
    - split; [reflexivity | constructor].
    - intros seen idx labels labels' [Hlen Hall] _.
      unfold get_atom_selection_labels_body.
      destruct props as [[[[chains resnames] resids] names] indices].
      destruct (getitem chains idx); cbn [mbind result_bind]; [|discriminate].
      destruct (getitem resnames idx); cbn [mbind result_bind]; [|discriminate].
      destruct (getitem resids idx); cbn [mbind result_bind]; [|discriminate].
      destruct (getitem names idx); cbn [mbind result_bind]; [|discriminate].
      destruct (getitem indices idx); cbn [mbind result_bind]; [|discriminate].
      intros [= <-]. split; [rewrite !length_app; simpl; lia|].
      apply Forall_app. split; [assumption|].
      repeat constructor. apply format_label_has_atom_name. }
  destruct Hinv as [Hlen Hall]. rewrite length_seq in Hlen.
  change (props.1.1.1.1) with (split space (sel_chain sel)) in Hlen.
  pose proof (split_length_pos space (sel_chain sel)).
  split; [|split; assumption].
  intros ->. simpl in Hlen. lia.
Qed.

Lemma get_atom_selection_labels_nonempty_example :
  get_atom_selection_labels empty_selection = Ok ["::::"] /\ ["::::"] <> [].
Proof.
  split; [reflexivity|].
  apply (get_atom_selection_labels_nonempty empty_selection ["::::"]). reflexivity.
Defined.

(** ** The index-to-label map *)

Lemma elem_of_enumerate {A} (l : list A) (i : nat) (x : A) :
  (i, x) ∈ zip (seq 0 (length l)) l <-> l !! i = Some x.
Proof.
  rewrite list_elem_of_lookup. split.
  - intros (j & Hj). apply lookup_zip_with_Some in Hj as (i' & x' & [= -> ->] & Hi & Hx).
    apply lookup_seq in Hi as [-> _]. exact Hx.
  - intros Hx. exists i. apply lookup_zip_with_Some. exists i, x.
    split; [reflexivity|]. split; [|exact Hx].
    apply lookup_seq. split; [reflexivity|]. now apply lookup_lt_Some in Hx.
Qed.

Section index_to_label.
Variable py_int : string -> result Z.

(** X5: when [gen_index_to_atom_label] returns, every entry of the map
    is the label of one atom of the selection, formatted from the
    properties at one position, under the integer that its index text
    denotes; every label has an atom-name field; and every index text
    of the selection was read as an integer and is a key of the map. *)
Theorem gen_index_to_atom_label_entries (all_atoms : selection)
    (index_to_label : gmap Z string) :
  gen_index_to_atom_label py_int all_atoms = Ok index_to_label ->
  (forall key label, index_to_label !! key = Some label ->
     has_atom_name label
     /\ exists idx chain resname resid name index,
          split space (sel_chain all_atoms) !! idx = Some chain
          /\ split space (sel_resname all_atoms) !! idx = Some resname
          /\ split space (sel_resid all_atoms) !! idx = Some resid
          /\ split space (sel_name all_atoms) !! idx = Some name
          /\ split space (sel_index all_atoms) !! idx = Some index
          /\ py_int index = Ok key
          /\ label = format_label chain resname resid name index)
  /\ (forall idx index, split space (sel_index all_atoms) !! idx = Some index ->
        exists key, py_int index = Ok key /\ is_Some (index_to_label !! key)).
Proof.
  unfold gen_index_to_atom_label, get_atom_selection_properties. cbn [snd].
  set (chains := split space (sel_chain all_atoms)).
  set (resnames := split space (sel_resname all_atoms)).
  set (resids := split space (sel_resid all_atoms)).
  set (names := split space (sel_name all_atoms)).
  set (indices := split space (sel_index all_atoms)).
  intros Hloop.
  assert (Hinv :
    (forall key label, index_to_label !! key = Some label ->
       has_atom_name label
       /\ exists idx chain resname resid name index,
            chains !! idx = Some chain /\ resnames !! idx = Some resname
            /\ resids !! idx = Some resid /\ names !! idx = Some name
            /\ indices !! idx = Some index /\ py_int index = Ok key
            /\ label = format_label chain resname resid name index)
    /\ (forall item, item ∈ zip (seq 0 (length indices)) indices ->
          exists key, py_int item.2 = Ok key /\ is_Some (index_to_label !! key))).
  { revert Hloop.
    apply (for_each_invariant _
      (fun seen (m : gmap Z string) =>
         (forall key label, m !! key = Some label ->
            has_atom_name label
            /\ exists idx chain resname resid name index,
                 chains !! idx = Some chain /\ resnames !! idx = Some resname
                 /\ resids !! idx = Some resid /\ names !! idx = Some name
                 /\ indices !! idx = Some index /\ py_int index = Ok key
                 /\ label = format_label chain resname resid name index)
         /\ (forall item, item ∈ seen ->
               exists key, py_int item.2 = Ok key /\ is_Some (m !! key)))).
    - split.
      + intros key label E. now rewrite lookup_empty in E.
      + intros item Hin. now apply elem_of_nil in Hin.
    - intros seen [idx index] m m' [Hentries Hseen] Hin%elem_of_enumerate.
      unfold gen_index_to_atom_label_body.
      destruct (getitem chains idx) as [chain|] eqn:Ec; cbn [mbind result_bind];
        [|discriminate].
      destruct (getitem resnames idx) as [resname|] eqn:Ern; cbn [mbind result_bind];
        [|discriminate].
      destruct (getitem resids idx) as [resid|] eqn:Eri; cbn [mbind result_bind];
        [|discriminate].
      destruct (getitem names idx) as [name|] eqn:En; cbn [mbind result_bind];
        [|discriminate].
      destruct (py_int index) as [key0|] eqn:Ek; cbn [mbind result_bind]; [|discriminate].
      intros [= <-].
      assert (Hget : forall (l : list string) x, getitem l idx = Ok x -> l !! idx = Some x).
      { intros l x. unfold getitem. rewrite nth_error_lookup.
        destruct (l !! idx); [intros [= ->]; reflexivity | discriminate]. }
      apply Hget in Ec, Ern, Eri, En. split.
      + intros key label. rewrite lookup_insert. case_decide as Hd.
        * subst key0. intros [= <-]. split; [apply format_label_has_atom_name|].
          exists idx, chain, resname, resid, name, index. auto 10.
        * apply Hentries.
      + intros item [Hitem | ->%list_elem_of_singleton]%elem_of_app.
        * destruct (Hseen item Hitem) as (key & Hkey & Hsome). exists key.
          split; [exact Hkey|]. rewrite lookup_insert. case_decide; [eauto | exact Hsome].
        * exists key0. split; [exact Ek|]. rewrite lookup_insert_eq. eauto. }
  destruct Hinv as [Hentries Hall]. split; [exact Hentries|].
  intros idx index Hidx. apply (Hall (idx, index)). now apply elem_of_enumerate.
Qed.

End index_to_label.

Lemma gen_index_to_atom_label_entries_example :
  gen_index_to_atom_label decimal
    (selection_of ["A"; "B"] ["LYS"; "ARG"] ["1"; "2"] ["NZ"; "NH1"] ["10"; "20"])
  = Ok {[ 10 := "A:LYS:1:NZ:10"; 20 := "B:ARG:2:NH1:20" ]}
  /\ exists key, decimal "20" = Ok key
                 /\ is_Some (({[ 10 := "A:LYS:1:NZ:10"; 20 := "B:ARG:2:NH1:20" ]}
                              : gmap Z string) !! key).
Proof.
  assert (E : gen_index_to_atom_label decimal
    (selection_of ["A"; "B"] ["LYS"; "ARG"] ["1"; "2"] ["NZ"; "NH1"] ["10"; "20"])
    = Ok {[ 10 := "A:LYS:1:NZ:10"; 20 := "B:ARG:2:NH1:20" ]}).
  { vm_compute. reflexivity. }
  split; [exact E|].
  destruct (gen_index_to_atom_label_entries decimal _ _ E) as [_ Hkeys].
  apply (Hkeys 1%nat "20"). reflexivity.
Defined.


(** ** File types *)

Lemma lstrip_by_none (f : ascii -> bool) (s : string) :
  none_of f s = true -> lstrip_by f s = s.
Proof.
  destruct s as [|a s]; simpl; [reflexivity|].
  intros [Ha _]%andb_prop. apply negb_true_iff in Ha. now rewrite Ha.
Qed.

Lemma rstrip_by_none (f : ascii -> bool) (s : string) :
  none_of f s = true -> rstrip_by f s = s.
Proof.
  induction s as [|a s IH]; simpl; [reflexivity|].
  intros [Ha Hs]%andb_prop. apply negb_true_iff in Ha. rewrite (IH Hs), Ha.
  now destruct s.
Qed.

Lemma strip_by_none (f : ascii -> bool) (s : string) :
  none_of f s = true -> strip_by f s = s.
Proof.
  intros Hs. unfold strip_by. now rewrite lstrip_by_none, rstrip_by_none.
Qed.

(** X6: for a file name that ends in a dot and an extension without
    dots and whitespace, [get_file_type] returns the extension, except
    that it returns [netcdf] for the extension [nc]; whatever the file
    name, it never returns [nc]. *)
Theorem get_file_type_extension (base ext : string) :
  has_char dot ext = false -> none_of Ascii.is_space ext = true ->
  get_file_type (base +:+ "." +:+ ext) = (if String.eqb ext "nc" then "netcdf" else ext)
  /\ (forall file_name, get_file_type file_name <> "nc").
Proof.
  intros Hdot Hspace. split.
  - unfold get_file_type. change ("." +:+ ext) with (String dot ext).
    rewrite last_field_app, (split_free dot ext Hdot).
    unfold last_field, py_strip. cbn [List.last].
    now rewrite (strip_by_none _ ext Hspace).
  - intros file_name. unfold get_file_type.
    destruct (String.eqb_spec (py_strip (last_field (split dot file_name))) "nc");
      [discriminate | assumption].
Qed.

Lemma get_file_type_extension_example :
  has_char dot "nc" = false /\ none_of Ascii.is_space "nc" = true
  /\ get_file_type ("run1.prod" +:+ "." +:+ "nc") = "netcdf".
Proof.
  split; [reflexivity|]. split; [reflexivity|].
  apply (get_file_type_extension "run1.prod" "nc"); reflexivity.
Defined.

(** ** Aromatic triplets *)

Lemma list_ind3 {A} (P : list A -> Prop) :
  P [] -> (forall a, P [a]) -> (forall a b, P [a; b]) ->
  (forall a b c l, P l -> P (a :: b :: c :: l)) ->
  forall l, P l.
Proof.
  intros H0 H1 H2 H3.
  assert (Hn : forall n l, (length l <= n)%nat -> P l).
  { induction n as [|n IH]; intros l Hl.
    - destruct l; [exact H0 | simpl in Hl; lia].
    - destruct l as [|a [|b [|c l]]]; auto.
      apply H3, IH. simpl in Hl. lia. }
  intros l. exact (Hn (length l) l (le_n _)).
Qed.

Lemma range3_add3 (n : nat) :
  range3 (S (S (S n))) = 0%nat :: ((fun i => 3 + i)%nat <$> range3 n).
Proof.
  unfold range3.
  replace ((S (S (S n)) + 2) / 3)%nat with (S ((n + 2) / 3)).
  2: { replace (S (S (S n)) + 2)%nat with ((n + 2) + 1 * 3)%nat by lia.
       rewrite Nat.div_add by lia. lia. }
  cbn [seq fmap list_fmap]. f_equal.
  rewrite <- fmap_S_seq. change (list_fmap ?f ?l) with (f <$> l).
  rewrite <- !list_fmap_compose.
  apply list_fmap_ext. intros i k _. simpl. lia.
Qed.

Lemma slices3_add3 {A} (a b c : A) (l : list A) :
  slices3 (a :: b :: c :: l) = [a; b; c] :: slices3 l.
Proof.
  unfold slices3. cbn [length]. rewrite range3_add3. cbn [fmap list_fmap].
  rewrite <- list_fmap_compose. reflexivity.
Qed.

Lemma slices3_short {A} (a b : A) :
  slices3 (@nil A) = [] /\ slices3 [a] = [[a]] /\ slices3 [a; b] = [[a; b]].
Proof. repeat split. Qed.

Lemma slices3_concat {A} (l : list A) : concat (slices3 l) = l.
Proof.
  induction l as [|a|a b|a b c l IH] using list_ind3; try reflexivity.
  rewrite slices3_add3. cbn [concat]. now rewrite IH.
Qed.

Lemma slices3_lengths {A} (l : list A) :
  (forall i t, slices3 l !! i = Some t ->
     (1 <= length t <= 3)%nat /\ ((S i < length (slices3 l))%nat -> length t = 3%nat))
  /\ ((length l mod 3 = 0)%nat -> Forall (fun t => length t = 3%nat) (slices3 l)).
Proof.
  induction l as [|a|a b|a b c l [IH1 IH2]] using list_ind3.
  - split; [intros i t Ht; now destruct i | constructor].
  - split; [|discriminate].
    rewrite (proj1 (proj2 (slices3_short a a))).
    intros [|i] t; [intros [= <-]; simpl; lia | discriminate].
  - split; [|discriminate].
    rewrite (proj2 (proj2 (slices3_short a b))).
    intros [|i] t; [intros [= <-]; simpl; lia | discriminate].
  - rewrite slices3_add3. split.
    + intros [|i] t; cbn [lookup list_lookup].
      * intros [= <-]. simpl. lia.
      * intros Ht. destruct (IH1 i t Ht) as [Hlen Hfull]. split; [exact Hlen|].
        cbn [length]. intros Hi. apply Hfull. lia.
    + intros Hmod. constructor; [reflexivity|]. apply IH2.
      change (length (a :: b :: c :: l)) with (3 + length l)%nat in Hmod.
      replace (3 + length l)%nat with (length l + 1 * 3)%nat in Hmod by lia.
      now rewrite Nat.Div0.mod_add in Hmod.
Qed.

(** X7: when the three selections give their labels,
    [get_aromatic_atom_triplets] returns slices whose concatenation is
    the labels of PHE, TRP and TYR in this order.  Every slice has one
    to three labels, every slice but the last has three, and all have
    three when the number of labels is a multiple of three; there are
    [ceil(n / 3)] slices for [n] labels. *)
Theorem get_aromatic_atom_triplets_slices (PHE TRP TYR : selection)
    (phe trp tyr : list string) :
  get_atom_selection_labels PHE = Ok phe ->
  get_atom_selection_labels TRP = Ok trp ->
  get_atom_selection_labels TYR = Ok tyr ->
  exists triplets,
    get_aromatic_atom_triplets PHE TRP TYR = Ok triplets
    /\ concat triplets = phe ++ trp ++ tyr
    /\ length triplets = ((length (phe ++ trp ++ tyr) + 2) / 3)%nat
    /\ (forall i t, triplets !! i = Some t ->
          (1 <= length t <= 3)%nat
          /\ ((S i < length triplets)%nat -> length t = 3%nat))
    /\ ((length (phe ++ trp ++ tyr) mod 3 = 0)%nat ->
        Forall (fun t => length t = 3%nat) triplets).
Proof.
  intros E1 E2 E3. exists (slices3 (phe ++ trp ++ tyr)).
  split; [unfold get_aromatic_atom_triplets; now rewrite E1, E2, E3|].
  split; [apply slices3_concat|].
  split; [unfold slices3, range3; now rewrite length_fmap, length_fmap, length_seq|].
  apply slices3_lengths.
Qed.

Lemma get_aromatic_atom_triplets_slices_example :
  get_atom_selection_labels
    (selection_of ["A"; "A"; "A"] ["PHE"; "PHE"; "PHE"] ["7"; "7"; "7"]
                  ["CG"; "CE1"; "CE2"] ["1"; "2"; "3"])
  = Ok ["A:PHE:7:CG:1"; "A:PHE:7:CE1:2"; "A:PHE:7:CE2:3"]
  /\ get_atom_selection_labels empty_selection = Ok ["::::"]
  /\ exists triplets,
       get_aromatic_atom_triplets
         (selection_of ["A"; "A"; "A"] ["PHE"; "PHE"; "PHE"] ["7"; "7"; "7"]
                       ["CG"; "CE1"; "CE2"] ["1"; "2"; "3"])
         empty_selection empty_selection = Ok triplets
       /\ concat triplets
          = ["A:PHE:7:CG:1"; "A:PHE:7:CE1:2"; "A:PHE:7:CE2:3"] ++ ["::::"] ++ ["::::"].
Proof.
  assert (E1 : get_atom_selection_labels
    (selection_of ["A"; "A"; "A"] ["PHE"; "PHE"; "PHE"] ["7"; "7"; "7"]
                  ["CG"; "CE1"; "CE2"] ["1"; "2"; "3"])
    = Ok ["A:PHE:7:CG:1"; "A:PHE:7:CE1:2"; "A:PHE:7:CE2:3"]) by reflexivity.
  assert (E2 : get_atom_selection_labels empty_selection = Ok ["::::"]) by reflexivity.
  split; [exact E1|]. split; [exact E2|].
  destruct (get_aromatic_atom_triplets_slices _ _ _ _ _ _ E1 E2 E2)
    as (triplets & E & Hconcat & _).
  exists triplets. split; [exact E | exact Hconcat].
Defined.

(** ** Parsing contacts *)

Lemma none_of_append (f : ascii -> bool) (s1 s2 : string) :
  none_of f (s1 +:+ s2) = none_of f s1 && none_of f s2.
Proof.
  induction s1 as [|a s1 IH]; [reflexivity|].
  rewrite append_String. simpl. now rewrite IH, andb_assoc.
Qed.

Lemma none_of_weaken (f g : ascii -> bool) (s : string) :
  (forall a, g a = true -> f a = true) -> none_of f s = true -> none_of g s = true.
Proof.
  intros Hfg. induction s as [|a s IH]; simpl; [reflexivity|].
  intros [Ha Hs]%andb_prop. rewrite (IH Hs), andb_true_r.
  apply negb_true_iff in Ha. apply negb_true_iff.
  destruct (g a) eqn:E; [apply Hfg in E; congruence | reflexivity].
Qed.

Lemma none_of_has_char (chars s : string) (c : ascii) :
  char_in chars c = true -> none_of (char_in chars) s = true -> has_char c s = false.
Proof.
  intros Hc. induction s as [|a s IH]; simpl; [reflexivity|].
  intros [Ha Hs]%andb_prop. rewrite (IH Hs), orb_false_r.
  destruct (Ascii.eqb_spec a c) as [-> | Hne]; [|reflexivity].
  rewrite Hc in Ha. discriminate.
Qed.

Lemma none_of_join (f : ascii -> bool) (sep : string) (xs : list string) :
  none_of f sep = true -> Forall (fun x => none_of f x = true) xs ->
  none_of f (join sep xs) = true.
Proof.
  intros Hsep Hxs. induction Hxs as [|x xs Hx Hxs IH]; [reflexivity|].
  destruct xs as [|y xs]; [exact Hx|].
  rewrite join_cons, !none_of_append, Hx, Hsep, IH. reflexivity.
Qed.

Lemma tokens_no_braces (xs : list string) :
  Forall token xs -> none_of (char_in "{}") (join " " xs) = true.
Proof.
  intros Hxs. apply none_of_join; [reflexivity|].
  eapply Forall_impl; [exact Hxs|]. intros x [_ Hx]. cbv beta.
  eapply none_of_weaken; [|exact Hx].
  intros a. simpl. destruct (Ascii.eqb a "{"), (Ascii.eqb a "}"), (Ascii.eqb a " ");
    simpl; congruence.
Qed.

Lemma tokens_no_space (xs : list string) :
  Forall token xs -> Forall (fun x => has_char space x = false) xs.
Proof.
  intros Hxs. eapply Forall_impl; [exact Hxs|]. intros x [_ Hx]. cbv beta.
  now apply (none_of_has_char " {}").
Qed.

Lemma tokens_join_nonempty (xs : list string) :
  Forall token xs -> xs <> [] -> join " " xs <> EmptyString.
Proof.
  intros Hxs Hne. destruct Hxs as [|x xs [Hx _] _]; [congruence|].
  destruct x as [|a x]; [congruence|].
  destruct xs; [discriminate | rewrite join_cons, append_String; discriminate].
Qed.

Lemma rstrip_by_snoc (f : ascii -> bool) (s : string) (c : ascii) :
  f c = true -> rstrip_by f (s +:+ String c EmptyString) = rstrip_by f s.
Proof.
  intros Hc. induction s as [|a s IH].
  - rewrite append_Empty. simpl. now rewrite Hc.
  - rewrite append_String. simpl. now rewrite IH.
Qed.

Lemma strip_braces_left (s : string) :
  none_of (char_in "{}") s = true -> py_strip_chars "{}" ("{" +:+ s) = s.
Proof.
  intros Hs. unfold py_strip_chars, strip_by.
  change ("{" +:+ s) with (String "{" s). cbn [lstrip_by char_in].
  rewrite Ascii.eqb_refl. cbn [orb].
  now rewrite lstrip_by_none, rstrip_by_none.
Qed.

Lemma strip_braces_right (s : string) :
  none_of (char_in "{}") s = true -> py_strip_chars "{}" (s +:+ "}") = s.
Proof.
  intros Hs. unfold py_strip_chars, strip_by. destruct s as [|a s].
  - reflexivity.
  - assert (Ha : char_in "{}" a = false).
    { simpl in Hs. apply andb_prop in Hs as [Ha _]. now apply negb_true_iff in Ha. }
    rewrite append_String. cbn [lstrip_by]. rewrite Ha.
    rewrite <- append_String, rstrip_by_snoc by reflexivity.
    now apply rstrip_by_none.
Qed.

Lemma startswith_first (sep : string) (c a : ascii) (s : string) :
  a <> c -> startswith (String c sep) (String a s) = false.
Proof.
  intros Hne. simpl. destruct (Ascii.eqb_spec c a); [congruence | reflexivity].
Qed.

Lemma str_in_first (sep : string) (c : ascii) (s : string) :
  has_char c s = false -> str_in (String c sep) s = false.
Proof.
  induction s as [|a s IH]; [reflexivity|].
  intros [Ha Hs]%orb_false_elim. cbn [str_in].
  rewrite startswith_first, (IH Hs); [reflexivity|].
  intros ->. now rewrite Ascii.eqb_refl in Ha.
Qed.

(** The separator [} {] is found after a text without closing brace. *)
Lemma split_str_braces_head (x y : string) :
  has_char "}" x = false ->
  split_str_aux "} {" 0 (x +:+ "} {" +:+ y) = x :: split_str_aux "} {" 0 y.
Proof.
  induction x as [|a x IH]; intros Hx.
  - rewrite append_Empty. reflexivity.
  - apply orb_false_elim in Hx as [Ha Hx]. rewrite append_String.
    cbn [split_str_aux]. rewrite startswith_first, (IH Hx); [reflexivity|].
    intros ->. now rewrite Ascii.eqb_refl in Ha.
Qed.

Lemma split_str_braces_tail (y : string) :
  has_char "}" y = false -> split_str_aux "} {" 0 (y +:+ "}") = [y +:+ "}"].
Proof.
  induction y as [|a y IH]; intros Hy.
  - reflexivity.
  - apply orb_false_elim in Hy as [Ha Hy]. rewrite append_String.
    cbn [split_str_aux]. rewrite startswith_first, (IH Hy); [reflexivity|].
    intros ->. now rewrite Ascii.eqb_refl in Ha.
Qed.

Lemma split_str_render (xs ys : list string) :
  Forall token xs -> Forall token ys ->
  split_str "} {" (render_contacts xs ys) = ["{" +:+ join " " xs; join " " ys +:+ "}"].
Proof.
  intros Hxs Hys. unfold split_str, render_contacts.
  pose proof (tokens_no_braces xs Hxs) as Bx. pose proof (tokens_no_braces ys Hys) as By.
  replace ("{" +:+ join " " xs +:+ "} {" +:+ join " " ys +:+ "}")
    with (("{" +:+ join " " xs) +:+ "} {" +:+ (join " " ys +:+ "}"))
    by now rewrite append_assoc.
  rewrite split_str_braces_head.
  - rewrite split_str_braces_tail; [reflexivity|].
    now apply (none_of_has_char "{}").
  - change ("{" +:+ join " " xs) with (String "{" (join " " xs)). cbn [has_char].
    rewrite (none_of_has_char "{}" _ "}" eq_refl Bx). reflexivity.
Qed.

Lemma str_in_render (xs ys : list string) : str_in "} {" (render_contacts xs ys) = true.
Proof.
  apply str_in_spec. exists ("{" +:+ join " " xs), (join " " ys +:+ "}").
  unfold render_contacts. now rewrite append_assoc.
Qed.

Section contacts.
Variable py_int : string -> result Z.

Lemma map_int_Forall2 (xs : list string) (vs : list Z) :
  Forall2 (fun x v => py_int x = Ok v) xs vs -> map_int py_int xs = Ok vs.
Proof.
  induction 1 as [|x v xs vs Hx _ IH]; [reflexivity|].
  cbn [map_int]. rewrite Hx. cbn [mbind result_bind]. rewrite IH. reflexivity.
Qed.

Lemma parse_contacts_body_ok (l1 l2 : list Z) (acc : list (Z * Z)) (k : nat) a b :
  l1 !! k = Some a -> l2 !! k = Some b ->
  parse_contacts_body l1 l2 acc k = Ok (acc ++ [(a, b)]).
Proof.
  intros E1 E2. unfold parse_contacts_body.
  now rewrite (getitem_lookup _ _ _ E1), (getitem_lookup _ _ _ E2).
Qed.

Lemma parse_contacts_loop (l1 l2 : list Z) (m k : nat) (acc : list (Z * Z)) :
  (k + m = length l1)%nat -> (length l1 <= length l2)%nat ->
  for_each (parse_contacts_body l1 l2) (seq k m) acc
  = Ok (acc ++ zip (drop k l1) (drop k l2)).
Proof.
  revert k acc. induction m as [|m IH]; intros k acc Hk Hle; cbn [seq for_each].
  - rewrite (drop_ge l1) by lia. now rewrite app_nil_r.
  - destruct (lookup_lt_is_Some_2 l1 k) as [a Ea]; [lia|].
    destruct (lookup_lt_is_Some_2 l2 k) as [b Eb]; [lia|].
    rewrite (parse_contacts_body_ok _ _ _ _ a b) by assumption.
    cbn [mbind result_bind]. rewrite IH by lia.
    rewrite (drop_S _ _ _ Ea), (drop_S _ _ _ Eb). cbn [zip zip_with].
    now rewrite <- app_assoc.
Qed.

Lemma parse_contacts_loop_short (l1 l2 : list Z) (m k : nat) (acc : list (Z * Z)) :
  (k + m = length l1)%nat -> (k <= length l2)%nat -> (length l2 < length l1)%nat ->
  for_each (parse_contacts_body l1 l2) (seq k m) acc = Raise IndexError.
Proof.
  revert k acc. induction m as [|m IH]; intros k acc Hk Hle Hlt; [lia|].
  cbn [seq for_each].
  destruct (lookup_lt_is_Some_2 l1 k) as [a Ea]; [lia|].
  destruct (decide (k = length l2)) as [-> | Hne].
  - unfold parse_contacts_body. rewrite (getitem_lookup _ _ _ Ea).
    cbn [mbind result_bind]. now rewrite (getitem_out_of_range l2).
  - destruct (lookup_lt_is_Some_2 l2 k) as [b Eb]; [lia|].
    rewrite (parse_contacts_body_ok _ _ _ _ a b) by assumption.
    cbn [mbind result_bind]. apply IH; lia.
Qed.

(** What [parse_contacts] does with the text of two Tcl lists of
    tokens, up to the reading of the integers. *)
Lemma parse_contacts_render (xs ys : list string) :
  Forall token xs -> Forall token ys ->
  parse_contacts py_int (render_contacts xs ys)
  = if String.eqb (join " " xs) "" || String.eqb (join " " ys) "" then Ok [] else
    (atom1_list ← map_int py_int (split space (join " " xs));
     atom2_list ← map_int py_int (split space (join " " ys));
     for_each (parse_contacts_body atom1_list atom2_list) (seq 0 (length atom1_list)) []).
Proof.
  intros Hxs Hys. unfold parse_contacts.
  rewrite str_in_render. cbn [negb]. rewrite split_str_render by assumption.
  cbn [getitem nth_error mbind result_bind].
  now rewrite strip_braces_left, strip_braces_right by now apply tokens_no_braces.
Qed.

(** X8: on the text [{x1 ... xn} {y1 ... ym}] of two non-empty Tcl lists
    of tokens that [int] reads, [parse_contacts] returns the pairs
    (xi, yi) of the integers at the same position when the second list
    is at least as long as the first (further entries of the second
    list are dropped), and raises [IndexError] when it is shorter. *)
Theorem parse_contacts_round_trip (xs ys : list string) (vs ws : list Z) :
  Forall token xs -> Forall token ys -> xs <> [] -> ys <> [] ->
  Forall2 (fun x v => py_int x = Ok v) xs vs ->
  Forall2 (fun y w => py_int y = Ok w) ys ws ->
  ((length xs <= length ys)%nat ->
   parse_contacts py_int (render_contacts xs ys) = Ok (zip vs ws))
  /\ ((length ys < length xs)%nat ->
      parse_contacts py_int (render_contacts xs ys) = Raise IndexError).
Proof.
  intros Hxs Hys Nx Ny Hvs Hws.
  rewrite parse_contacts_render by assumption.
  rewrite (proj2 (String.eqb_neq _ _) (tokens_join_nonempty xs Hxs Nx)).
  rewrite (proj2 (String.eqb_neq _ _) (tokens_join_nonempty ys Hys Ny)).
  cbn [orb].
  rewrite !(split_join space) by (assumption || now apply tokens_no_space).
  rewrite (map_int_Forall2 _ _ Hvs), (map_int_Forall2 _ _ Hws).
  cbn [mbind result_bind].
  apply Forall2_length in Hvs, Hws. split; intros Hlen.
  - rewrite parse_contacts_loop by lia. reflexivity.
  - apply parse_contacts_loop_short; lia.
Qed.

(** X9: when one of the two Tcl lists is empty, as in [{} {}] for a
    frame without contacts, [parse_contacts] returns no pair and reads
    no integer. *)
Theorem parse_contacts_no_contacts (xs ys : list string) :
  Forall token xs -> Forall token ys -> xs = [] \/ ys = [] ->
  parse_contacts py_int (render_contacts xs ys) = Ok [].
Proof.
  intros Hxs Hys Hempty. rewrite parse_contacts_render by assumption.
  destruct Hempty as [-> | ->]; [reflexivity|].
  cbn [join String.concat]. now rewrite orb_true_r.
Qed.

(** X10: a text without the separator [} {] is read as one pair: two
    tokens with one space between them give the pair of their
    integers. *)
Theorem parse_contacts_single_pair (x y : string) (v w : Z) :
  token x -> token y -> py_int x = Ok v -> py_int y = Ok w ->
  parse_contacts py_int (x +:+ " " +:+ y) = Ok [(v, w)].
Proof.
  intros Hx Hy Hv Hw. unfold parse_contacts.
  assert (Hno : str_in "} {" (x +:+ " " +:+ y) = false).
  { apply str_in_first.
    apply (none_of_has_char "{}"); [reflexivity|].
    change (x +:+ " " +:+ y) with (join " " [x; y]).
    apply tokens_no_braces. repeat (constructor; [assumption|]). constructor. }
  rewrite Hno. cbn [negb].
  change (x +:+ " " +:+ y) with (join " " [x; y]).
  rewrite (split_join space);
    [| discriminate
     | apply tokens_no_space; repeat (constructor; [assumption|]); constructor].
  cbn [map_int]. rewrite Hv, Hw. reflexivity.
Qed.
End contacts.

Lemma parse_contacts_round_trip_example :
  Forall2 (fun x v => decimal x = Ok v) ["11"; "12"; "13"] [11; 12; 13]
  /\ Forall2 (fun y w => decimal y = Ok w) ["50"; "51"; "52"] [50; 51; 52]
  /\ parse_contacts decimal (render_contacts ["11"; "12"; "13"] ["50"; "51"; "52"])
     = Ok [(11, 50); (12, 51); (13, 52)].
Proof.
  assert (H1 : Forall2 (fun x v => decimal x = Ok v) ["11"; "12"; "13"] [11; 12; 13])
    by (repeat constructor).
  assert (H2 : Forall2 (fun y w => decimal y = Ok w) ["50"; "51"; "52"] [50; 51; 52])
    by (repeat constructor).
  split; [exact H1|]. split; [exact H2|].
  apply (parse_contacts_round_trip decimal ["11"; "12"; "13"] ["50"; "51"; "52"]
           [11; 12; 13] [50; 51; 52]); try discriminate; try assumption;
    try (repeat constructor; discriminate).
Defined.

Lemma parse_contacts_no_contacts_example :
  parse_contacts decimal (render_contacts [] []) = Ok []
  /\ render_contacts [] [] = "{} {}".
Proof.
  split; [|reflexivity].
  apply (parse_contacts_no_contacts decimal [] []); [constructor | constructor | now left].
Defined.

Lemma parse_contacts_single_pair_example :
  decimal "11" = Ok 11 /\ decimal "50" = Ok 50
  /\ parse_contacts decimal ("11" +:+ " " +:+ "50") = Ok [(11, 50)].
Proof.
  split; [reflexivity|]. split; [reflexivity|].
  apply (parse_contacts_single_pair decimal "11" "50" 11 50);
    try reflexivity; split; (discriminate || reflexivity).
Defined.

(** ** The outcomes of [calc_water_to_residues_map] *)

(** Once [water] and [protein] are bound, every iteration returns. *)
Lemma for_each_water_bound s l st w p :
  l_water st = Some w -> l_protein st = Some p ->
  exists st', for_each (calc_water_to_residues_map_body s) l st = Ok st'.
Proof.
  revert st w p. induction l as [|[[[f a1] a2] t] l IH]; intros st w p Hw Hp; cbn [for_each].
  - now exists st.
  - rewrite calc_water_to_residues_map_body_eq.
    destruct (str_in s a1), (str_in s a2); rewrite ?Hw, ?Hp; cbn [mbind result_bind];
      eapply IH; cbn [l_water l_protein]; reflexivity || eassumption.
Qed.

(** While [water] is unbound, the loop returns unless it meets a
    residue-residue hbond. *)
Lemma for_each_water_unbound s l st :
  l_water st = None ->
  (residue_first s l
   /\ for_each (calc_water_to_residues_map_body s) l st = Raise (UnboundLocalError "water"))
  \/ exists st', for_each (calc_water_to_residues_map_body s) l st = Ok st'.
Proof.
  revert st. induction l as [|[[[f a1] a2] t] l IH]; intros st Hw; cbn [for_each].
  - right. now exists st.
  - rewrite calc_water_to_residues_map_body_eq.
    destruct (str_in s a1) eqn:E1, (str_in s a2) eqn:E2; cbn [mbind result_bind].
    + destruct (IH (Locals (Some f) (l_water st) (l_protein st) (l_water_to_residues st)
                           (l_solvent_bridges st ++ [(a1, a2)])) Hw)
        as [[(l1 & hb & l2 & -> & Hl1 & Hhb) E] | Hok]; [left | now right].
      split; [|exact E].
      exists ((f, a1, a2, t) :: l1), hb, l2. split; [reflexivity|]. split; [|exact Hhb].
      constructor; [|exact Hl1]. split; now apply str_in_spec.
    + right. eapply for_each_water_bound; reflexivity.
    + right. eapply for_each_water_bound; reflexivity.
    + left. rewrite Hw. split; [|reflexivity].
      exists [], (f, a1, a2, t), l. split; [reflexivity|]. split; [constructor|].
      intros [Hc | Hc]; apply str_in_spec in Hc; unfold atom1_of, atom2_of in Hc;
        cbn [fst snd] in Hc; congruence.
Qed.

Lemma residue_first_not_water_involving s hbonds :
  residue_first s hbonds -> ~ Forall (water_involving s) hbonds.
Proof.
  intros (l1 & hb & l2 & -> & _ & Hhb) Hall. rewrite Forall_forall in Hall.
  apply Hhb, Hall. set_solver.
Qed.

(** X11: [calc_water_to_residues_map] has three outcomes.  It raises
    [UnboundLocalError] for [frame_idx] exactly on the empty list, and
    for [water] exactly when a residue-residue hbond comes before every
    hbond with one solvent end; otherwise it returns, with the frame of
    the last hbond.  It never raises [KeyError] nor the error for
    [protein], and on a non-empty list of water-involving hbonds it
    always returns. *)
Theorem calc_water_to_residues_map_outcome (hbonds : list row4) (solvent_resn : string) :
  match calc_water_to_residues_map hbonds solvent_resn with
  | Ok (frame_idx, _, _) =>
      hbonds <> [] /\ last (frame_of <$> hbonds) = Some frame_idx
      /\ ~ residue_first solvent_resn hbonds
  | Raise e =>
      (e = UnboundLocalError "frame_idx" /\ hbonds = [])
      \/ (e = UnboundLocalError "water" /\ residue_first solvent_resn hbonds)
  end
  /\ (hbonds <> [] -> Forall (water_involving solvent_resn) hbonds ->
      exists frame_idx water_to_residues solvent_bridges,
        calc_water_to_residues_map hbonds solvent_resn
        = Ok (frame_idx, water_to_residues, solvent_bridges)).
Proof.
  assert (Hcases :
    (residue_first solvent_resn hbonds
     /\ calc_water_to_residues_map hbonds solvent_resn = Raise (UnboundLocalError "water"))
    \/ (hbonds = []
        /\ calc_water_to_residues_map hbonds solvent_resn
           = Raise (UnboundLocalError "frame_idx"))
    \/ (hbonds <> [] /\ ~ residue_first solvent_resn hbonds
        /\ exists f m b, calc_water_to_residues_map hbonds solvent_resn = Ok (f, m, b)
                         /\ last (frame_of <$> hbonds) = Some f)).
  { destruct (for_each_water_unbound solvent_resn hbonds locals_init eq_refl)
      as [[Hrf E] | [st E]].
    - left. split; [exact Hrf|]. unfold calc_water_to_residues_map. now rewrite E.
    - right.
      pose proof (loop_invariant_for_each solvent_resn hbonds [] locals_init st
                    (loop_invariant_init solvent_resn) E) as Hinv.
      rewrite app_nil_l in Hinv. destruct Hinv as [_ _ _ _ _ Hfr].
      destruct hbonds as [|hb hbonds]; [left; split; reflexivity|].
      right. split; [discriminate|].
      destruct (last_is_Some (frame_of <$> hb :: hbonds)) as [_ [f Ef]]; [discriminate|].
      assert (Hcalc : calc_water_to_residues_map (hb :: hbonds) solvent_resn
                      = Ok (f, l_water_to_residues st,
                            sorted (elements (dedup_solvent_bridges (l_solvent_bridges st))))).
      { unfold calc_water_to_residues_map. rewrite E. cbn [mbind result_bind].
        now rewrite Hfr, Ef. }
      split; [|eauto 6].
      intros (l1 & hb' & l2 & El & Hl1 & Hhb). rewrite El in Hcalc.
      rewrite calc_water_to_residues_map_residue_first in Hcalc by assumption.
      discriminate. }
  split.
  - destruct Hcases as [[Hrf ->] | [[-> ->] | (Hne & Hnrf & f & m & b & -> & Hf)]]; auto.
  - intros Hne Hall.
    destruct Hcases as [[Hrf _] | [[-> _] | (_ & _ & f & m & b & E & _)]]; [| congruence | eauto].
    now apply residue_first_not_water_involving in Hrf.
Qed.

Lemma calc_water_to_residues_map_outcome_example :
  Forall (water_involving "TIP3") wb2_example
  /\ exists frame_idx water_to_residues solvent_bridges,
       calc_water_to_residues_map wb2_example "TIP3"
       = Ok (frame_idx, water_to_residues, solvent_bridges).
Proof.
  assert (Hall : Forall (water_involving "TIP3") wb2_example)
    by (unfold wb2_example; repeat constructor; unfold water_involving;
        rewrite <- !str_in_spec; vm_compute; auto).
  split; [exact Hall|].
  apply (calc_water_to_residues_map_outcome wb2_example "TIP3"); [discriminate | exact Hall].
Defined.

(** ** Solvent bridges *)

Lemma dedup_solvent_bridges_fold (l : list (string * string))
    (acc : gset (string * string)) :
  let out :=
    fold_left
      (fun (solvent_bridges : gset (string * string)) '(water1, water2) =>
         if bool_decide ((water1, water2) ∉ solvent_bridges)
            && bool_decide ((water2, water1) ∉ solvent_bridges)
         then solvent_bridges ∪ {[(water1, water2)]}
         else solvent_bridges) l acc in
  (forall x, x ∈ out -> x ∈ acc \/ x ∈ l)
  /\ (forall x, x ∈ acc -> x ∈ out)
  /\ (forall w1 w2, (w1, w2) ∈ l -> (w1, w2) ∈ out \/ (w2, w1) ∈ out)
  /\ ((forall w1 w2, (w1, w2) ∈ acc -> w1 <> w2 -> (w2, w1) ∉ acc) ->
      forall w1 w2, (w1, w2) ∈ out -> w1 <> w2 -> (w2, w1) ∉ out).
Proof.
  revert acc. induction l as [|[u v] l IH]; intros acc; cbn [fold_left].
  - cbv zeta. split; [auto|]. split; [auto|]. split; [|auto].
    intros w1 w2 Hin. now apply elem_of_nil in Hin.
  - set (acc' := if bool_decide ((u, v) ∉ acc) && bool_decide ((v, u) ∉ acc)
                 then acc ∪ {[(u, v)]} else acc).
    destruct (IH acc') as (H1 & H2 & H3 & H4). cbv zeta.
    assert (Hsub : forall x, x ∈ acc -> x ∈ acc').
    { intros x Hx. unfold acc'. destruct (_ && _); set_solver. }
    assert (Hhead : (u, v) ∈ acc' \/ (v, u) ∈ acc').
    { unfold acc'. destruct (bool_decide_reflect ((u, v) ∉ acc)) as [Huv | Huv]; cbn [andb].
      - destruct (bool_decide_reflect ((v, u) ∉ acc)) as [Hvu | Hvu].
        + left. set_solver.
        + right. now apply dec_stable.
      - left. now apply dec_stable. }
    split; [|split; [|split]].
    + intros x [Hx | Hx]%H1; [|right; now right].
      unfold acc' in Hx. destruct (_ && _); [|now left].
      apply elem_of_union in Hx as [Hx | Hx]; [now left|].
      apply elem_of_singleton in Hx as ->. right. left.
    + intros x Hx. apply H2, Hsub, Hx.
    + intros w1 w2 [E | Hin]%elem_of_cons; [|now apply H3].
      injection E as -> ->. destruct Hhead as [Hh | Hh]; [left | right]; now apply H2.
    + intros Hasym. apply H4. intros w1 w2. unfold acc'.
      destruct (bool_decide_reflect ((u, v) ∉ acc)) as [Huv | Huv]; cbn [andb];
        [|now apply Hasym].
      destruct (bool_decide_reflect ((v, u) ∉ acc)) as [Hvu | Hvu]; [|now apply Hasym].
      rewrite !elem_of_union, !elem_of_singleton.
      intros [Hin | E] Hne [Hin' | E'].
      * now apply (Hasym w1 w2).
      * injection E' as -> ->. contradiction.
      * injection E as -> ->. contradiction.
      * injection E as -> ->. injection E' as -> _. contradiction.
Qed.

(** The pairs of the deduplicated list, against the hbonds between two
    solvent atoms. *)
Lemma solvent_bridges_orientation hbonds s f m b :
  calc_water_to_residues_map hbonds s = Ok (f, m, b) ->
  (forall w1 w2, (w1, w2) ∈ b -> w1 <> w2 -> (w2, w1) ∉ b)
  /\ (forall hb, hb ∈ hbonds -> both_solvent s hb ->
        (atom1_of hb, atom2_of hb) ∈ b \/ (atom2_of hb, atom1_of hb) ∈ b).
Proof.
  unfold calc_water_to_residues_map.
  destruct (for_each _ hbonds locals_init) as [st|e] eqn:E;
    cbn [mbind result_bind]; [|discriminate].
  apply (loop_invariant_for_each s hbonds [] locals_init st (loop_invariant_init s)) in E.
  rewrite app_nil_l in E. destruct E as [_ _ _ _ Hbr _].
  destruct (l_frame_idx st) as [f'|]; cbn [read_local mbind result_bind]; [|discriminate].
  intros [= _ _ <-].
  destruct (dedup_solvent_bridges_fold (l_solvent_bridges st) ∅) as (_ & _ & H3 & H4).
  cbv zeta in H3, H4.
  fold (dedup_solvent_bridges (l_solvent_bridges st)) in H3, H4.
  split.
  - intros w1 w2. rewrite !elem_of_sorted, !elem_of_elements.
    apply H4. intros ? ? Hin. now apply elem_of_empty in Hin.
  - intros [[[f0 a1] a2] t] Hin [Hs1 Hs2]. unfold atom1_of, atom2_of in *. cbn [fst snd] in *.
    rewrite !elem_of_sorted, !elem_of_elements. apply H3, Hbr.
    exists (f0, a1, a2, t). auto.
Qed.

(** X12: the solvent bridges that [calc_water_to_residues_map] returns
    are sorted and without repetition, and hold every hbond between two
    solvent atoms in exactly one orientation: the pair of the hbond or
    the reversed pair is listed, never both for two different atoms,
    and every listed pair is the pair of such an hbond. *)
Theorem calc_water_to_residues_map_solvent_bridges
    (hbonds : list row4) (solvent_resn : string)
    (frame_idx : Z) (m : gmap string (gset string)) (b : list (string * string)) :
  calc_water_to_residues_map hbonds solvent_resn = Ok (frame_idx, m, b) ->
  NoDup b
  /\ StronglySorted py_le b
  /\ (forall w1 w2, (w1, w2) ∈ b -> w1 <> w2 -> (w2, w1) ∉ b)
  /\ (forall hb, hb ∈ hbonds -> both_solvent solvent_resn hb ->
        (atom1_of hb, atom2_of hb) ∈ b \/ (atom2_of hb, atom1_of hb) ∈ b)
  /\ (forall w1 w2, (w1, w2) ∈ b ->
        exists hb, hb ∈ hbonds /\ both_solvent solvent_resn hb
                   /\ atom1_of hb = w1 /\ atom2_of hb = w2).
Proof.
  intros E.
  destruct (solvent_bridges_orientation _ _ _ _ _ E) as [Hasym Hcover].
  destruct (calc_water_to_residues_map_spec _ _ _ _ _ E) as (_ & _ & _ & Hb).
  assert (Eb : exists bridges : gset (string * string), b = sorted (elements bridges)).
  { revert E. unfold calc_water_to_residues_map.
    destruct (for_each _ hbonds locals_init) as [st|e]; cbn [mbind result_bind];
      [|discriminate].
    destruct (l_frame_idx st); cbn [read_local mbind result_bind]; [|discriminate].
    intros [= _ _ <-]. eauto. }
  destruct Eb as [bridges ->].
  split; [apply sorted_NoDup, NoDup_elements|].
  split; [apply sorted_StronglySorted|].
  split; [exact Hasym|]. split; [exact Hcover|].
  intros w1 w2 (hb & Hin & E1 & E2 & Hs1 & Hs2)%Hb. exists hb.
  split; [exact Hin|]. split; [|auto]. split; congruence.
Qed.

Lemma calc_water_to_residues_map_solvent_bridges_example :
  calc_water_to_residues_map wb2_example "TIP3"
  = Ok (7,
        {[ "W:TIP3:500:OH2:900" := {[ "A:ASP:10:OD1:100"; "A:SER:12:OG:120" ]};
           "W:TIP3:501:OH2:903" := {[ "B:LYS:44:NZ:300" ]} ]},
        [("W:TIP3:500:OH2:900", "W:TIP3:501:OH2:903")])
  /\ ("W:TIP3:501:OH2:903", "W:TIP3:500:OH2:900")
       ∉ [("W:TIP3:500:OH2:900", "W:TIP3:501:OH2:903")].
Proof.
  assert (E : calc_water_to_residues_map wb2_example "TIP3"
    = Ok (7,
          {[ "W:TIP3:500:OH2:900" := {[ "A:ASP:10:OD1:100"; "A:SER:12:OG:120" ]};
             "W:TIP3:501:OH2:903" := {[ "B:LYS:44:NZ:300" ]} ]},
          [("W:TIP3:500:OH2:900", "W:TIP3:501:OH2:903")])) by (vm_compute; reflexivity).
  split; [exact E|].
  apply (calc_water_to_residues_map_solvent_bridges _ _ _ _ _ E);
    [apply list_elem_of_here | discriminate].
Defined.

(** ** The outcomes of the stratification *)

(** X13: [stratify_residue_hbonds] returns exactly when each of the two
    labels of every hbond has an atom-name field, and otherwise raises
    [IndexError]: it raises no other error, and a single label with
    fewer than four fields anywhere in the list loses the whole
    result. *)
Theorem stratify_residue_hbonds_outcome (residue_hbonds : list row4) :
  ((exists bins, stratify_residue_hbonds residue_hbonds = Ok bins)
   <-> Forall well_formed residue_hbonds)
  /\ (stratify_residue_hbonds residue_hbonds = Raise IndexError
      <-> ~ Forall well_formed residue_hbonds)
  /\ (forall e, stratify_residue_hbonds residue_hbonds = Raise e -> e = IndexError).
Proof.
  unfold stratify_residue_hbonds.
  destruct (decide (Forall well_formed residue_hbonds)) as [Hwf | Hill].
  - rewrite (stratify_residue_hbonds_loop _ [] [] [] Hwf).
    split; [split; eauto|]. split; [split; [discriminate | contradiction]|]. discriminate.
  - rewrite (stratify_residue_hbonds_loop_ill_formed _ _ Hill).
    split; [split; [intros [? ?]; discriminate | contradiction]|].
    split; [tauto|]. now intros e [= <-].
Qed.


Lemma stratify_extended_water_bridge_Ok hbonds s f m b :
  calc_water_to_residues_map hbonds s = Ok (f, m, b) ->
  exists wb2, stratify_extended_water_bridge hbonds s = Ok wb2
    /\ forall r, r ∈ wb2 <->
         exists w1 w2 S1 S2 a1 a2,
           (w1, w2) ∈ b /\ m !! w1 = Some S1 /\ m !! w2 = Some S2
           /\ a1 ∈ S1 /\ a2 ∈ S2 /\ r = (f, a1, w1, w2, a2, "wb2").
Proof.
  intros E. unfold stratify_extended_water_bridge. rewrite E. eexists. split; [reflexivity|].
  intros r. rewrite elem_of_sorted, elem_of_elements. apply elem_of_extended_water_bridges.
Qed.



(** ** Order and repetition of the hbonds *)

Lemma bridged_map_eq (m1 m2 : gmap string (gset string)) :
  (forall w S, m1 !! w = Some S -> S <> ∅) ->
  (forall w S, m2 !! w = Some S -> S <> ∅) ->
  (forall w p, bridged m1 w p <-> bridged m2 w p) ->
  m1 = m2.
Proof.
  intros Hne1 Hne2 Hiff.
  assert (Hle : forall (ma mb : gmap string (gset string)),
             (forall w S, ma !! w = Some S -> S <> ∅) ->
             (forall w p, bridged ma w p <-> bridged mb w p) ->
             forall w S, ma !! w = Some S -> mb !! w = Some S).
  { intros ma mb Hne Hab w S E.
    destruct (set_choose_L S (Hne w S E)) as [p Hp].
    destruct (proj1 (Hab w p)) as (S' & E' & Hp'); [now exists S|].
    rewrite E'. f_equal. apply set_eq. intros q. split; intros Hq.
    - destruct (proj2 (Hab w q)) as (S'' & E'' & Hq''); [now exists S'|]. congruence.
    - destruct (proj1 (Hab w q)) as (S'' & E'' & Hq''); [now exists S|]. congruence. }
  apply map_eq. intros w.
  destruct (m1 !! w) as [S1|] eqn:E1.
  - symmetry. now apply (Hle m1 m2).
  - destruct (m2 !! w) as [S2|] eqn:E2; [|reflexivity].
    apply (Hle m2 m1) in E2; [congruence | assumption |]. intros. symmetry. apply Hiff.
Qed.

(** X15: the map from solvent atoms to bonded atoms depends on which
    hbonds the list holds, not on their order nor on repetitions; two
    lists with the same hbonds whose last hbonds have the same frame
    give the same water bridges. *)
Theorem stratify_water_bridge_order_independent
    (hbonds1 hbonds2 : list row4) (solvent_resn : string)
    (f1 f2 : Z) (m1 m2 : gmap string (gset string)) (b1 b2 : list (string * string)) :
  (forall hb, hb ∈ hbonds1 <-> hb ∈ hbonds2) ->
  calc_water_to_residues_map hbonds1 solvent_resn = Ok (f1, m1, b1) ->
  calc_water_to_residues_map hbonds2 solvent_resn = Ok (f2, m2, b2) ->
  m1 = m2
  /\ (f1 = f2 ->
      stratify_water_bridge hbonds1 solvent_resn
      = stratify_water_bridge hbonds2 solvent_resn).
Proof.
  intros Hsame E1 E2.
  destruct (calc_water_to_residues_map_spec _ _ _ _ _ E1) as (Hmap1 & Hne1 & _ & _).
  destruct (calc_water_to_residues_map_spec _ _ _ _ _ E2) as (Hmap2 & Hne2 & _ & _).
  assert (Em : m1 = m2).
  { apply bridged_map_eq; [assumption | assumption |].
    intros w p. rewrite Hmap1, Hmap2.
    split; intros (hb & Hin & Hb); exists hb; (split; [now apply Hsame | exact Hb]). }
  split; [exact Em|]. intros Ef.
  unfold stratify_water_bridge. rewrite E1, E2. now subst.
Qed.

Lemma stratify_water_bridge_order_independent_example :
  let hb1 : row4 := (7, "A:ASP:10:OD1:100", "W:TIP3:500:OH2:900", "hb") in
  let hb2 : row4 := (7, "W:TIP3:500:OH2:900", "A:SER:12:OG:120", "hb") in
  stratify_water_bridge [hb1; hb2] "TIP3" = stratify_water_bridge [hb2; hb1; hb2] "TIP3".
Proof.
  intros hb1 hb2.
  refine (proj2 (stratify_water_bridge_order_independent [hb1; hb2] [hb2; hb1; hb2] "TIP3"
            7 7 _ _ _ _ _ _ _) eq_refl).
  - intros hb. rewrite !elem_of_cons, !elem_of_nil. tauto.
  - vm_compute. reflexivity.
  - vm_compute. reflexivity.
Defined.

(** ** The groups of [compute_pi_cation] *)

Lemma grouping_body_resolves (index_to_label : gmap Z string)
    (grouping : gmap string (gset string)) (contact : Z * Z)
    (cation_label aromatic_label resid : string) :
  resolves index_to_label contact cation_label aromatic_label resid ->
  grouping_body index_to_label grouping contact
  = Ok (add_residue (group_key cation_label resid) aromatic_label grouping).
Proof.
  destruct contact as [c a]. intros (Ec & Ea & Er). cbn [fst snd] in Ec, Ea.
  unfold grouping_body, dict_get, getitem. rewrite Ec, Ea. cbn [mbind result_bind].
  unfold field in Er. rewrite Er. cbn [mbind result_bind].
  fold (group_key cation_label resid). unfold add_residue.
  destruct (grouping !! group_key cation_label resid) as [S|] eqn:E.
  - rewrite E. reflexivity.
  - rewrite lookup_insert_eq. cbn [mbind result_bind default].
    now rewrite insert_insert_eq.
Qed.

Lemma grouping_loop (index_to_label : gmap Z string) (contacts : list (Z * Z))
    (grouping : gmap string (gset string)) :
  Forall (resolvable index_to_label) contacts ->
  exists grouping',
    for_each (grouping_body index_to_label) contacts grouping = Ok grouping'
    /\ (forall key label,
          bridged grouping' key label
          <-> bridged grouping key label
              \/ exists contact cation_label resid,
                   contact ∈ contacts
                   /\ resolves index_to_label contact cation_label label resid
                   /\ key = group_key cation_label resid)
    /\ ((forall key S, grouping !! key = Some S -> S <> ∅) ->
        forall key S, grouping' !! key = Some S -> S <> ∅).
Proof.
  intros Hall. revert grouping.
  induction Hall as [|contact contacts (cl & al & r & Hres) _ IH]; intros grouping.
  - exists grouping. split; [reflexivity|]. split; [|auto].
    intros key label. split; [auto|]. intros [Hb | (contact & _ & _ & Hin & _)]; [exact Hb|].
    now apply elem_of_nil in Hin.
  - cbn [for_each]. rewrite (grouping_body_resolves _ _ _ _ _ _ Hres). cbn [mbind result_bind].
    destruct (IH (add_residue (group_key cl r) al grouping)) as (g' & -> & Hmem & Hne).
    exists g'. split; [reflexivity|]. split.
    + intros key label. rewrite Hmem, bridged_add_residue. split.
      * intros [[[-> ->] | Hb] | (contact' & cl' & r' & Hin & Hres' & ->)].
        -- right. exists contact, cl, r. split; [left|]. auto.
        -- now left.
        -- right. exists contact', cl', r'. split; [now right|]. auto.
      * intros [Hb | (contact' & cl' & r' & [-> | Hin]%elem_of_cons & Hres' & ->)].
        -- left. now right.
        -- left. left. destruct Hres as (E1 & E2 & E3), Hres' as (E1' & E2' & E3').
           assert (cl' = cl) as -> by congruence.
           assert (label = al) as -> by congruence.
           assert (r' = r) as -> by congruence. auto.
        -- right. exists contact', cl', r'. auto.
    + intros Hne0. apply Hne. intros key S. unfold add_residue.
      destruct (decide (key = group_key cl r)) as [-> | Hk].
      * rewrite lookup_insert_eq. intros [= <-]. set_solver.
      * rewrite lookup_insert_ne by congruence. apply Hne0.
Qed.

Lemma grouping_loop_unresolvable (index_to_label : gmap Z string)
    (contacts : list (Z * Z)) (grouping : gmap string (gset string)) :
  ~ Forall (resolvable index_to_label) contacts ->
  for_each (grouping_body index_to_label) contacts grouping = Raise KeyError
  \/ for_each (grouping_body index_to_label) contacts grouping = Raise IndexError.
Proof.
  revert grouping. induction contacts as [|[c a] contacts IH]; intros grouping Hno.
  - exfalso. apply Hno. constructor.
  - cbn [for_each].
    destruct (index_to_label !! c) as [cl|] eqn:Ec;
      [|left; unfold grouping_body, dict_get; now rewrite Ec].
    destruct (index_to_label !! a) as [al|] eqn:Ea;
      [|left; unfold grouping_body, dict_get; now rewrite Ec, Ea].
    destruct (field 2 al) as [r|] eqn:Er.
    + rewrite (grouping_body_resolves _ _ _ cl al r) by (repeat split; assumption).
      cbn [mbind result_bind]. apply IH. intros Hall. apply Hno.
      constructor; [|exact Hall]. exists cl, al, r. repeat split; assumption.
    + right. unfold grouping_body, dict_get, getitem. rewrite Ec, Ea.
      cbn [mbind result_bind]. unfold field in Er. now rewrite Er.
Qed.

(** X16: the first loop of [compute_pi_cation].  When both indices of
    every contact have a label and every aromatic label has a resid
    field, the loop returns the groups: a label is in the group of a key
    exactly when it is the aromatic label of a contact whose key, the
    cation label followed by the characters of the aromatic resid, is
    this key; no group is empty.  Otherwise the loop raises [KeyError]
    or [IndexError]. *)
Theorem grouping_body_groups (index_to_label : gmap Z string) (contacts : list (Z * Z)) :
  (Forall (resolvable index_to_label) contacts ->
   exists grouping,
     for_each (grouping_body index_to_label) contacts ∅ = Ok grouping
     /\ (forall key label,
           (exists S : gset string, grouping !! key = Some S /\ label ∈ S)
           <-> exists contact cation_label resid,
                 contact ∈ contacts
                 /\ resolves index_to_label contact cation_label label resid
                 /\ key = group_key cation_label resid)
     /\ (forall key S, grouping !! key = Some S -> S <> ∅))
  /\ (~ Forall (resolvable index_to_label) contacts ->
      for_each (grouping_body index_to_label) contacts ∅ = Raise KeyError
      \/ for_each (grouping_body index_to_label) contacts ∅ = Raise IndexError).
Proof.
  split; [|apply grouping_loop_unresolvable].
  intros Hall. destruct (grouping_loop index_to_label contacts ∅ Hall) as (g & E & Hmem & Hne).
  exists g. split; [exact E|]. split.
  - intros key label. fold (bridged g key label). rewrite Hmem.
    split; [|auto]. intros [(S & HS & _) | Hc]; [|exact Hc].
    now rewrite lookup_empty in HS.
  - apply Hne. intros key S HS. now rewrite lookup_empty in HS.
Qed.

Lemma grouping_body_groups_example :
  Forall (resolvable ring_labels) ring_contacts
  /\ exists grouping,
       for_each (grouping_body ring_labels) ring_contacts ∅ = Ok grouping
       /\ forall key S, grouping !! key = Some S -> S <> ∅.
Proof.
  assert (Hall : Forall (resolvable ring_labels) ring_contacts).
  { repeat constructor.
    - exists "A:LYS:10:NZ:5", "B:PHE:20:CG:50", "20". repeat split; reflexivity.
    - exists "A:LYS:10:NZ:5", "B:PHE:20:CE1:51", "20". repeat split; reflexivity.
    - exists "A:LYS:10:NZ:5", "B:PHE:20:CE2:52", "20". repeat split; reflexivity. }
  split; [exact Hall|].
  destruct (proj1 (grouping_body_groups ring_labels ring_contacts) Hall)
    as (g & E & _ & Hne).
  exists g. split; [exact E | exact Hne].
Defined.

Lemma elem_of_concat {A} (x : A) (ls : list (list A)) :
  x ∈ concat ls <-> exists l, x ∈ l /\ l ∈ ls.
Proof.
  induction ls as [|l0 ls IH]; cbn [concat].
  - rewrite elem_of_nil. split; [tauto | intros (l & _ & Hl); now apply elem_of_nil in Hl].
  - rewrite elem_of_app, IH. split.
    + intros [Hx | (l & Hx & Hl)]; [exists l0; split; [exact Hx | left]|].
      exists l. split; [exact Hx | now right].
    + intros (l & Hx & [-> | Hl]%elem_of_cons); [now left | right; eauto].
Qed.

Section pi_cation_rows.
Context {F : Type} `{Arith F}.
Variable atom_coord : string -> vec3 F.

Lemma criterion_loop_rows (frame_idx : Z) (groups : list (string * gset string))
    (pi_cations out : list row4) :
  for_each (criterion_body atom_coord frame_idx) groups pi_cations = Ok out ->
  exists accepted,
    out = pi_cations ++ accepted_rows frame_idx accepted
    /\ sublist ((fun group => group.1.1) <$> accepted) (groups.*1)
    /\ forall key a1 a2, (key, a1, a2) ∈ accepted ->
         exists S a3, (key, S) ∈ groups /\ sorted (elements S) = [a1; a2; a3].
Proof.
  revert pi_cations. induction groups as [|[key S] groups IH]; intros pi_cations;
    cbn [for_each].
  - intros [= <-]. exists []. split; [now rewrite app_nil_r|]. split; [constructor|].
    intros key a1 a2 Hin. now apply elem_of_nil in Hin.
  - destruct (criterion_body atom_coord frame_idx pi_cations (key, S)) as [acc|e] eqn:E;
      cbn [mbind result_bind]; [|discriminate].
    intros (accepted & -> & Hsub & Hacc)%IH.
    apply criterion_body_rows in E as [-> | (a1 & a2 & a3 & Hs & ->)]; cbn [fst snd] in *.
    + exists accepted. split; [reflexivity|]. split; [now apply sublist_cons|].
      intros k b1 b2 (S' & b3 & Hin & Hs')%Hacc. exists S', b3. split; [now right | exact Hs'].
    + exists ((key, a1, a2) :: accepted). split; [now rewrite <- app_assoc|].
      split; [cbn [fmap list_fmap fst]; now apply sublist_skip|].
      intros k b1 b2 [[= -> -> ->] | Hin]%elem_of_cons.
      * exists S, a3. split; [left | exact Hs].
      * destruct (Hacc _ _ _ Hin) as (S' & b3 & Hin' & Hs'). exists S', b3.
        split; [now right | exact Hs'].
Qed.

Lemma length_accepted_rows (frame_idx : Z) (accepted : list (string * string * string)) :
  length (accepted_rows frame_idx accepted) = (3 * length accepted)%nat.
Proof.
  unfold accepted_rows. induction accepted as [|g accepted IH]; [reflexivity|].
  cbn [fmap list_fmap concat]. rewrite length_app.
  change (list_fmap _ _ ?f accepted) with (f <$> accepted). rewrite IH.
  cbn [group_rows length]. lia.
Qed.

(** X17: the rows that [compute_pi_cation] returns.  They are the rows
    of the accepted groups, three for each: every row has the frame
    index of the call and the type [pc], its cation label is the first
    five fields of the key of the group, and its aromatic label is one
    of the first two labels, in sorted order, of a group of the first
    loop; a group gives rows at most once, so there are three times as
    many rows as accepted groups.  A failure of the first loop is the
    failure of the call. *)
Theorem compute_pi_cation_rows (frame_idx : Z) (index_to_label : gmap Z string)
    (contact_index_pairs : list (Z * Z)) :
  (forall out,
     compute_pi_cation atom_coord frame_idx index_to_label contact_index_pairs = Ok out ->
     exists grouping accepted,
       for_each (grouping_body index_to_label) contact_index_pairs ∅ = Ok grouping
       /\ out = accepted_rows frame_idx accepted
       /\ length out = (3 * length accepted)%nat
       /\ NoDup ((fun group => group.1.1) <$> accepted)
       /\ (forall key a1 a2, (key, a1, a2) ∈ accepted ->
             exists S a3, grouping !! key = Some S
                          /\ sorted (elements S) = [a1; a2; a3])
       /\ (forall row, row ∈ out ->
             exists key a1 a2 a,
               (key, a1, a2) ∈ accepted /\ (a = a1 \/ a = a2)
               /\ row = (frame_idx, group_cation key, a, "pc")))
  /\ (forall e,
        for_each (grouping_body index_to_label) contact_index_pairs ∅ = Raise e ->
        compute_pi_cation atom_coord frame_idx index_to_label contact_index_pairs = Raise e).
Proof.
  unfold compute_pi_cation. split.
  - intros out.
    destruct (for_each _ contact_index_pairs ∅) as [grouping|e]; cbn [mbind result_bind];
      [|discriminate].
    intros (accepted & -> & Hsub & Hacc)%criterion_loop_rows.
    exists grouping, accepted. split; [reflexivity|]. rewrite app_nil_l.
    split; [reflexivity|]. split; [apply length_accepted_rows|].
    split; [exact (sublist_NoDup _ _ (NoDup_fst_map_to_list grouping) Hsub)|].
    split.
    + intros key a1 a2 (S & a3 & Hin & Hs)%Hacc. exists S, a3.
      split; [now apply elem_of_map_to_list | exact Hs].
    + intros row. unfold accepted_rows. rewrite elem_of_concat.
      intros (rows & Hrow & ([[key a1] a2] & -> & Hin)%list_elem_of_fmap).
      unfold group_rows in Hrow. cbn [fst snd] in Hrow.
      rewrite !elem_of_cons, elem_of_nil in Hrow.
      destruct Hrow as [-> | [-> | [-> | []]]]; exists key, a1, a2; eauto 10.
  - intros e ->. reflexivity.
Qed.
End pi_cation_rows.

Lemma compute_pi_cation_rows_example :
  compute_pi_cation (H := float_arith acos_table) ring_coord 7 ring_labels ring_contacts
  = Ok [ (7, "A:LYS:10:NZ:5", "B:PHE:20:CE1:51", "pc");
         (7, "A:LYS:10:NZ:5", "B:PHE:20:CE2:52", "pc");
         (7, "A:LYS:10:NZ:5", "B:PHE:20:CE2:52", "pc") ]
  /\ exists accepted : list (string * string * string),
       [ (7, "A:LYS:10:NZ:5", "B:PHE:20:CE1:51", "pc");
         (7, "A:LYS:10:NZ:5", "B:PHE:20:CE2:52", "pc");
         (7, "A:LYS:10:NZ:5", "B:PHE:20:CE2:52", "pc") ] = accepted_rows 7 accepted
       /\ NoDup ((fun group => group.1.1) <$> accepted).
Proof.
  assert (E : compute_pi_cation (H := float_arith acos_table) ring_coord 7 ring_labels
                ring_contacts
              = Ok [ (7, "A:LYS:10:NZ:5", "B:PHE:20:CE1:51", "pc");
                     (7, "A:LYS:10:NZ:5", "B:PHE:20:CE2:52", "pc");
                     (7, "A:LYS:10:NZ:5", "B:PHE:20:CE2:52", "pc") ])
    by (vm_compute; reflexivity).
  split; [exact E|].
  destruct (proj1 (compute_pi_cation_rows (H := float_arith acos_table) ring_coord 7
                     ring_labels ring_contacts) _ E)
    as (grouping & accepted & _ & Eout & _ & Hnd & _).
  exists accepted. split; [exact Eout | exact Hnd].
Defined.

(** ** Extended water bridges, from the hbonds *)

(** X23: an extended water bridge is reported once, in one
    orientation.  For an hbond between two solvent atoms and an hbond
    of each of them to a non-solvent atom, the row that reads from the
    first solvent atom to the second or the row that reads the other
    way round is returned, and never both when the two solvent atoms
    differ. *)
Theorem stratify_extended_water_bridge_one_orientation
    (hbonds : list row4) (solvent_resn : string)
    (frame_idx : Z) (m : gmap string (gset string)) (b : list (string * string)) :
  calc_water_to_residues_map hbonds solvent_resn = Ok (frame_idx, m, b) ->
  exists wb2,
    stratify_extended_water_bridge hbonds solvent_resn = Ok wb2
    /\ forall hbw hb1 hb2 p1 p2,
         hbw ∈ hbonds -> hb1 ∈ hbonds -> hb2 ∈ hbonds ->
         both_solvent solvent_resn hbw ->
         bonds solvent_resn hb1 (atom1_of hbw) p1 ->
         bonds solvent_resn hb2 (atom2_of hbw) p2 ->
         ((frame_idx, p1, atom1_of hbw, atom2_of hbw, p2, "wb2") ∈ wb2
          \/ (frame_idx, p2, atom2_of hbw, atom1_of hbw, p1, "wb2") ∈ wb2)
         /\ (atom1_of hbw <> atom2_of hbw ->
             ~ ((frame_idx, p1, atom1_of hbw, atom2_of hbw, p2, "wb2") ∈ wb2
                /\ (frame_idx, p2, atom2_of hbw, atom1_of hbw, p1, "wb2") ∈ wb2)).
Proof.
  intros E.
  destruct (solvent_bridges_orientation _ _ _ _ _ E) as [Hasym Hcover].
  destruct (calc_water_to_residues_map_spec _ _ _ _ _ E) as (Hmap & _ & _ & _).
  destruct (stratify_extended_water_bridge_Ok _ _ _ _ _ E) as (wb2 & Ewb2 & Hwb2).
  exists wb2. split; [exact Ewb2|].
  intros hbw hb1 hb2 p1 p2 Hinw Hin1 Hin2 Hsolv Hb1 Hb2.
  set (w1 := atom1_of hbw) in *. set (w2 := atom2_of hbw) in *.
  destruct (proj2 (Hmap w1 p1)) as (S1 & HS1 & Hp1); [eauto|].
  destruct (proj2 (Hmap w2 p2)) as (S2 & HS2 & Hp2); [eauto|].
  split.
  - destruct (Hcover hbw Hinw Hsolv) as [Hb | Hb]; [left | right]; apply Hwb2.
    + exists w1, w2, S1, S2, p1, p2. auto 7.
    + exists w2, w1, S2, S1, p2, p1. auto 7.
  - intros Hne [H12 H21].
    apply Hwb2 in H12 as (? & ? & ? & ? & ? & ? & Hb12 & _ & _ & _ & _ & [= <- <- <- <-]).
    apply Hwb2 in H21 as (? & ? & ? & ? & ? & ? & Hb21 & _ & _ & _ & _ & [= <- <- <- <-]).
    exact (Hasym _ _ Hb12 Hne Hb21).
Qed.

Lemma stratify_extended_water_bridge_one_orientation_example :
  exists wb2,
    stratify_extended_water_bridge wb2_example "TIP3" = Ok wb2
    /\ ((7, "A:ASP:10:OD1:100", "W:TIP3:500:OH2:900", "W:TIP3:501:OH2:903",
         "B:LYS:44:NZ:300", "wb2") ∈ wb2
        \/ (7, "B:LYS:44:NZ:300", "W:TIP3:501:OH2:903", "W:TIP3:500:OH2:900",
            "A:ASP:10:OD1:100", "wb2") ∈ wb2).
Proof.
  destruct (stratify_extended_water_bridge_one_orientation wb2_example "TIP3" 7
              {[ "W:TIP3:500:OH2:900" := {[ "A:ASP:10:OD1:100"; "A:SER:12:OG:120" ]};
                 "W:TIP3:501:OH2:903" := {[ "B:LYS:44:NZ:300" ]} ]}
              [("W:TIP3:500:OH2:900", "W:TIP3:501:OH2:903")])
    as (wb2 & E & Hrows); [vm_compute; reflexivity|].
  exists wb2. split; [exact E|].
  apply (Hrows (7, "W:TIP3:500:OH2:900", "W:TIP3:501:OH2:903", "hb")
               (7, "A:ASP:10:OD1:100", "W:TIP3:500:OH2:900", "hb")
               (7, "B:LYS:44:NZ:300", "W:TIP3:501:OH2:903", "hb")).
  - apply (list_elem_of_lookup_2 _ 2). reflexivity.
  - apply (list_elem_of_lookup_2 _ 0). reflexivity.
  - apply (list_elem_of_lookup_2 _ 4). reflexivity.
  - split; apply str_in_spec; vm_compute; reflexivity.
  - split; [apply str_in_spec; vm_compute; reflexivity|].
    split; [rewrite <- str_in_spec; vm_compute; discriminate|]. right. split; reflexivity.
  - split; [apply str_in_spec; vm_compute; reflexivity|].
    split; [rewrite <- str_in_spec; vm_compute; discriminate|]. right. split; reflexivity.
Defined.

(** ** The distance on doubles *)

(** X19: on IEEE doubles [calc_geom_distance] is the same in both
    directions, is the length that [calc_vector_length] gives for the
    vector between the points, is the square root of the sum of the
    squares of the coordinate differences, and is never below zero. *)
Theorem calc_geom_distance_symmetric (math_acos : float -> result float)
    (p q : vec3 float) :
  calc_geom_distance (H := float_arith math_acos) p q
  = calc_geom_distance (H := float_arith math_acos) q p
  /\ calc_geom_distance (H := float_arith math_acos) p q
     = calc_vector_length (H := float_arith math_acos)
         (points_to_vector (H := float_arith math_acos) p q)
  /\ calc_geom_distance (H := float_arith math_acos) p q
     = PrimFloat.sqrt ((vx p - vx q) * (vx p - vx q) + (vy p - vy q) * (vy p - vy q)
                       + (vz p - vz q) * (vz p - vz q))%float
  /\ (calc_geom_distance (H := float_arith math_acos) p q <? 0)%float = false.
Proof.
  split; [exact (eq_sym (spec_distance_swap p q))|].
  split; [exact (eq_sym (spec_distance_swap p q))|].
  split; [reflexivity|].
  exact (float_sqrt_not_negative _).
Qed.

(** ** Not-a-number angles *)

(** X22: in IEEE arithmetic a complete group that passes the distance
    gate and whose angle is NaN is accepted: no comparison with NaN is
    true, so the folded angle is NaN and [NaN > 60] is false.  This is
    what happens to a ring whose three atoms are on one line, as in the
    example: its normal is a zero vector and the quotient under
    [math.acos] is [0 / 0]. *)
Theorem criterion_body_nan_angle (math_acos : float -> result float)
    (atom_coord : string -> vec3 float) (frame_idx : Z) (key : string) (S : gset string)
    (pi_cations : list row4) (a1 a2 a3 : string) :
  size S = 3%nat -> sorted (elements S) = [a1; a2; a3] ->
  f_gt (H := float_arith math_acos)
       (group_distance (H := float_arith math_acos) atom_coord key a1 a2 a3)
       (DISTANCE_CUTOFF (H := float_arith math_acos)) = false ->
  group_angle (H := float_arith math_acos) atom_coord key a1 a2 a3 = Ok nan ->
  criterion_body (H := float_arith math_acos) atom_coord frame_idx pi_cations (key, S)
  = Ok (pi_cations ++ group_rows frame_idx key a1 a2).
Proof.
  intros Hsize Hs Hdist Hangle.
  rewrite (criterion_body_complete atom_coord frame_idx key S pi_cations a1 a2 a3 Hsize Hs).
  rewrite Hdist, Hangle.
  assert (Hgate : f_gt (H := float_arith math_acos)
                    (fold_angle (H := float_arith math_acos) nan)
                    (ANGLE_CUTOFF (H := float_arith math_acos)) = false)
    by (vm_compute; reflexivity).
  now rewrite Hgate.
Qed.

Lemma criterion_body_nan_angle_example :
  calc_geom_normal_vector (H := float_arith acos_nan)
    (collinear_coord "51") (collinear_coord "52") (collinear_coord "50")
  = Vec3 0%float 0%float (-0)%float
  /\ compute_pi_cation (H := float_arith acos_nan) collinear_coord 7 ring_labels
       ring_contacts
     = Ok (group_rows 7 ring_key "B:PHE:20:CE1:51" "B:PHE:20:CE2:52").
Proof.
  split; [vm_compute; reflexivity|].
  unfold compute_pi_cation. rewrite ring_grouping. cbn [mbind result_bind].
  rewrite map_to_list_singleton. cbn [for_each].
  rewrite (criterion_body_nan_angle acos_nan collinear_coord 7 ring_key ring_group []
             "B:PHE:20:CE1:51" "B:PHE:20:CE2:52" "B:PHE:20:CG:50").
  - reflexivity.
  - exact ring_size.
  - exact ring_sorted.
  - vm_compute. reflexivity.
  - vm_compute. reflexivity.
Defined.
